(** * ss-credits: the target pool and hit resolver of [PlayerTargets.ts]

    A shallow embedding of the [PlayerTargets] class (the red/blue variant
    with name popups, and the first, minimal variant) together with the parts
    of its environment it touches: the three.js scene graph, [Math.random],
    and the browser's image loader.

    JavaScript numbers are IEEE 754 binary64 values, which is what Rocq's
    primitive [float] is, so a [number] of the source is a [float] here
    and every arithmetic operation and comparison on it is the primitive
    one; the numbers that only count (an index into an array, the score and
    the streak) are natural numbers. *)

From Stdlib Require Import Floats.
From stdpp Require Import gmap strings list.

Set Warnings "-inexact-float".

(** ** JavaScript numbers *)

Module Num.
(** [a >= b], [a > b], [a < b], [a <= b]; all false when an operand is NaN. *)
Definition ge (a b : float) : bool := PrimFloat.leb b a.
Definition gt (a b : float) : bool := PrimFloat.ltb b a.
Definition lt (a b : float) : bool := PrimFloat.ltb a b.
Definition le (a b : float) : bool := PrimFloat.leb a b.

(** [Math.max(a, b)]: NaN if either operand is NaN, and [+0] wins over [-0]. *)
Definition Math_max (a b : float) : float :=
  if PrimFloat.is_nan a || PrimFloat.is_nan b then PrimFloat.nan
  else if PrimFloat.ltb a b then b
  else if PrimFloat.ltb b a then a
  else if PrimFloat.get_sign a then b else a.

Definition Math_sqrt (a : float) : float := PrimFloat.sqrt a.

Definition Math_PI : float := 3.141592653589793%float.
(** [Math.min(a, b)]: NaN if either operand is NaN, and [-0] wins over [+0]. *)
Definition Math_min (a b : float) : float :=
  if PrimFloat.is_nan a || PrimFloat.is_nan b then PrimFloat.nan
  else if PrimFloat.ltb a b then a
  else if PrimFloat.ltb b a then b
  else if PrimFloat.get_sign a then a else b.
End Num.

(** ** [THREE.Vector3]

    The operations of three.js the class uses, on values: [clone] is the
    identity on a value, and the in-place [add] and [multiplyScalar] return
    the updated vector. *)

Module Vector3.
Record t : Type := mk { x : float; y : float; z : float }.

Definition clone (v : t) : t := v.

Definition add (a v : t) : t :=
  mk (x a + x v)%float (y a + y v)%float (z a + z v)%float.

Definition multiplyScalar (v : t) (s : float) : t :=
  mk (x v * s)%float (y v * s)%float (z v * s)%float.

Definition distanceToSquared (a v : t) : float :=
  let dx := (x a - x v)%float in
  let dy := (y a - y v)%float in
  let dz := (z a - z v)%float in
  (dx * dx + dy * dy + dz * dz)%float.

Definition distanceTo (a v : t) : float :=
  Num.Math_sqrt (distanceToSquared a v).
End Vector3.

(** ** Players and colours *)

Inductive TargetColor : Type := red | blue.

Definition TargetColor_eqb (a b : TargetColor) : bool :=
  match a, b with
  | red, red | blue, blue => true
  | _, _ => false
  end.

Record Player : Type := mkPlayer {
  name : string;
  rank : float;
  country : string;
  pp : string;
  countryRank : float;
  profilePicture : string;
  color : TargetColor
}.

Record Palette : Type := mkPalette { main : string; glow : string; dark : string }.

Definition COLORS (c : TargetColor) : Palette :=
  match c with
  | red => mkPalette "#ff3366" "#ff6b6b" "#c92a2a"
  | blue => mkPalette "#3366ff" "#74c0fc" "#1971c2"
  end.

(** ** Images, canvases and sprites

    An [HTMLImageElement] is an object: two images with the same [src] are
    still two objects, so an image carries the identity it was allocated
    with.  A canvas is recorded by what was drawn on it. *)

Record Image : Type := mkImage { img_id : nat; src : string }.

Inductive AvatarFill : Type :=
  | Avatar (img : Image)
  | Placeholder (fillStyle : string).

Inductive Canvas : Type :=
  | TargetCard (ring glowRing : string) (pulse : float) (fill : AvatarFill) (badge : float)
  | NameCard (shadowColor ppFill : string) (flagOf nameText ppText : string)
  | TextCard (flagOf nameText : string) (rankText : float) (ppText : string).

Inductive Blending : Type := NormalBlending | AdditiveBlending.

Module Sprite.
Record t : Type := mk {
  id : nat;
  position : Vector3.t;
  scale : Vector3.t;
  map : Canvas;
  opacity : float;
  blending : Blending;
  disposed : bool
}.

Definition set_position (p : Vector3.t) (s : t) : t :=
  mk (id s) p (scale s) (map s) (opacity s) (blending s) (disposed s).
Definition set_scale (v : Vector3.t) (s : t) : t :=
  mk (id s) (position s) v (map s) (opacity s) (blending s) (disposed s).
Definition set_opacity (o : float) (s : t) : t :=
  mk (id s) (position s) (scale s) (map s) o (blending s) (disposed s).
(** [(mesh.material as THREE.SpriteMaterial).dispose()] *)
Definition dispose (s : t) : t :=
  mk (id s) (position s) (scale s) (map s) (opacity s) (blending s) true.
End Sprite.

Module Target.
Record t : Type := mk {
  mesh : Sprite.t;
  player : Player;
  velocity : Vector3.t;
  alive : bool;
  avatarImage : option Image;
  spawnTime : float
}.

Definition set_mesh (m : Sprite.t) (g : t) : t :=
  mk m (player g) (velocity g) (alive g) (avatarImage g) (spawnTime g).
Definition set_alive (b : bool) (g : t) : t :=
  mk (mesh g) (player g) (velocity g) b (avatarImage g) (spawnTime g).
End Target.

Module NamePopup.
Record t : Type := mk {
  mesh : Sprite.t;
  velocity : Vector3.t;
  lifetime : float;
  opacity : float
}.
End NamePopup.

Record HitResult : Type := mkHit { hit_player : Player; correct : bool }.

(** ** The state

    The first eight fields are the private fields of a [PlayerTargets]
    instance.  The others are the part of the environment its methods act
    on: the children of [game.scene.scene] (by sprite identity; three.js
    detaches an object before adding it, so a child is listed once), the
    allocator of object identities, the number of [Math.random()] calls made
    so far, the images whose [src] is set and whose load has not finished,
    and the log of the URLs requested from the network. *)

Record World : Type := mkWorld {
  players : list Player;
  targets : list Target.t;
  namePopups : list NamePopup.t;
  avatarCache : gmap string Image;
  spawnTimer : float;
  spawnInterval : float;
  playerIndex : nat;
  gameTime : float;
  scene : list nat;
  nextId : nat;
  randomCalls : nat;
  loading : list Image;
  requests : list string
}.

Definition set_players (v : list Player) (w : World) : World :=
  mkWorld v (targets w) (namePopups w) (avatarCache w) (spawnTimer w)
    (spawnInterval w) (playerIndex w) (gameTime w) (scene w) (nextId w)
    (randomCalls w) (loading w) (requests w).
Definition set_targets (v : list Target.t) (w : World) : World :=
  mkWorld (players w) v (namePopups w) (avatarCache w) (spawnTimer w)
    (spawnInterval w) (playerIndex w) (gameTime w) (scene w) (nextId w)
    (randomCalls w) (loading w) (requests w).
Definition set_namePopups (v : list NamePopup.t) (w : World) : World :=
  mkWorld (players w) (targets w) v (avatarCache w) (spawnTimer w)
    (spawnInterval w) (playerIndex w) (gameTime w) (scene w) (nextId w)
    (randomCalls w) (loading w) (requests w).
Definition set_avatarCache (v : gmap string Image) (w : World) : World :=
  mkWorld (players w) (targets w) (namePopups w) v (spawnTimer w)
    (spawnInterval w) (playerIndex w) (gameTime w) (scene w) (nextId w)
    (randomCalls w) (loading w) (requests w).
Definition set_spawnTimer (v : float) (w : World) : World :=
  mkWorld (players w) (targets w) (namePopups w) (avatarCache w) v
    (spawnInterval w) (playerIndex w) (gameTime w) (scene w) (nextId w)
    (randomCalls w) (loading w) (requests w).
Definition set_playerIndex (v : nat) (w : World) : World :=
  mkWorld (players w) (targets w) (namePopups w) (avatarCache w) (spawnTimer w)
    (spawnInterval w) v (gameTime w) (scene w) (nextId w)
    (randomCalls w) (loading w) (requests w).
Definition set_gameTime (v : float) (w : World) : World :=
  mkWorld (players w) (targets w) (namePopups w) (avatarCache w) (spawnTimer w)
    (spawnInterval w) (playerIndex w) v (scene w) (nextId w)
    (randomCalls w) (loading w) (requests w).
Definition set_scene (v : list nat) (w : World) : World :=
  mkWorld (players w) (targets w) (namePopups w) (avatarCache w) (spawnTimer w)
    (spawnInterval w) (playerIndex w) (gameTime w) v (nextId w)
    (randomCalls w) (loading w) (requests w).
Definition set_nextId (v : nat) (w : World) : World :=
  mkWorld (players w) (targets w) (namePopups w) (avatarCache w) (spawnTimer w)
    (spawnInterval w) (playerIndex w) (gameTime w) (scene w) v
    (randomCalls w) (loading w) (requests w).
Definition set_randomCalls (v : nat) (w : World) : World :=
  mkWorld (players w) (targets w) (namePopups w) (avatarCache w) (spawnTimer w)
    (spawnInterval w) (playerIndex w) (gameTime w) (scene w) (nextId w)
    v (loading w) (requests w).
Definition set_loading (v : list Image) (w : World) : World :=
  mkWorld (players w) (targets w) (namePopups w) (avatarCache w) (spawnTimer w)
    (spawnInterval w) (playerIndex w) (gameTime w) (scene w) (nextId w)
    (randomCalls w) v (requests w).
Definition set_requests (v : list string) (w : World) : World :=
  mkWorld (players w) (targets w) (namePopups w) (avatarCache w) (spawnTimer w)
    (spawnInterval w) (playerIndex w) (gameTime w) (scene w) (nextId w)
    (randomCalls w) (loading w) v.

(** A freshly constructed [PlayerTargets] (the field initialisers of the
    class) in an environment with an empty scene. *)
Definition new_PlayerTargets : World :=
  mkWorld [] [] [] ∅ 0%float 0.5%float 0 0%float [] 0 0 [] [].

(** [game.scene.scene.add(sprite)] and [game.scene.scene.remove(sprite)]. *)
Definition scene_add (i : nat) (w : World) : World :=
  set_scene (filter (λ j, j ≠ i) (scene w) ++ [i]) w.
Definition scene_remove (i : nat) (w : World) : World :=
  set_scene (filter (λ j, j ≠ i) (scene w)) w.

(** ** The avatar cache *)

(** What a call of [loadAvatar] returns: a promise already resolved with
    the cached image, or one that settles when the load of its own image
    finishes. *)
Inductive Promise : Type :=
  | Resolved (img : Image)
  | Awaiting (img : Image).

(** The image a promise is resolved with when its load succeeds. *)
Definition resolution (p : Promise) : Image :=
  match p with Resolved img | Awaiting img => img end.

Definition loadAvatar (url : string) (w : World) : Promise * World :=
  match avatarCache w !! url with
  | Some cached => (Resolved cached, w)
  | None =>
      let img := mkImage (nextId w) url in
      (Awaiting img,
       set_requests (requests w ++ [url])
         (set_loading (loading w ++ [img])
            (set_nextId (S (nextId w)) w)))
  end.

Definition Image_eqb (a b : Image) : bool :=
  Nat.eqb (img_id a) (img_id b) && String.eqb (src a) (src b).

(** The browser finishes the load of [img]: the [onload] handler installed
    by [loadAvatar] stores the image and resolves the promise. *)
Definition onload (img : Image) (w : World) : World :=
  set_loading (filter (λ i, Image_eqb i img = false) (loading w))
    (set_avatarCache (<[src img := img]> (avatarCache w)) w).

(** The load of [img] fails: the promise is rejected, nothing is stored. *)
Definition onerror (img : Image) (w : World) : World :=
  set_loading (filter (λ i, Image_eqb i img = false) (loading w)) w.

(** [preloadAvatars]: the synchronous part, one [loadAvatar] per player of
    [players.slice(0, 50)], in order. *)
Fixpoint loadAvatars (urls : list string) (w : World) : list Promise * World :=
  match urls with
  | [] => ([], w)
  | url :: rest =>
      let '(p, w1) := loadAvatar url w in
      let '(ps, w2) := loadAvatars rest w1 in
      (p :: ps, w2)
  end.

Definition preloadAvatars (w : World) : list Promise * World :=
  loadAvatars (profilePicture <$> take 50 (players w)) w.

Definition setPlayers (ps : list Player) (w : World) : World :=
  snd (preloadAvatars (set_players ps w)).

Definition start (w : World) : World :=
  set_gameTime 0%float
    (set_spawnTimer 0%float
       (set_playerIndex 0
          (set_namePopups []
             (set_targets [] w)))).

(** ** Counting spawns over a run of frames *)

(** How many calls of a run of [update] find the accumulated spawn timer
    at or above [interval] while [remaining] players are unconsumed: the
    timer restarts from 0 at each such call. *)
Fixpoint crossings (interval : float) (deltas : list float) (timer : float)
    (remaining : nat) : nat :=
  match deltas with
  | [] => 0
  | delta :: rest =>
      let timer := (timer + delta)%float in
      if Num.ge timer interval && bool_decide (0 < remaining)
      then S (crossings interval rest 0%float (pred remaining))
      else crossings interval rest timer remaining
  end.

(** Folding the deltas into the spawn timer, as [this.spawnTimer += delta]
    does call after call. *)
Definition accumulated (timer : float) (deltas : list float) : float :=
  foldl (λ t delta, (t + delta)%float) timer deltas.

(** ** The first variant of the class

    The earliest [PlayerTargets.ts]: no avatars, no colours, no popups, a
    spawn interval of 0.3 s.  Its [checkHit] casts a ray with three.js's
    [Raycaster] and is not part of this development. *)

Module Basic.

Record Player : Type := mkPlayer {
  name : string;
  rank : float;
  country : string;
  pp : string;
  countryRank : float
}.

Module Target.
Record t : Type := mk {
  mesh : Sprite.t;
  player : Player;
  velocity : Vector3.t;
  alive : bool
}.

Definition set_mesh (m : Sprite.t) (g : t) : t :=
  mk m (player g) (velocity g) (alive g).
Definition set_alive (b : bool) (g : t) : t :=
  mk (mesh g) (player g) (velocity g) b.
End Target.

Record World : Type := mkWorld {
  players : list Player;
  targets : list Target.t;
  spawnTimer : float;
  spawnInterval : float;
  playerIndex : nat;
  scene : list nat;
  nextId : nat;
  randomCalls : nat
}.

Definition new_PlayerTargets : World :=
  mkWorld [] [] 0%float 0.3%float 0 [] 0 0.

Definition setPlayers (ps : list Player) (w : World) : World :=
  mkWorld ps (targets w) (spawnTimer w) (spawnInterval w) (playerIndex w)
    (scene w) (nextId w) (randomCalls w).

Definition start (w : World) : World :=
  mkWorld (players w) [] 0%float (spawnInterval w) 0
    (scene w) (nextId w) (randomCalls w).

Section Host.
Variable Math_random : nat → float.
Variable Math_sin Math_cos : float → float.

Definition spawnTarget_with (player : Player) (w : World) : World :=
  let canvas := TextCard (country player) (name player) (rank player) (pp player) in
  let r := λ k, Math_random (randomCalls w + k) in
  let angle := (r 0%nat * Num.Math_PI * 2)%float in
  let radius := (r 1%nat * 15 + 5)%float in
  let sprite :=
    Sprite.mk (nextId w)
      (Vector3.mk (Math_cos angle * radius) (Math_sin angle * radius)
         (-150 - r 2%nat * 50))%float
      (Vector3.mk 8 2 1)
      canvas 1%float NormalBlending false in
  let velocity :=
    (Vector3.mk ((r 3%nat - 0.5) * 10) ((r 4%nat - 0.5) * 10) (30 + r 5%nat * 20))%float in
  let target := Target.mk sprite player velocity true in
  mkWorld (players w) (targets w ++ [target]) (spawnTimer w) (spawnInterval w)
    (S (playerIndex w))
    (filter (λ j, j ≠ nextId w) (scene w) ++ [nextId w])
    (S (nextId w)) (randomCalls w + 6).

Definition spawnTarget (w : World) : option World :=
  player ← players w !! playerIndex w;
  Some (spawnTarget_with player w).

(** [removeTarget]: the retired target object, and the scene without it. *)
Definition removeTarget (target : Target.t) (sc : list nat) : Target.t * list nat :=
  let target := Target.set_alive false target in
  let sc := filter (λ j, j ≠ Sprite.id (Target.mesh target)) sc in
  (Target.set_mesh (Sprite.dispose (Target.mesh target)) target, sc).

Definition updateTarget (delta : float) (target : Target.t) (sc : list nat)
  : Target.t * list nat :=
  if negb (Target.alive target) then (target, sc)
  else
    let mesh := Target.mesh target in
    let target :=
      Target.set_mesh
        (Sprite.set_position
           (Vector3.add (Sprite.position mesh)
              (Vector3.multiplyScalar (Vector3.clone (Target.velocity target)) delta))
           mesh) target in
    if Num.gt (Vector3.z (Sprite.position (Target.mesh target))) 5
    then removeTarget target sc
    else (target, sc).

Fixpoint updateTargets (delta : float) (ts : list Target.t) (sc : list nat)
  : list Target.t * list nat :=
  match ts with
  | [] => ([], sc)
  | target :: rest =>
      let '(target', sc1) := updateTarget delta target sc in
      let '(rest', sc2) := updateTargets delta rest sc1 in
      (target' :: rest', sc2)
  end.

Definition set_spawnTimer (v : float) (w : World) : World :=
  mkWorld (players w) (targets w) v (spawnInterval w) (playerIndex w)
    (scene w) (nextId w) (randomCalls w).

(** The loop of [update] over [this.targets]. *)
Definition updateLoop (delta : float) (w : World) : World :=
  let '(ts, sc) := updateTargets delta (targets w) (scene w) in
  mkWorld (players w) ts (spawnTimer w) (spawnInterval w)
    (playerIndex w) sc (nextId w) (randomCalls w).

Definition update (delta : float) (w : World) : option World :=
  let w := set_spawnTimer (spawnTimer w + delta)%float w in
  w ←
    (if Num.ge (spawnTimer w) (spawnInterval w)
        && bool_decide (playerIndex w < length (players w))
     then set_spawnTimer 0%float <$> spawnTarget w
     else Some w);
  Some (updateLoop delta w).

Fixpoint updates (deltas : list float) (w : World) : option World :=
  match deltas with
  | [] => Some w
  | delta :: rest => w' ← update delta w; updates rest w'
  end.

(** The condition of the spawn step, seen from before the call, and the
    state after that step. *)
Definition spawnDue (delta : float) (w : World) : bool :=
  Num.ge (spawnTimer w + delta)%float (spawnInterval w)
  && bool_decide (playerIndex w < length (players w)).

Definition spawnStep (delta : float) (w : World) : World :=
  let w1 := set_spawnTimer (spawnTimer w + delta)%float w in
  if spawnDue delta w
  then
    match players w !! playerIndex w with
    | Some player => set_spawnTimer 0%float (spawnTarget_with player w1)
    | None => w1
    end
  else w1.

End Host.
End Basic.

(** ** A host to run scenarios on

    [Math.random()] returns 0.5 at every call; [Math.sin] and [Math.cos]
    are held at their values at 0. *)

Definition still_random (k : nat) : float := 0.5%float.
Definition still_sin (a : float) : float := 0%float.
Definition still_cos (a : float) : float := 1%float.

(** A sample player, as the fallback data set of the API client has them. *)
Definition sample_player : Player :=
  mkPlayer "Bizzy825" 1 "CA" "21027.39" 1
    "https://cdn.scoresaber.com/avatars/oculus.png" red.

(** A session just started with that one player. *)
Definition sample_session : World :=
  start (setPlayers [sample_player] new_PlayerTargets).

(** A live target 0.1 short of the pass threshold, flying forward at 20. *)
Definition miss_target : Target.t :=
  Target.mk
    (Sprite.mk 0 (Vector3.mk 0 0 (5 - 0.1))%float (Vector3.mk 4 4 1)
       (TargetCard "#ff3366" "#ff6b6b" 0.5 (Placeholder "#c92a2a") 1)
       1%float NormalBlending false)
    sample_player (Vector3.mk 0 0 20) true None 0%float.

(** A pool whose only target is that one, with its one player consumed. *)
Definition miss_scenario : World :=
  mkWorld [sample_player] [miss_target] [] ∅ 0%float 0.5%float 1 0%float [0] 1 6 [] [].

(** The same for the first variant of the class. *)
Definition basic_target : Basic.Target.t :=
  Basic.Target.mk
    (Sprite.mk 0 (Vector3.mk 0 0 (5 - 0.1))%float (Vector3.mk 8 2 1)
       (TextCard "CA" "Bizzy825" 1 "21027.39") 1%float NormalBlending false)
    (Basic.mkPlayer "Bizzy825" 1 "CA" "21027.39" 1) (Vector3.mk 0 0 40) true.

Definition basic_scenario : Basic.World :=
  Basic.mkWorld [Basic.mkPlayer "Bizzy825" 1 "CA" "21027.39" 1] [basic_target]
    0%float 0.3%float 1 [0] 1 6.

(** Two query positions, 2.9 and 3.1 away from [miss_target]. *)
Definition near_position : Vector3.t := (Vector3.mk 2.9 0 (5 - 0.1))%float.
Definition far_position : Vector3.t := (Vector3.mk 3.1 0 (5 - 0.1))%float.

(** A second live target, of another player, sitting exactly at
    [near_position], and a pool that lists it after [miss_target]. *)
Definition other_player : Player :=
  mkPlayer "oermergeesh" 2 "US" "20970.75" 1
    "https://cdn.scoresaber.com/avatars/oculus.png" blue.

Definition closer_target : Target.t :=
  Target.mk
    (Sprite.mk 1 near_position (Vector3.mk 4 4 1)
       (TargetCard "#3366ff" "#74c0fc" 0.5 (Placeholder "#1971c2") 2)
       1%float NormalBlending false)
    other_player (Vector3.mk 0 0 20) true None 0%float.

Definition two_in_range : World :=
  mkWorld [sample_player; other_player] [miss_target; closer_target] [] ∅
    0%float 0.5%float 2 0%float [0; 1] 2 12 [] [].

(** ** The frame clock ([Ticker.ts])

    A subscribed callback is a function object, compared by identity by
    [indexOf]; it is a [nat] here.  [performance.now()] belongs to the
    host: each reading is an argument of the method that takes it.
    [pending] counts the animation frames requested from the browser and
    not yet run.  A callback is taken not to call back into the ticker; the
    only one the game subscribes is [Game.update], which does not. *)

Module Ticker.
Record t : Type := mk {
  callbacks : list nat;
  lastTime : float;
  isRunning : bool;
  pending : nat
}.

Definition subscribe (callback : nat) (tk : t) : t :=
  mk (callbacks tk ++ [callback]) (lastTime tk) (isRunning tk) (pending tk).

(** [this.callbacks.indexOf(callback)], [None] for [-1]. *)
Definition indexOf (callback : nat) (cs : list nat) : option nat :=
  fst <$> list_find (λ c, c = callback) cs.

Definition unsubscribe (callback : nat) (tk : t) : t :=
  match indexOf callback (callbacks tk) with
  | Some index =>
      mk (delete index (callbacks tk)) (lastTime tk) (isRunning tk) (pending tk)
  | None => tk
  end.

(** The body of [tick]: the ticker after it and the calls it made, each a
    callback with the delta it was passed, in order. *)
Definition tick (now : float) (tk : t) : t * list (nat * float) :=
  if negb (isRunning tk) then (tk, [])
  else
    let delta := Num.Math_min ((now - lastTime tk) / 1000)%float 0.1%float in
    (mk (callbacks tk) now true (S (pending tk)),
     (λ callback, (callback, delta)) <$> callbacks tk).

(** [start] reads the clock once itself and once more inside the [tick]
    it calls. *)
Definition start (now now' : float) (tk : t) : t * list (nat * float) :=
  if isRunning tk then (tk, [])
  else tick now' (mk (callbacks tk) now true (pending tk)).

Definition stop (tk : t) : t :=
  mk (callbacks tk) (lastTime tk) false (pending tk).

(** The browser runs one requested animation frame. *)
Definition frame (now : float) (tk : t) : option (t * list (nat * float)) :=
  match pending tk with
  | 0 => None
  | S n => Some (tick now (mk (callbacks tk) (lastTime tk) (isRunning tk) n))
  end.

(** [new Ticker()]: the field initialisers, then [this.start()]. *)
Definition new (now now' : float) : t :=
  fst (start now now' (mk [] 0%float false 0)).

(** What happens to a ticker that is never stopped. *)
Inductive step : t → t → Prop :=
  | tk_subscribe callback tk : step tk (subscribe callback tk)
  | tk_unsubscribe callback tk : step tk (unsubscribe callback tk)
  | tk_start now now' tk : step tk (fst (start now now' tk))
  | tk_frame now tk r : frame now tk = Some r → step tk (fst r).
End Ticker.

(** ** The camera rail ([Rail.ts])

    [duration] (60) and [pathLength] (400) are private fields that are
    never assigned after construction.  The camera belongs to the scene:
    [update] returns, beside the rail, the position it writes to the camera,
    if it writes one. *)

Module Rail.
Record t : Type := mk {
  isFinished : bool;
  progress : float;
  speed : float
}.

Definition new : t := mk false 0%float 1%float.

Definition start (r : t) : t := mk false 0%float 1%float.

Definition setSpeed (multiplier : float) (r : t) : t :=
  mk (isFinished r) (progress r) multiplier.

Section Host.
Variable Math_sin Math_cos : float → float.

Definition update (delta now : float) (r : t) : t * option Vector3.t :=
  if isFinished r then (r, None)
  else
    let progress := (progress r + (delta * speed r) / 60)%float in
    if Num.ge progress 1 then (mk true 1%float (speed r), None)
    else
      let z := (- progress * 400)%float in
      let time := (now * 0.001)%float in
      (mk false progress (speed r),
       Some (Vector3.mk (Math_sin (time * 0.5) * 2) (Math_cos (time * 0.3) * 1.5) z)%float).

Inductive step : t → t → Prop :=
  | rl_start r : step r (start r)
  | rl_update delta now r : step r (fst (update delta now r))
  | rl_setSpeed multiplier r : step r (setSpeed multiplier r).
End Host.
End Rail.

(** ** The orchestrator ([Game.ts]) and the score display ([HUD.ts])

    A projectile's mesh is an object of the scene like a sprite; its glow
    sphere is a child of the mesh, not of the scene.  Of the HUD, the text
    of the score element and the text and [active] class of the streak
    element are kept; the message, the crosshair and the elements that
    flash for a moment on a shot, a hit or a miss are not.  [score] and
    [streak] start at 0 and only ever grow by small whole numbers, which a
    JavaScript number holds exactly: they are natural numbers here. *)

Module Mesh.
Record t : Type := mk {
  id : nat;
  position : Vector3.t;
  disposed : bool
}.
End Mesh.

Module Projectile.
Record t : Type := mk {
  mesh : Mesh.t;
  velocity : Vector3.t;
  color : TargetColor;
  alive : bool
}.
End Projectile.

Module HUD.
Record t : Type := mk {
  scoreEl : nat;
  streakEl : option nat;
  streakActive : bool
}.

(** The markup of the constructor: a score of 0 and an empty streak. *)
Definition new : t := mk 0 None false.

Definition updateScore (score streak : nat) (h : t) : t :=
  if bool_decide (3 ≤ streak)
  then mk score (Some streak) true
  else mk score (streakEl h) false.
End HUD.

Module Game.
Record t : Type := mk {
  targets : World;
  rail : Rail.t;
  hud : HUD.t;
  score : nat;
  streak : nat;
  isPlaying : bool;
  projectiles : list Projectile.t
}.

Definition set_targets (w : World) (g : t) : t :=
  mk w (rail g) (hud g) (score g) (streak g) (isPlaying g) (projectiles g).
Definition set_projectiles (ps : list Projectile.t) (g : t) : t :=
  mk (targets g) (rail g) (hud g) (score g) (streak g) (isPlaying g) ps.
End Game.

(** ** Spawning, retiring, advancing and hit resolution

    [Math.random], [Math.sin] and [Math.cos] belong to the host: the
    [k]-th call of [Math.random()] returns [Math_random k], and nothing is
    assumed about any of the three. *)

Section Host.
Variable Math_random : nat → float.
Variable Math_sin Math_cos : float → float.

(** [Math.sin(this.gameTime * 4) * 0.5 + 0.5] *)
Definition pulseAt (time : float) : float :=
  (Math_sin (time * 4) * 0.5 + 0.5)%float.

Definition updateTargetPulse (w : World) (target : Target.t) : Target.t :=
  let pulse := pulseAt (gameTime w) in
  Target.set_mesh
    (Sprite.set_opacity (0.9 + pulse * 0.1)%float (Target.mesh target)) target.

(** [spawnTarget] once [player] has been read from [this.players]. *)
Definition spawnTarget_with (player : Player) (w : World) : World :=
  let w := set_playerIndex (S (playerIndex w)) w in
  let avatarImage := avatarCache w !! profilePicture player in
  let colors := COLORS (color player) in
  let pulse := pulseAt (gameTime w) in
  let canvas :=
    TargetCard (main colors) (glow colors) pulse
      (match avatarImage with
       | Some img => Avatar img
       | None => Placeholder (dark colors)
       end)
      (rank player) in
  let r := λ k, Math_random (randomCalls w + k) in
  let angle := (r 0%nat * Num.Math_PI * 2)%float in
  let spawnRadius := (r 1%nat * 12 + 5)%float in
  let sprite :=
    Sprite.mk (nextId w)
      (Vector3.mk (Math_cos angle * spawnRadius) (Math_sin angle * spawnRadius)
         (-120 - r 2%nat * 40))%float
      (Vector3.mk 4 4 1)
      canvas 1%float NormalBlending false in
  let velocity :=
    (Vector3.mk ((r 3%nat - 0.5) * 5) ((r 4%nat - 0.5) * 5) (12 + r 5%nat * 8))%float in
  let target := Target.mk sprite player velocity true avatarImage (gameTime w) in
  let w := set_randomCalls (randomCalls w + 6) (set_nextId (S (nextId w)) w) in
  let w := set_targets (targets w ++ [target]) w in
  let w := scene_add (Sprite.id sprite) w in
  match players w !! playerIndex w with
  | Some next => snd (loadAvatar (profilePicture next) w)
  | None => w
  end.

(** [spawnTarget] reads [this.players[this.playerIndex++]]; past the end
    of the array that is [undefined], and reading a property of it throws:
    the result is [None]. *)
Definition spawnTarget (w : World) : option World :=
  player ← players w !! playerIndex w;
  Some (spawnTarget_with player w).

Definition spawnNamePopup (player : Player) (position : Vector3.t) (w : World) : World :=
  let colors := COLORS (color player) in
  let canvas :=
    NameCard (glow colors) (main colors) (country player) (name player) (pp player) in
  let r := λ k, Math_random (randomCalls w + k) in
  let sprite :=
    Sprite.mk (nextId w) position (Vector3.mk 6 1.5 1)%float
      canvas 1%float AdditiveBlending false in
  let velocity :=
    (Vector3.mk ((r 0%nat - 0.5) * 3) (6 + r 1%nat * 3) ((r 2%nat - 0.5) * 3))%float in
  let popup := NamePopup.mk sprite velocity 1.5%float 1%float in
  let w := set_randomCalls (randomCalls w + 3) (set_nextId (S (nextId w)) w) in
  let w := set_namePopups (namePopups w ++ [popup]) w in
  scene_add (Sprite.id sprite) w.

(** [removeTarget] mutates the target object it is handed; the caller's
    array holds that same object, so the updated target is returned for
    the caller to store back in its place. *)
Definition removeTarget (target : Target.t) (spawnPopup : bool) (w : World)
  : Target.t * World :=
  let target := Target.set_alive false target in
  let position := Vector3.clone (Sprite.position (Target.mesh target)) in
  let w := scene_remove (Sprite.id (Target.mesh target)) w in
  let target := Target.set_mesh (Sprite.dispose (Target.mesh target)) target in
  if spawnPopup
  then (target, spawnNamePopup (Target.player target) position w)
  else (target, w).

(** The body of the loop over [this.targets] in [update]. *)
Definition updateTarget (delta : float) (target : Target.t) (w : World)
  : Target.t * World :=
  if negb (Target.alive target) then (target, w)
  else
    let mesh := Target.mesh target in
    let target :=
      Target.set_mesh
        (Sprite.set_position
           (Vector3.add (Sprite.position mesh)
              (Vector3.multiplyScalar (Vector3.clone (Target.velocity target)) delta))
           mesh) target in
    let target := updateTargetPulse w target in
    if Num.gt (Vector3.z (Sprite.position (Target.mesh target))) 5
    then removeTarget target false w
    else (target, w).

Fixpoint updateTargets (delta : float) (ts : list Target.t) (w : World)
  : list Target.t * World :=
  match ts with
  | [] => ([], w)
  | target :: rest =>
      let '(target', w1) := updateTarget delta target w in
      let '(rest', w2) := updateTargets delta rest w1 in
      (target' :: rest', w2)
  end.

(** The body of the loop over [this.namePopups]: the popup after the
    tick, and whether it is spliced out. *)
Definition updatePopup (delta : float) (popup : NamePopup.t) : NamePopup.t * bool :=
  let lifetime := (NamePopup.lifetime popup - delta)%float in
  let opacity := Num.Math_max 0 (lifetime / 1.5)%float in
  let mesh := NamePopup.mesh popup in
  let mesh :=
    Sprite.set_position
      (Vector3.add (Sprite.position mesh)
         (Vector3.multiplyScalar (Vector3.clone (NamePopup.velocity popup)) delta))
      mesh in
  let mesh :=
    Sprite.set_scale
      (Vector3.multiplyScalar (Sprite.scale mesh) (1 + delta * 0.3)%float) mesh in
  let mesh := Sprite.set_opacity opacity mesh in
  let expired := Num.le lifetime 0 in
  (NamePopup.mk (if expired then Sprite.dispose mesh else mesh)
     (NamePopup.velocity popup) lifetime opacity,
   expired).

(** The loop runs from the last index down to 0 and splices the expired
    popup at the index it is visiting, so the later popups are handled
    before the earlier ones and the kept ones stay in order. *)
Fixpoint updatePopups (delta : float) (ps : list NamePopup.t) (w : World)
  : list NamePopup.t * World :=
  match ps with
  | [] => ([], w)
  | popup :: rest =>
      let '(rest', w1) := updatePopups delta rest w in
      let '(popup', expired) := updatePopup delta popup in
      if expired
      then (rest', scene_remove (Sprite.id (NamePopup.mesh popup')) w1)
      else (popup' :: rest', w1)
  end.

(** The two loops of [update], which run after the spawn step. *)
Definition updateLoops (delta : float) (w : World) : World :=
  let '(ts, w) := updateTargets delta (targets w) w in
  let w := set_targets ts w in
  let '(ps, w) := updatePopups delta (namePopups w) w in
  set_namePopups ps w.

Definition update (delta : float) (w : World) : option World :=
  let w := set_gameTime (gameTime w + delta)%float w in
  let w := set_spawnTimer (spawnTimer w + delta)%float w in
  w ←
    (if Num.ge (spawnTimer w) (spawnInterval w)
        && bool_decide (playerIndex w < length (players w))
     then set_spawnTimer 0%float <$> spawnTarget w
     else Some w);
  Some (updateLoops delta w).

(** The loop of [checkHit], which returns from inside the loop at the
    first live target within the hit radius. *)
Fixpoint checkHit_loop (position : Vector3.t) (shotColor : TargetColor)
    (ts : list Target.t) (w : World) : option HitResult * list Target.t * World :=
  match ts with
  | [] => (None, [], w)
  | target :: rest =>
      if negb (Target.alive target)
      then
        let '(r, rest', w') := checkHit_loop position shotColor rest w in
        (r, target :: rest', w')
      else
        let distance := Vector3.distanceTo (Sprite.position (Target.mesh target)) position in
        if Num.lt distance 3
        then
          let correct := TargetColor_eqb (color (Target.player target)) shotColor in
          let '(target', w') := removeTarget target true w in
          (Some (mkHit (Target.player target') correct), target' :: rest, w')
        else
          let '(r, rest', w') := checkHit_loop position shotColor rest w in
          (r, target :: rest', w')
  end.

Definition checkHit (position : Vector3.t) (shotColor : TargetColor) (w : World)
  : option HitResult * World :=
  let '(r, ts, w') := checkHit_loop position shotColor (targets w) w in
  (r, set_targets ts w').

(** [getAliveTargets] *)
Definition getAliveTargets (w : World) : list Target.t :=
  filter (λ t, Target.alive t = true) (targets w).

(** A run of [update] calls, one per frame. *)
Fixpoint updates (deltas : list float) (w : World) : option World :=
  match deltas with
  | [] => Some w
  | delta :: rest => w' ← update delta w; updates rest w'
  end.


(** ** Derived notions used in the statements *)

(** The test of the [checkHit] loop: live and strictly within the hit
    radius of 3. *)
Definition inRange (position : Vector3.t) (target : Target.t) : bool :=
  Target.alive target
  && Num.lt (Vector3.distanceTo (Sprite.position (Target.mesh target)) position) 3.

(** A live target that one tick of [delta] moves past [z > 5]. *)
Definition passesCamera (delta : float) (target : Target.t) : bool :=
  Target.alive target
  && Num.gt
       (Vector3.z (Sprite.position (Target.mesh target))
        + Vector3.z (Target.velocity target) * delta)%float 5.

(** The condition of the spawn step of [update], seen from before the call. *)
Definition spawnDue (delta : float) (w : World) : bool :=
  Num.ge (spawnTimer w + delta)%float (spawnInterval w)
  && bool_decide (playerIndex w < length (players w)).

Definition aliveCount (w : World) : nat := length (getAliveTargets w).

Definition target_id (target : Target.t) : nat := Sprite.id (Target.mesh target).
Definition popup_id (popup : NamePopup.t) : nat := Sprite.id (NamePopup.mesh popup).

(** Every target's sprite was allocated before the next identity to be
    handed out; [new] never returns an object that already exists. *)
Definition targets_allocated (w : World) : Prop :=
  Forall (λ t, target_id t < nextId w) (targets w).

(** The popups that survive a tick, each advanced by it. *)
Definition advancePopups (delta : float) (ps : list NamePopup.t) : list NamePopup.t :=
  fst <$> filter (λ pe, snd pe = false) (updatePopup delta <$> ps).

(** The state after the first half of [update]: both clocks advanced and,
    when a spawn is due, one target spawned and the spawn timer back at 0. *)
Definition spawnStep (delta : float) (w : World) : World :=
  let w1 :=
    set_spawnTimer (spawnTimer w + delta)%float
      (set_gameTime (gameTime w + delta)%float w) in
  if spawnDue delta w
  then
    match players w !! playerIndex w with
    | Some player => set_spawnTimer 0%float (spawnTarget_with player w1)
    | None => w1
    end
  else w1.

(** The target [spawnTarget] creates for [player] in [w]. *)
Definition spawned (player : Player) (w : World) : Target.t :=
  let r := λ k, Math_random (randomCalls w + k) in
  let angle := (r 0%nat * Num.Math_PI * 2)%float in
  let spawnRadius := (r 1%nat * 12 + 5)%float in
  let avatarImage := avatarCache w !! profilePicture player in
  Target.mk
    (Sprite.mk (nextId w)
       (Vector3.mk (Math_cos angle * spawnRadius) (Math_sin angle * spawnRadius)
          (-120 - r 2%nat * 40))%float
       (Vector3.mk 4 4 1)
       (TargetCard (main (COLORS (color player))) (glow (COLORS (color player)))
          (pulseAt (gameTime w))
          (match avatarImage with
           | Some img => Avatar img
           | None => Placeholder (dark (COLORS (color player)))
           end)
          (rank player))
       1%float NormalBlending false)
    player
    (Vector3.mk ((r 3%nat - 0.5) * 5) ((r 4%nat - 0.5) * 5) (12 + r 5%nat * 8))%float
    true avatarImage (gameTime w).

(** The target object after [removeTarget]: dead, its material disposed;
    position, velocity and player are untouched. *)
Definition retired (target : Target.t) : Target.t :=
  Target.mk (Sprite.dispose (Target.mesh target)) (Target.player target)
    (Target.velocity target) false (Target.avatarImage target)
    (Target.spawnTime target).

(** The first target the loop of [checkHit] stops at, with its index. *)
Definition firstInRange (position : Vector3.t) (ts : list Target.t)
  : option (nat * Target.t) :=
  list_find (λ t, inRange position t = true) ts.

(** A live target after the move and pulse steps of the loop body. *)
Definition advanced (delta : float) (w : World) (target : Target.t) : Target.t :=
  updateTargetPulse w
    (Target.set_mesh
       (Sprite.set_position
          (Vector3.add (Sprite.position (Target.mesh target))
             (Vector3.multiplyScalar (Target.velocity target) delta))
          (Target.mesh target))
       target).

(** A call made on the pool by the orchestrator: a frame tick or a shot. *)
Inductive Call : Type :=
  | Advance (delta : float)
  | Shoot (position : Vector3.t) (shotColor : TargetColor).

Definition call (c : Call) (w : World) : option World :=
  match c with
  | Advance delta => update delta w
  | Shoot position shotColor => Some (snd (checkHit position shotColor w))
  end.

Fixpoint calls (cs : list Call) (w : World) : option World :=
  match cs with
  | [] => Some w
  | c :: rest => w' ← call c w; calls rest w'
  end.

(** ** Reachable states

    What can happen to a pool: the four public methods are called, and the
    browser finishes or fails the load of an image that is in flight. *)

Inductive step : World → World → Prop :=
  | step_setPlayers ps w : step w (setPlayers ps w)
  | step_start w : step w (start w)
  | step_update delta w w' : update delta w = Some w' → step w w'
  | step_checkHit position shotColor w :
      step w (snd (checkHit position shotColor w))
  | step_onload img w : img ∈ loading w → step w (onload img w)
  | step_onerror img w : img ∈ loading w → step w (onerror img w).

Definition reachable (w : World) : Prop := rtc step new_PlayerTargets w.

(** The identities of the sprites the pool holds. *)
Definition sprite_ids (w : World) : list nat :=
  (target_id <$> targets w) ++ (popup_id <$> namePopups w).

(** The pool and the scene agree: the sprites of the pool are distinct
    objects allocated in the past, a target's sprite is a child of the scene
    exactly while the target is alive, and every popup's sprite is one. *)
Definition displayed (w : World) : Prop :=
  NoDup (sprite_ids w)
  ∧ Forall (λ i, i < nextId w) (sprite_ids w)
  ∧ Forall (λ t, target_id t ∈ scene w ↔ Target.alive t = true) (targets w)
  ∧ Forall (λ p, popup_id p ∈ scene w) (namePopups w).

(** The targets of the pool belong to the first [playerIndex] players, in
    the order of the player list. *)
Definition consumed_in_order (w : World) : Prop :=
  Target.player <$> targets w = take (playerIndex w) (players w)
  ∧ playerIndex w ≤ length (players w).

(** The URLs of [urls] that are not in the cache of [w]. *)
Definition uncached (w : World) (urls : list string) : list string :=
  filter (λ url, avatarCache w !! url = None) urls.

(** The request the spawn step of [update] issues ahead of time: for the
    player after the one it spawns, when there is one and its avatar is not
    in the cache. *)
Definition lookahead (delta : float) (w : World) : list string :=
  if spawnDue delta w
  then
    match players w !! S (playerIndex w) with
    | Some next => uncached w [profilePicture next]
    | None => []
    end
  else [].

(** The cache holds, under a URL, only an image that was loaded from that
    URL on a request of [loadAvatar]; the images in flight were requested
    too. *)
Definition cache_sound (w : World) : Prop :=
  (∀ url img, avatarCache w !! url = Some img →
              src img = url ∧ url ∈ requests w)
  ∧ Forall (λ img, src img ∈ requests w) (loading w).

(** ** The orchestrator

    The camera belongs to the scene and is not part of the state: [shoot]
    takes the camera position and the unprojected, normalised direction of
    the click as arguments, and [updateCameraParallax], which only moves
    the camera, is left out. *)

(** The game once [init] has run with the players it fetched. *)
Definition Game_init (ps : list Player) : Game.t :=
  Game.mk (setPlayers ps new_PlayerTargets) Rail.new HUD.new 0 0 false [].

Definition Game_start (g : Game.t) : Game.t :=
  Game.mk (start (Game.targets g)) (Rail.start (Game.rail g)) (Game.hud g)
    0 0 true [].

Definition shoot (origin direction : Vector3.t) (color : TargetColor) (g : Game.t)
  : Game.t :=
  let w := Game.targets g in
  let mesh := Mesh.mk (nextId w) origin false in
  let projectile :=
    Projectile.mk mesh (Vector3.multiplyScalar direction 80) color true in
  let w := scene_add (Mesh.id mesh) (set_nextId (nextId w + 2) w) in
  Game.set_projectiles (Game.projectiles g ++ [projectile]) (Game.set_targets w g).

(** The [click] (red) and [contextmenu] (blue) handlers. *)
Definition click (color : TargetColor) (origin direction : Vector3.t) (g : Game.t)
  : Game.t :=
  if negb (Game.isPlaying g) then Game_start g
  else shoot origin direction color g.

Definition removeProjectile (proj : Projectile.t) (w : World)
  : Projectile.t * World :=
  let mesh := Projectile.mesh proj in
  (Projectile.mk (Mesh.mk (Mesh.id mesh) (Mesh.position mesh) true)
     (Projectile.velocity proj) (Projectile.color proj) false,
   scene_remove (Mesh.id mesh) w).

Definition onHit (player : Player) (correct : bool) (g : Game.t) : Game.t :=
  let '(score, streak) :=
    if correct
    then
      let streak := S (Game.streak g) in
      let points := 1 + streak / 5 in
      (Game.score g + points, streak)
    else (Game.score g, 0) in
  Game.mk (Game.targets g) (Game.rail g) (HUD.updateScore score streak (Game.hud g))
    score streak (Game.isPlaying g) (Game.projectiles g).

(** The body of the loop of [updateProjectiles]. *)
Definition updateProjectile (delta : float) (proj : Projectile.t) (g : Game.t)
  : Projectile.t * Game.t :=
  if negb (Projectile.alive proj) then (proj, g)
  else
    let mesh := Projectile.mesh proj in
    let position :=
      Vector3.add (Mesh.position mesh)
        (Vector3.multiplyScalar (Vector3.clone (Projectile.velocity proj)) delta) in
    let proj :=
      Projectile.mk (Mesh.mk (Mesh.id mesh) position (Mesh.disposed mesh))
        (Projectile.velocity proj) (Projectile.color proj) (Projectile.alive proj) in
    let '(hit, w) := checkHit position (Projectile.color proj) (Game.targets g) in
    let g := Game.set_targets w g in
    match hit with
    | Some hit =>
        let g := onHit (hit_player hit) (correct hit) g in
        let '(proj, w) := removeProjectile proj (Game.targets g) in
        (proj, Game.set_targets w g)
    | None =>
        if Num.lt (Vector3.z position) (-200) || Num.gt (Vector3.z position) 50
        then
          let '(proj, w) := removeProjectile proj (Game.targets g) in
          (proj, Game.set_targets w g)
        else (proj, g)
    end.

(** The loop runs from the last projectile down to the first. *)
Fixpoint updateProjectiles_loop (delta : float) (ps : list Projectile.t) (g : Game.t)
  : list Projectile.t * Game.t :=
  match ps with
  | [] => ([], g)
  | proj :: rest =>
      let '(rest', g1) := updateProjectiles_loop delta rest g in
      let '(proj', g2) := updateProjectile delta proj g1 in
      (proj' :: rest', g2)
  end.

Definition updateProjectiles (delta : float) (g : Game.t) : Game.t :=
  let '(ps, g) := updateProjectiles_loop delta (Game.projectiles g) g in
  Game.set_projectiles ps g.

Definition gameOver (g : Game.t) : Game.t :=
  let w :=
    foldl (λ w proj,
             if Projectile.alive proj then snd (removeProjectile proj w) else w)
      (Game.targets g) (Game.projectiles g) in
  Game.mk w (Game.rail g) (Game.hud g) (Game.score g) (Game.streak g) false [].

(** [Game.update], with the clock reading [Rail.update] takes. *)
Definition Game_update (delta now : float) (g : Game.t) : option Game.t :=
  if negb (Game.isPlaying g) then Some g
  else
    let '(rail, _) := Rail.update Math_sin Math_cos delta now (Game.rail g) in
    w ← update delta (Game.targets g);
    let g :=
      Game.mk w rail (Game.hud g) (Game.score g) (Game.streak g)
        (Game.isPlaying g) (Game.projectiles g) in
    let g := updateProjectiles delta g in
    Some (if Rail.isFinished (Game.rail g) then gameOver g else g).

(** What happens to a game: a click, a frame, the end of an image load. *)
Inductive game_step : Game.t → Game.t → Prop :=
  | game_click color origin direction g :
      game_step g (click color origin direction g)
  | game_frame delta now g g' :
      Game_update delta now g = Some g' → game_step g g'
  | game_onload img g :
      img ∈ loading (Game.targets g) →
      game_step g (Game.set_targets (onload img (Game.targets g)) g)
  | game_onerror img g :
      img ∈ loading (Game.targets g) →
      game_step g (Game.set_targets (onerror img (Game.targets g)) g).

(** A game with one player, started by a first click, with one red shot
    fired by a second click from the origin down the tunnel. *)
Definition shot_game : Game.t :=
  click red (Vector3.mk 0 0 0) (Vector3.mk 0 0 (-1))
    (click red (Vector3.mk 0 0 0) (Vector3.mk 0 0 (-1))
       (Game_init [sample_player])).

Definition projectile_id (proj : Projectile.t) : nat :=
  Mesh.id (Projectile.mesh proj).

(** The projectiles and the scene agree: the meshes are distinct objects
    allocated in the past, none of them a sprite of the pool, and a mesh is
    a child of the scene exactly while its projectile is alive. *)
Definition projectiles_displayed (w : World) (ps : list Projectile.t) : Prop :=
  NoDup (projectile_id <$> ps)
  ∧ Forall (λ proj,
              projectile_id proj < nextId w
              ∧ (projectile_id proj ∉ sprite_ids w)
              ∧ (projectile_id proj ∈ scene w ↔ Projectile.alive proj = true)) ps.

(** From [w] to [w'] no object is forgotten by the allocator, the objects
    of [w] that are neither sprites of the pool nor listed in [others] keep
    their place in or out of the scene, and every sprite of the pool of [w']
    is one of [w] or a new object. *)
Definition extends (others : list nat) (w w' : World) : Prop :=
  nextId w ≤ nextId w'
  ∧ (∀ i, i < nextId w → i ∉ sprite_ids w → i ∉ others →
          (i ∈ scene w' ↔ i ∈ scene w))
  ∧ (∀ j, j ∈ sprite_ids w' → j ∈ sprite_ids w ∨ nextId w ≤ j).

Definition aliveProjectiles (ps : list Projectile.t) : list Projectile.t :=
  filter (λ proj, Projectile.alive proj = true) ps.

(** The streak never exceeds the score, and the score element shows the
    score, except from a restart to the first hit after it. *)
Definition scoring_ok (g : Game.t) : Prop :=
  Game.streak g ≤ Game.score g
  ∧ (HUD.scoreEl (Game.hud g) = Game.score g
     ∨ (Game.score g = 0 ∧ Game.streak g = 0)).

Definition game_inv (g : Game.t) : Prop :=
  displayed (Game.targets g)
  ∧ projectiles_displayed (Game.targets g) (Game.projectiles g)
  ∧ (Game.isPlaying g = false → Game.projectiles g = [])
  ∧ scoring_ok g.

(** The pool [w'] holds at slot [i] a target with the player, velocity,
    avatar image, spawn time, sprite identity, card texture and scale of
    [t]. *)
Definition keeps_card (i : nat) (t : Target.t) (w' : World) : Prop :=
  ∃ t',
    targets w' !! i = Some t'
    ∧ Target.player t' = Target.player t
    ∧ Target.velocity t' = Target.velocity t
    ∧ Target.avatarImage t' = Target.avatarImage t
    ∧ Target.spawnTime t' = Target.spawnTime t
    ∧ target_id t' = target_id t
    ∧ Sprite.map (Target.mesh t') = Sprite.map (Target.mesh t)
    ∧ Sprite.scale (Target.mesh t') = Sprite.scale (Target.mesh t).

(** ** Facts about the loops *)

Lemma set_targets_id w : set_targets (targets w) w = w.
Proof. by destruct w. Qed.

Lemma set_scene_id w : set_scene (scene w) w = w.
Proof. by destruct w. Qed.

Lemma updateTarget_world delta target w :
  snd (updateTarget delta target w)
  = if passesCamera delta target then scene_remove (target_id target) w else w.
Proof.
  unfold updateTarget, passesCamera.
  destruct (Target.alive target); simpl; [|done].
  by destruct (Num.gt _ 5).
Qed.

Lemma updateTarget_time delta target w1 w2 :
  gameTime w1 = gameTime w2 →
  fst (updateTarget delta target w1) = fst (updateTarget delta target w2).
Proof.
  intros Ht. unfold updateTarget, updateTargetPulse.
  destruct (Target.alive target); simpl; [|done].
  rewrite Ht. by destruct (Num.gt _ 5).
Qed.

(** The target loop touches the scene only, and only by removing. *)
Lemma updateTargets_frame delta ts w :
  snd (updateTargets delta ts w)
  = set_scene (scene (snd (updateTargets delta ts w))) w.
Proof.
  revert w. induction ts as [|t ts IH]; intros w; simpl.
  - by rewrite set_scene_id.
  - pose proof (updateTarget_world delta t w) as Hw.
    destruct (updateTarget delta t w) as [t' w1]; simpl in Hw.
    specialize (IH w1).
    destruct (updateTargets delta ts w1) as [ts' w2]; simpl in *.
    rewrite IH. subst w1. by destruct (passesCamera delta t), w.
Qed.

Lemma updateTargets_scene delta ts w i :
  i ∈ scene (snd (updateTargets delta ts w))
  ↔ i ∈ scene w ∧ i ∉ target_id <$> filter (λ t, passesCamera delta t = true) ts.
Proof.
  revert w. induction ts as [|t ts IH]; intros w; simpl.
  - split; [intros ?; split; [done|apply not_elem_of_nil] | tauto].
  - pose proof (updateTarget_world delta t w) as Hw.
    destruct (updateTarget delta t w) as [t' w1]; simpl in Hw.
    specialize (IH w1).
    destruct (updateTargets delta ts w1) as [ts' w2]; simpl in *.
    rewrite IH, Hw, filter_cons.
    destruct (passesCamera delta t) eqn:Hp; simpl.
    + rewrite list_elem_of_filter, not_elem_of_cons. tauto.
    + done.
Qed.

Lemma updateTargets_targets delta ts w :
  fst (updateTargets delta ts w) = (λ t, fst (updateTarget delta t w)) <$> ts.
Proof.
  revert w. induction ts as [|t ts IH]; intros w; simpl; [done|].
  pose proof (updateTarget_world delta t w) as Hw.
  destruct (updateTarget delta t w) as [t' w1] eqn:Ht; simpl in Hw.
  specialize (IH w1).
  destruct (updateTargets delta ts w1) as [ts' w2]; simpl in *.
  rewrite IH. f_equal. apply list_fmap_ext. intros _ x _.
  apply updateTarget_time. subst w1. by destruct (passesCamera delta t).
Qed.

Lemma updatePopups_popups delta ps w :
  fst (updatePopups delta ps w) = advancePopups delta ps.
Proof.
  unfold advancePopups. induction ps as [|p ps IH]; [done|].
  cbn [updatePopups].
  destruct (updatePopups delta ps w) as [ps' w1]; simpl in IH.
  rewrite fmap_cons, filter_cons.
  destruct (updatePopup delta p) as [p' [|]]; simpl; [done|].
  by rewrite IH.
Qed.

Lemma updatePopups_frame delta ps w :
  snd (updatePopups delta ps w)
  = set_scene (scene (snd (updatePopups delta ps w))) w.
Proof.
  induction ps as [|p ps IH]; cbn [updatePopups].
  - by rewrite set_scene_id.
  - destruct (updatePopups delta ps w) as [ps' w1]; simpl in IH.
    destruct (updatePopup delta p) as [p' [|]]; simpl; [|done].
    rewrite IH. by destruct w.
Qed.

Lemma updatePopups_scene delta ps w i :
  i ∈ scene (snd (updatePopups delta ps w)) → i ∈ scene w.
Proof.
  induction ps as [|p ps IH]; cbn [updatePopups]; [done|].
  destruct (updatePopups delta ps w) as [ps' w1]; simpl in IH.
  destruct (updatePopup delta p) as [p' [|]]; simpl; [|done].
  rewrite list_elem_of_filter. tauto.
Qed.

Lemma advancePopups_length delta ps :
  length (advancePopups delta ps) ≤ length ps.
Proof.
  unfold advancePopups. rewrite length_fmap.
  etrans; [apply length_filter|]. by rewrite length_fmap.
Qed.

(** The two loops together: the targets and popups are advanced, the
    scene loses sprites, and nothing else changes. *)
Lemma updateLoops_eq delta w :
  updateLoops delta w
  = set_namePopups (advancePopups delta (namePopups w))
      (set_targets ((λ t, fst (updateTarget delta t w)) <$> targets w)
         (set_scene (scene (updateLoops delta w)) w)).
Proof.
  unfold updateLoops.
  pose proof (updateTargets_frame delta (targets w) w) as Hf.
  pose proof (updateTargets_targets delta (targets w) w) as Ht.
  destruct (updateTargets delta (targets w) w) as [ts w1]; cbn [fst snd] in *.
  set (w2 := set_targets ts w1).
  pose proof (updatePopups_frame delta (namePopups w2) w2) as Hg.
  pose proof (updatePopups_popups delta (namePopups w2) w2) as Hp.
  destruct (updatePopups delta (namePopups w2) w2) as [ps w3]; cbn [fst snd] in *.
  subst ps ts. rewrite Hg. subst w2. rewrite Hf. by destruct w.
Qed.

Lemma updateLoops_scene delta w i :
  i ∈ scene (updateLoops delta w) →
  i ∈ scene w ∧ i ∉ target_id <$> filter (λ t, passesCamera delta t = true) (targets w).
Proof.
  unfold updateLoops.
  pose proof (updateTargets_scene delta (targets w) w i) as Hs.
  destruct (updateTargets delta (targets w) w) as [ts w1]; cbn [fst snd] in *.
  set (w2 := set_targets ts w1).
  pose proof (updatePopups_scene delta (namePopups w2) w2 i) as Hp.
  destruct (updatePopups delta (namePopups w2) w2) as [ps w3]; cbn [fst snd] in *.
  intros Hi. apply Hs. by apply Hp.
Qed.

(** ** The spawn step *)

(** [update] never throws, and is the spawn step followed by the loops. *)
Lemma update_eq delta w :
  update delta w = Some (updateLoops delta (spawnStep delta w)).
Proof.
  unfold update, spawnStep, spawnDue; simpl.
  destruct (Num.ge _ _); simpl; [|done].
  case_bool_decide as Hlt; simpl; [|done].
  unfold spawnTarget; simpl.
  destruct (lookup_lt_is_Some_2 _ _ Hlt) as [player ->]. done.
Qed.

Lemma spawnTarget_with_fields player w :
  let w' := spawnTarget_with player w in
  targets w' = targets w ++ [spawned player w]
  ∧ playerIndex w' = S (playerIndex w)
  ∧ players w' = players w
  ∧ namePopups w' = namePopups w
  ∧ avatarCache w' = avatarCache w
  ∧ spawnTimer w' = spawnTimer w
  ∧ spawnInterval w' = spawnInterval w
  ∧ gameTime w' = gameTime w
  ∧ scene w' = filter (λ j, j ≠ nextId w) (scene w) ++ [nextId w]
  ∧ nextId w < nextId w'.
Proof.
  unfold spawnTarget_with, loadAvatar, spawned; simpl.
  destruct (players w !! S (playerIndex w)) as [next|]; simpl;
    [destruct (avatarCache w !! profilePicture next); simpl|];
    repeat split; lia.
Qed.

Lemma spawnDue_lookup delta w :
  spawnDue delta w = true → is_Some (players w !! playerIndex w).
Proof.
  unfold spawnDue. intros [_ Hlt%bool_decide_eq_true]%andb_true_iff.
  by apply lookup_lt_is_Some_2.
Qed.

Lemma spawnStep_fields delta w :
  let w' := spawnStep delta w in
  (∃ new, targets w' = targets w ++ new
          ∧ length new = (if spawnDue delta w then 1 else 0)
          ∧ Forall (λ t, Target.alive t = true ∧ target_id t = nextId w
                         ∧ target_id t < nextId (spawnStep delta w)) new)
  ∧ playerIndex w' = playerIndex w + (if spawnDue delta w then 1 else 0)
  ∧ spawnTimer w' = (if spawnDue delta w then 0 else spawnTimer w + delta)%float
  ∧ players w' = players w
  ∧ spawnInterval w' = spawnInterval w
  ∧ namePopups w' = namePopups w
  ∧ gameTime w' = (gameTime w + delta)%float
  ∧ nextId w ≤ nextId w'.
Proof.
  unfold spawnStep.
  pose proof (spawnDue_lookup delta w) as Hl.
  destruct (spawnDue delta w).
  - destruct Hl as [player ->]; [done|].
    set (w1 := set_spawnTimer (spawnTimer w + delta) _).
    pose proof (spawnTarget_with_fields player w1) as Hf. cbv zeta in Hf.
    set (w2 := spawnTarget_with player w1) in *. clearbody w2.
    destruct Hf as (Ht & Hi & Hp & Hn & _ & _ & Hs & Hg & _ & Hid).
    simpl in *. rewrite Ht, Hi, Hp, Hn, Hs, Hg.
    split; [|repeat split; lia].
    exists [spawned player w1]. repeat split. repeat constructor. simpl. done.
  - simpl. split; [|repeat split; lia].
    exists []. rewrite app_nil_r. repeat split. constructor.
Qed.

(** What one call of [update] does to the spawn bookkeeping. *)
Lemma update_spawn delta w :
  ∃ w', update delta w = Some w'
    ∧ length (targets w') = length (targets w) + (if spawnDue delta w then 1 else 0)
    ∧ playerIndex w' = playerIndex w + (if spawnDue delta w then 1 else 0)
    ∧ spawnTimer w' = (if spawnDue delta w then 0 else spawnTimer w + delta)%float
    ∧ players w' = players w
    ∧ spawnInterval w' = spawnInterval w.
Proof.
  eexists. split; [apply update_eq|].
  rewrite updateLoops_eq; simpl.
  destruct (spawnStep_fields delta w)
    as ((new & Ht & Hlen & _) & Hi & Hs & Hp & Hv & _).
  rewrite length_fmap, Ht, length_app, Hlen. done.
Qed.

Lemma updates_spawn deltas w :
  ∃ w', updates deltas w = Some w'
    ∧ length (targets w')
      = length (targets w)
        + crossings (spawnInterval w) deltas (spawnTimer w)
            (length (players w) - playerIndex w)
    ∧ playerIndex w'
      = playerIndex w
        + crossings (spawnInterval w) deltas (spawnTimer w)
            (length (players w) - playerIndex w)
    ∧ players w' = players w.
Proof.
  revert w. induction deltas as [|delta rest IH]; intros w; simpl.
  - exists w. repeat split; lia.
  - destruct (update_spawn delta w) as (w1 & -> & Ht & Hi & Hs & Hp & Hv); simpl.
    destruct (IH w1) as (w' & -> & Ht' & Hi' & Hp').
    exists w'. split; [done|].
    rewrite Ht', Hi', Hp', Ht, Hi, Hs, Hp, Hv.
    assert (bool_decide (0 < length (players w) - playerIndex w)
            = bool_decide (playerIndex w < length (players w))) as ->
      by (apply bool_decide_ext; lia).
    change (Num.ge _ _ && _) with (spawnDue delta w).
    destruct (spawnDue delta w).
    + replace (length (players w) - (playerIndex w + 1))
        with (pred (length (players w) - playerIndex w)) by lia.
      repeat split; lia.
    + rewrite !Nat.add_0_r. repeat split; lia.
Qed.

Lemma crossings_positive interval deltas timer remaining :
  deltas ≠ [] → 0 < remaining →
  Num.ge (accumulated timer deltas) interval = true →
  0 < crossings interval deltas timer remaining.
Proof.
  revert timer. induction deltas as [|delta rest IH]; intros timer Hne Hr Hge; [done|].
  simpl in *. rewrite bool_decide_eq_true_2 by done.
  destruct (Num.ge (timer + delta) interval) eqn:Hnow; simpl; [lia|].
  destruct rest as [|d rest']; [simpl in Hge; congruence|].
  by apply IH.
Qed.

(** ** Retiring a target and resolving a hit *)

Lemma removeTarget_eq target spawnPopup w :
  removeTarget target spawnPopup w
  = (retired target,
     if spawnPopup
     then spawnNamePopup (Target.player target)
            (Sprite.position (Target.mesh target))
            (scene_remove (target_id target) w)
     else scene_remove (target_id target) w).
Proof. unfold removeTarget. by destruct spawnPopup. Qed.

Lemma checkHit_loop_find position shotColor ts w :
  checkHit_loop position shotColor ts w
  = match firstInRange position ts with
    | Some (i, target) =>
        (Some (mkHit (Target.player target)
                 (TargetColor_eqb (color (Target.player target)) shotColor)),
         <[i := retired target]> ts,
         snd (removeTarget target true w))
    | None => (None, ts, w)
    end.
Proof.
  unfold firstInRange.
  induction ts as [|t ts IH]; [done|].
  cbn [checkHit_loop list_find].
  destruct (decide (inRange position t = true)) as [Hin|Hout].
  - apply andb_true_iff in Hin as [Ha Hd].
    rewrite Ha; cbn [negb]. rewrite Hd. by rewrite removeTarget_eq.
  - assert (firstInRange_tail :
        (let '(r, rest', w') := checkHit_loop position shotColor ts w in
         (r, t :: rest', w'))
        = match prod_map S id <$> list_find (λ t0, inRange position t0 = true) ts with
          | Some (i, target) =>
              (Some (mkHit (Target.player target)
                       (TargetColor_eqb (color (Target.player target)) shotColor)),
               <[i := retired target]> (t :: ts),
               snd (removeTarget target true w))
          | None => (None, t :: ts, w)
          end).
    { rewrite IH. by destruct (list_find _ ts) as [[i x]|]. }
    destruct (Target.alive t) eqn:Ha; cbn [negb]; [|done].
    destruct (Num.lt _ 3) eqn:Hd; [|done].
    destruct Hout. unfold inRange. by rewrite Ha, Hd.
Qed.

(** [checkHit] in one equation: nothing happens without a target in
    range; otherwise the first one in range is retired in place, its
    sprite leaves the scene and a popup is spawned for its player. *)
Lemma checkHit_find position shotColor w :
  checkHit position shotColor w
  = match firstInRange position (targets w) with
    | Some (i, target) =>
        (Some (mkHit (Target.player target)
                 (TargetColor_eqb (color (Target.player target)) shotColor)),
         set_targets (<[i := retired target]> (targets w))
           (spawnNamePopup (Target.player target)
              (Sprite.position (Target.mesh target))
              (scene_remove (target_id target) w)))
    | None => (None, w)
    end.
Proof.
  unfold checkHit. rewrite checkHit_loop_find.
  destruct (firstInRange position (targets w)) as [[i target]|].
  - by rewrite removeTarget_eq.
  - by rewrite set_targets_id.
Qed.

Lemma firstInRange_split position before target after :
  Forall (λ t, inRange position t = false) before →
  inRange position target = true →
  firstInRange position (before ++ target :: after)
  = Some (length before, target).
Proof.
  intros Hb Ht. apply list_find_Some. split_and!.
  - by rewrite list_lookup_middle.
  - done.
  - intros j y Hj Hlt. rewrite lookup_app_l in Hj by done.
    rewrite Forall_lookup in Hb. rewrite (Hb _ _ Hj). done.
Qed.

Lemma firstInRange_none position ts :
  Forall (λ t, inRange position t = false) ts →
  firstInRange position ts = None.
Proof.
  intros Hb. apply list_find_None. eapply Forall_impl; [done|].
  simpl. intros t ->. done.
Qed.

Lemma updateTarget_target delta target w :
  fst (updateTarget delta target w)
  = if Target.alive target
    then if passesCamera delta target
         then retired (advanced delta w target)
         else advanced delta w target
    else target.
Proof.
  unfold updateTarget, passesCamera, advanced.
  destruct (Target.alive target); cbn [negb andb]; [|done].
  cbn [updateTargetPulse Target.mesh Target.set_mesh Sprite.position
       Sprite.set_position Sprite.set_opacity Vector3.z Vector3.add
       Vector3.multiplyScalar Vector3.clone].
  destruct (Num.gt _ 5); [|done].
  by rewrite removeTarget_eq.
Qed.

Lemma aliveCount_retire (ts : list Target.t) j t :
  ts !! j = Some t → Target.alive t = true →
  length (filter (λ t, Target.alive t = true) ts)
  = S (length (filter (λ t, Target.alive t = true) (<[j := retired t]> ts))).
Proof.
  revert j. induction ts as [|x ts IH]; intros [|j] Hj Ha; simplify_eq/=.
  - rewrite !filter_cons. rewrite decide_True by done.
    rewrite decide_False by (simpl; congruence). done.
  - rewrite !filter_cons. destruct (decide _); simpl; by rewrite (IH j).
Qed.

(** A dead target is skipped by both loops that visit targets. *)
Lemma dead_not_inRange position t : Target.alive t = false → inRange position t = false.
Proof. unfold inRange. by intros ->. Qed.

Lemma firstInRange_alive position ts i t :
  firstInRange position ts = Some (i, t) →
  ts !! i = Some t ∧ Target.alive t = true.
Proof.
  intros (Hi & Hin & _)%list_find_Some. split; [done|].
  by apply andb_true_iff in Hin as [? _].
Qed.

Lemma checkHit_dead position shotColor w i t :
  targets w !! i = Some t → Target.alive t = false →
  targets (snd (checkHit position shotColor w)) !! i = Some t.
Proof.
  intros Hi Hd. rewrite checkHit_find.
  destruct (firstInRange position (targets w)) as [[j x]|] eqn:Hf; [|done].
  apply firstInRange_alive in Hf as [Hj Ha].
  cbn [snd targets set_targets].
  rewrite list_lookup_insert_ne; [done|]. intros ->. congruence.
Qed.

Lemma update_dead delta w i t :
  targets w !! i = Some t → Target.alive t = false →
  ∃ w', update delta w = Some w' ∧ targets w' !! i = Some t.
Proof.
  intros Hi Hd. eexists. split; [apply update_eq|].
  rewrite updateLoops_eq. cbn [targets set_namePopups set_targets].
  destruct (spawnStep_fields delta w) as ((new & -> & _) & _).
  rewrite list_lookup_fmap, lookup_app_l by (by eapply lookup_lt_Some).
  rewrite Hi. cbn. by rewrite updateTarget_target, Hd.
Qed.

Lemma calls_dead cs w i t :
  targets w !! i = Some t → Target.alive t = false →
  ∃ w', calls cs w = Some w' ∧ targets w' !! i = Some t.
Proof.
  revert w. induction cs as [|c cs IH]; intros w Hi Hd; [by exists w|].
  cbn [calls]. destruct c as [delta|position shotColor]; cbn [call].
  - destruct (update_dead delta w i t Hi Hd) as (w1 & -> & Hi1). by apply IH.
  - cbn. apply IH; [by apply checkHit_dead|done].
Qed.

Lemma spawnNamePopup_fields player position w :
  let w' := spawnNamePopup player position w in
  (∃ popup,
      namePopups w' = namePopups w ++ [popup]
      ∧ popup_id popup = nextId w
      ∧ Sprite.position (NamePopup.mesh popup) = position
      ∧ Sprite.map (NamePopup.mesh popup)
        = NameCard (glow (COLORS (color player))) (main (COLORS (color player)))
            (country player) (name player) (pp player))
  ∧ scene w' = filter (λ j, j ≠ nextId w) (scene w) ++ [nextId w]
  ∧ targets w' = targets w
  ∧ nextId w' = S (nextId w).
Proof. unfold spawnNamePopup; simpl. split; [|done]. eexists. by split_and!. Qed.

(** ** The hit resolver *)

(** C2: the proximity resolver answers with the first target, in the order
    of the pool, that is alive and whose distance to the queried position is
    strictly below 3 (targets before it that are dead or out of range are
    passed over, and nothing is sorted by distance), with [correct] telling
    whether its colour is the queried one; it answers [null] when no live
    target is in range.  A lone live target of the queried colour at
    distance 2.9 is returned with [correct = true]; at distance 3.1 the
    answer is [null]. *)
Theorem checkHit_first_in_range position shotColor w :
  (∀ before target after,
      targets w = before ++ target :: after →
      Forall (λ t, inRange position t = false) before →
      inRange position target = true →
      fst (checkHit position shotColor w)
      = Some (mkHit (Target.player target)
                (TargetColor_eqb (color (Target.player target)) shotColor)))
  ∧ (Forall (λ t, inRange position t = false) (targets w) →
     fst (checkHit position shotColor w) = None)
  ∧ (∀ target,
        targets w = [target] →
        Target.alive target = true →
        color (Target.player target) = shotColor →
        (Vector3.distanceTo (Sprite.position (Target.mesh target)) position
         = 2.9%float →
         fst (checkHit position shotColor w)
         = Some (mkHit (Target.player target) true))
        ∧ (Vector3.distanceTo (Sprite.position (Target.mesh target)) position
           = 3.1%float →
           fst (checkHit position shotColor w) = None)).
Proof.
  split_and!.
  - intros before target after Hts Hb Ht.
    rewrite checkHit_find, Hts, (firstInRange_split _ _ _ _ Hb Ht). done.
  - intros Hall. by rewrite checkHit_find, (firstInRange_none _ _ Hall).
  - intros target Hts Ha Hc. split; intros Hd.
    + rewrite checkHit_find, Hts.
      change [target] with ([] ++ target :: []).
      rewrite (firstInRange_split position [] target []); [|constructor|].
      * cbn. rewrite Hc. by destruct shotColor.
      * unfold inRange. by rewrite Ha, Hd.
    + rewrite checkHit_find, Hts, firstInRange_none; [done|].
      repeat constructor. unfold inRange. by rewrite Ha, Hd.
Qed.

(** C3: when the proximity resolver matches a target (the first one in
    range), whatever the queried colour: the answer carries the target's
    player and [correct] is the comparison of the target's colour with the
    queried one; in the pool the target is now dead with its material
    disposed, in its old place and where it was; its sprite is no longer in
    the scene; exactly one popup has been added, at the target's position,
    drawn with the glow and main colours of the target's own colour and
    added to the scene; and the state after the call is the same for a red
    and for a blue query. *)
Theorem checkHit_retires_match position shotColor w before target after :
  targets w = before ++ target :: after →
  Forall (λ t, inRange position t = false) before →
  inRange position target = true →
  targets_allocated w →
  let w' := snd (checkHit position shotColor w) in
  fst (checkHit position shotColor w)
  = Some (mkHit (Target.player target)
            (TargetColor_eqb (color (Target.player target)) shotColor))
  ∧ (∃ target',
        targets w' = before ++ target' :: after
        ∧ Target.alive target' = false
        ∧ Sprite.disposed (Target.mesh target') = true
        ∧ target_id target' = target_id target
        ∧ Sprite.position (Target.mesh target') = Sprite.position (Target.mesh target)
        ∧ Target.velocity target' = Target.velocity target
        ∧ Target.player target' = Target.player target)
  ∧ (target_id target ∉ scene w')
  ∧ (∃ popup,
        namePopups w' = namePopups w ++ [popup]
        ∧ Sprite.position (NamePopup.mesh popup) = Sprite.position (Target.mesh target)
        ∧ Sprite.map (NamePopup.mesh popup)
          = NameCard (glow (COLORS (color (Target.player target))))
              (main (COLORS (color (Target.player target))))
              (country (Target.player target)) (name (Target.player target))
              (pp (Target.player target))
        ∧ (popup_id popup ∈ scene w'))
  ∧ snd (checkHit position red w) = snd (checkHit position blue w).
Proof.
  intros Hts Hb Ht Halloc w'. subst w'.
  rewrite !checkHit_find, Hts, (firstInRange_split _ _ _ _ Hb Ht).
  cbn [fst snd]. rewrite <- Hts.
  set (w0 := scene_remove (target_id target) w).
  destruct (spawnNamePopup_fields (Target.player target)
              (Sprite.position (Target.mesh target)) w0)
    as ((popup & Hp & Hid & Hpos & Hmap) & Hsc & _).
  cbn [targets namePopups scene set_targets].
  assert (target_id target < nextId w) as Hlt.
  { unfold targets_allocated in Halloc. rewrite Forall_forall in Halloc.
    apply Halloc. rewrite Hts. set_solver. }
  split_and!; [done| |..|done].
  - exists (retired target). rewrite Hts.
    rewrite insert_app_r_alt, Nat.sub_diag by done. by split_and!.
  - rewrite Hsc. subst w0. cbn.
    rewrite elem_of_app, !list_elem_of_filter, list_elem_of_singleton. lia.
  - exists popup. split_and!; [done..|].
    rewrite Hsc, Hid. set_solver.
Qed.

Lemma checkHit_cases position shotColor w :
  (fst (checkHit position shotColor w) = None
   ∧ snd (checkHit position shotColor w) = w)
  ∨ (∃ j t,
        targets w !! j = Some t
        ∧ Target.alive t = true
        ∧ fst (checkHit position shotColor w)
          = Some (mkHit (Target.player t)
                    (TargetColor_eqb (color (Target.player t)) shotColor))
        ∧ targets (snd (checkHit position shotColor w))
          = <[j := retired t]> (targets w)).
Proof.
  rewrite checkHit_find.
  destruct (firstInRange position (targets w)) as [[j t]|] eqn:Hf; [right|by left].
  apply firstInRange_alive in Hf as [Hj Ha]. by exists j, t.
Qed.

(** C4: a call of the resolver either matches nothing and leaves the pool
    as it was, or retires exactly one target, which was alive before the
    call and is dead after it, so the number of live targets drops by
    exactly one and never by more; a dead target is left exactly as it is
    by every later call, shot or frame tick, so it is never the target of a
    later match; and when a second shot at the same position matches too,
    it matches a different target, one that was alive all along. *)
Theorem checkHit_retires_at_most_one position shotColor w :
  let w' := snd (checkHit position shotColor w) in
  (match fst (checkHit position shotColor w) with
   | None => w' = w
   | Some hit =>
       ∃ j t,
         targets w !! j = Some t
         ∧ Target.alive t = true
         ∧ hit_player hit = Target.player t
         ∧ targets w' = <[j := retired t]> (targets w)
         ∧ aliveCount w = S (aliveCount w')
   end)
  ∧ length (targets w') = length (targets w)
  ∧ aliveCount w' ≤ aliveCount w ≤ S (aliveCount w')
  ∧ (∀ i t cs,
        targets w !! i = Some t → Target.alive t = false →
        ∃ w'', calls cs w = Some w'' ∧ targets w'' !! i = Some t)
  ∧ (∀ hit1 hit2 shotColor2,
        fst (checkHit position shotColor w) = Some hit1 →
        fst (checkHit position shotColor2 w') = Some hit2 →
        ∃ j1 j2 t1 t2,
          j1 ≠ j2
          ∧ targets w !! j1 = Some t1 ∧ Target.alive t1 = true
          ∧ targets w !! j2 = Some t2 ∧ Target.alive t2 = true
          ∧ hit_player hit1 = Target.player t1
          ∧ hit_player hit2 = Target.player t2).
Proof.
  intros w'. subst w'. unfold aliveCount, getAliveTargets.
  destruct (checkHit_cases position shotColor w)
    as [[-> ->]|(j & t & Hj & Ha & -> & Hts)].
  - split_and!; [done|done|lia|lia|..].
    + intros i t cs. apply calls_dead.
    + done.
  - rewrite Hts. pose proof (aliveCount_retire _ _ _ Hj Ha) as Hc.
    split_and!.
    + exists j, t. by split_and!.
    + by rewrite length_insert.
    + lia.
    + lia.
    + intros i t' cs. apply calls_dead.
    + intros hit1 hit2 shotColor2 [= <-] H2.
      destruct (checkHit_cases position shotColor2
                  (snd (checkHit position shotColor w)))
        as [[Hn _]|(j2 & t2 & Hj2 & Ha2 & Hr & _)]; [congruence|].
      rewrite Hr in H2. injection H2 as <-.
      rewrite Hts in Hj2.
      assert (j ≠ j2) as Hne.
      { intros ->. rewrite list_lookup_insert_eq in Hj2 by (by eapply lookup_lt_Some).
        injection Hj2 as <-. done. }
      rewrite list_lookup_insert_ne in Hj2 by done.
      exists j, j2, t, t2. by split_and!.
Qed.

(** C10: when the proximity resolver answers [null], the state after the
    call is the state before it, field for field: targets, popups, scene,
    player cursor, spawn timer and everything else. *)
Theorem checkHit_null_unchanged position shotColor w :
  fst (checkHit position shotColor w) = None →
  snd (checkHit position shotColor w) = w.
Proof.
  intros Hn.
  destruct (checkHit_cases position shotColor w)
    as [[_ Hw]|(j & t & _ & _ & Hr & _)]; [done|congruence].
Qed.

(** ** Advancing the targets *)

Lemma advanced_fields delta w t :
  Sprite.position (Target.mesh (advanced delta w t))
  = Vector3.add (Sprite.position (Target.mesh t))
      (Vector3.multiplyScalar (Target.velocity t) delta)
  ∧ Target.velocity (advanced delta w t) = Target.velocity t
  ∧ Target.player (advanced delta w t) = Target.player t
  ∧ target_id (advanced delta w t) = target_id t
  ∧ Target.alive (advanced delta w t) = Target.alive t
  ∧ Sprite.disposed (Target.mesh (advanced delta w t))
    = Sprite.disposed (Target.mesh t).
Proof. done. Qed.

(** Where a target of the pool is after one call of [update]. *)
Lemma update_target delta w i t :
  targets w !! i = Some t →
  ∃ w', update delta w = Some w'
    ∧ targets w' !! i
      = Some (if Target.alive t
              then if passesCamera delta t
                   then retired (advanced delta (spawnStep delta w) t)
                   else advanced delta (spawnStep delta w) t
              else t)
    ∧ namePopups w' = advancePopups delta (namePopups w)
    ∧ (passesCamera delta t = true → target_id t ∉ scene w').
Proof.
  intros Hi. eexists. split; [apply update_eq|].
  split_and!.
  - rewrite updateLoops_eq. cbn [targets set_namePopups set_targets].
    destruct (spawnStep_fields delta w) as ((new & -> & _) & _).
    rewrite list_lookup_fmap, lookup_app_l by (by eapply lookup_lt_Some).
    rewrite Hi. cbn. by rewrite updateTarget_target.
  - rewrite updateLoops_eq. cbn [namePopups set_namePopups].
    by destruct (spawnStep_fields delta w) as (_ & _ & _ & _ & _ & -> & _).
  - intros Hp [_ Hin]%updateLoops_scene. apply Hin.
    destruct (spawnStep_fields delta w) as ((new & -> & _) & _).
    apply list_elem_of_fmap. exists t. split; [done|].
    apply list_elem_of_filter. split; [done|].
    apply elem_of_app. left. by eapply list_elem_of_lookup_2.
Qed.

(** C7: a live target that the tick moves beyond [z > 5] is retired by that
    call of [update] as a miss: it stays in its place in the pool, dead and
    with its material disposed, its sprite is not in the scene any more, and
    the popups after the call are just the popups from before, advanced and
    thinned by expiry, so none was created.  In the scenario of one live
    target 0.1 short of the threshold with forward velocity 20 and no
    player left to spawn, [update(1.0)] takes the number of live targets
    from 1 to 0 and leaves the list of popups empty. *)
Theorem update_retires_passed delta w i t :
  targets w !! i = Some t →
  passesCamera delta t = true →
  (∃ w' t',
      update delta w = Some w'
      ∧ targets w' !! i = Some t'
      ∧ Target.alive t' = false
      ∧ Sprite.disposed (Target.mesh t') = true
      ∧ target_id t' = target_id t
      ∧ (target_id t ∉ scene w')
      ∧ namePopups w' = advancePopups delta (namePopups w)
      ∧ length (namePopups w') ≤ length (namePopups w))
  ∧ (∃ w',
        update 1 miss_scenario = Some w'
        ∧ aliveCount miss_scenario = 1
        ∧ aliveCount w' = 0
        ∧ namePopups w' = []
        ∧ scene w' = []).
Proof.
  intros Hi Hp. split.
  - destruct (update_target delta w i t Hi) as (w' & Hu & Ht & Hn & Hs).
    assert (Target.alive t = true) as Ha
      by (by apply andb_true_iff in Hp as [? _]).
    rewrite Ha, Hp in Ht.
    eexists w', _. split_and!; [done|done|done|done|done|by apply Hs|done|].
    rewrite Hn. apply advancePopups_length.
  - eexists. split; [apply update_eq|]. by vm_compute.
Qed.

Lemma update_velocity delta w i t :
  targets w !! i = Some t →
  ∃ w' t', update delta w = Some w' ∧ targets w' !! i = Some t'
    ∧ Target.velocity t' = Target.velocity t.
Proof.
  intros Hi. destruct (update_target delta w i t Hi) as (w' & Hu & Ht & _).
  eexists w', _. split_and!; [done..|].
  by destruct (Target.alive t), (passesCamera delta t).
Qed.

Lemma checkHit_velocity position shotColor w i t :
  targets w !! i = Some t →
  ∃ t', targets (snd (checkHit position shotColor w)) !! i = Some t'
    ∧ Target.velocity t' = Target.velocity t
    ∧ Sprite.position (Target.mesh t') = Sprite.position (Target.mesh t).
Proof.
  intros Hi.
  destruct (checkHit_cases position shotColor w)
    as [[_ ->]|(j & x & Hj & _ & _ & ->)]; [by exists t|].
  destruct (decide (j = i)) as [->|Hne].
  - rewrite list_lookup_insert_eq by (by eapply lookup_lt_Some).
    exists (retired x). by simplify_eq.
  - rewrite list_lookup_insert_ne by done. by exists t.
Qed.

Lemma calls_velocity cs w i t :
  targets w !! i = Some t →
  ∃ w' t', calls cs w = Some w' ∧ targets w' !! i = Some t'
    ∧ Target.velocity t' = Target.velocity t.
Proof.
  revert w t. induction cs as [|c cs IH]; intros w t Hi; [by exists w, t|].
  cbn [calls]. destruct c as [delta|position shotColor]; cbn [call].
  - destruct (update_velocity delta w i t Hi) as (w1 & t1 & -> & Hi1 & <-).
    cbn. by apply IH.
  - destruct (checkHit_velocity position shotColor w i t Hi) as (t1 & Hi1 & <- & _).
    cbn. by apply IH.
Qed.

(** What [update] does to a live target of the red/blue variant. *)
Lemma update_moves delta w i t :
  targets w !! i = Some t →
  Target.alive t = true →
  ∃ w' t',
    update delta w = Some w'
    ∧ targets w' !! i = Some t'
    ∧ Sprite.position (Target.mesh t')
      = Vector3.add (Sprite.position (Target.mesh t))
          (Vector3.multiplyScalar (Target.velocity t) delta)
    ∧ Target.velocity t' = Target.velocity t
    ∧ Target.alive t'
      = negb (Num.gt (Vector3.z (Sprite.position (Target.mesh t'))) 5).
Proof.
  intros Hi Ha. destruct (update_target delta w i t Hi) as (w' & Hu & Ht & _).
  rewrite Ha in Ht. eexists w', _. split; [done|]. split; [done|].
  unfold passesCamera. rewrite Ha. cbn [andb].
  destruct (Num.gt _ 5) eqn:Hz; (split_and!; [done|done|]).
  - change (false
            = negb (Num.gt (Vector3.z (Sprite.position (Target.mesh t))
                            + Vector3.z (Target.velocity t) * delta)%float 5)).
    by rewrite Hz.
  - change (Target.alive t
            = negb (Num.gt (Vector3.z (Sprite.position (Target.mesh t))
                            + Vector3.z (Target.velocity t) * delta)%float 5)).
    by rewrite Hz, Ha.
Qed.

(** ** The avatar cache and session start *)

Lemma loadAvatar_frame url w :
  let w' := snd (loadAvatar url w) in
  players w' = players w ∧ targets w' = targets w
  ∧ namePopups w' = namePopups w ∧ avatarCache w' = avatarCache w
  ∧ spawnTimer w' = spawnTimer w ∧ spawnInterval w' = spawnInterval w
  ∧ playerIndex w' = playerIndex w ∧ gameTime w' = gameTime w
  ∧ scene w' = scene w ∧ nextId w ≤ nextId w'.
Proof.
  unfold loadAvatar. destruct (avatarCache w !! url); simpl; split_and!; done || lia.
Qed.

Lemma loadAvatars_frame urls w :
  let w' := snd (loadAvatars urls w) in
  players w' = players w ∧ targets w' = targets w
  ∧ namePopups w' = namePopups w ∧ avatarCache w' = avatarCache w
  ∧ spawnTimer w' = spawnTimer w ∧ spawnInterval w' = spawnInterval w
  ∧ playerIndex w' = playerIndex w ∧ gameTime w' = gameTime w
  ∧ scene w' = scene w ∧ nextId w ≤ nextId w'.
Proof.
  revert w. induction urls as [|url urls IH]; intros w; cbn [loadAvatars].
  - cbn. split_and!; done || lia.
  - pose proof (loadAvatar_frame url w) as H1. cbv zeta in H1.
    destruct (loadAvatar url w) as [p w1]. cbn [snd] in H1.
    specialize (IH w1). cbv zeta in IH.
    destruct (loadAvatars urls w1) as [ps w2]. cbn [snd] in *.
    destruct H1 as (? & ? & ? & ? & ? & ? & ? & ? & ? & ?).
    destruct IH as (? & ? & ? & ? & ? & ? & ? & ? & ? & ?).
    split_and!; congruence || lia.
Qed.

Lemma setPlayers_fields ps w :
  let w' := setPlayers ps w in
  players w' = ps ∧ targets w' = targets w
  ∧ namePopups w' = namePopups w ∧ avatarCache w' = avatarCache w
  ∧ spawnTimer w' = spawnTimer w ∧ spawnInterval w' = spawnInterval w
  ∧ playerIndex w' = playerIndex w ∧ gameTime w' = gameTime w
  ∧ scene w' = scene w ∧ nextId w ≤ nextId w'.
Proof.
  unfold setPlayers, preloadAvatars.
  apply (loadAvatars_frame _ (set_players ps w)).
Qed.

Lemma start_fields w :
  players (start w) = players w
  ∧ spawnInterval (start w) = spawnInterval w
  ∧ spawnTimer (start w) = 0%float
  ∧ playerIndex (start w) = 0
  ∧ targets (start w) = []
  ∧ namePopups (start w) = []
  ∧ scene (start w) = scene w
  ∧ avatarCache (start w) = avatarCache w.
Proof. by split_and!. Qed.

(** The part of the restart contract that [start] meets. *)
Lemma start_resets w :
  start (start w) = start w
  ∧ targets (start w) = []
  ∧ namePopups (start w) = []
  ∧ aliveCount (start w) = 0
  ∧ playerIndex (start w) = 0
  ∧ spawnTimer (start w) = 0%float.
Proof. by split_and!. Qed.

Lemma update_avatarCache delta w :
  ∃ w', update delta w = Some w' ∧ avatarCache w' = avatarCache w.
Proof.
  eexists. split; [apply update_eq|].
  rewrite updateLoops_eq. cbn [avatarCache set_namePopups set_targets set_scene].
  unfold spawnStep. destruct (spawnDue delta w); [|done].
  destruct (players w !! playerIndex w) as [player|]; [|done].
  set (w1 := set_spawnTimer (spawnTimer w + delta) _).
  destruct (spawnTarget_with_fields player w1) as (_ & _ & _ & _ & Hc & _).
  cbn [avatarCache set_spawnTimer]. by rewrite Hc.
Qed.

Lemma checkHit_avatarCache position shotColor w :
  avatarCache (snd (checkHit position shotColor w)) = avatarCache w.
Proof.
  rewrite checkHit_find.
  by destruct (firstInRange position (targets w)) as [[j t]|].
Qed.

(** Frame ticks and shots never empty or change the cache. *)
Lemma calls_avatarCache cs w :
  ∃ w', calls cs w = Some w' ∧ avatarCache w' = avatarCache w.
Proof.
  revert w. induction cs as [|c cs IH]; intros w; [by exists w|].
  cbn [calls]. destruct c as [delta|position shotColor]; cbn [call].
  - destruct (update_avatarCache delta w) as (w1 & -> & <-). apply IH.
  - cbn. rewrite <- (checkHit_avatarCache position shotColor w). apply IH.
Qed.

(** ** Sprite identities *)

Lemma targets_allocated_new : targets_allocated new_PlayerTargets.
Proof. constructor. Qed.

Lemma targets_allocated_start w : targets_allocated (start w).
Proof. constructor. Qed.

Lemma targets_allocated_setPlayers ps w :
  targets_allocated w → targets_allocated (setPlayers ps w).
Proof.
  unfold targets_allocated.
  destruct (setPlayers_fields ps w) as (_ & -> & _ & _ & _ & _ & _ & _ & _ & Hn).
  intros Hw. eapply Forall_impl; [done|]. intros t. cbn. lia.
Qed.

Lemma targets_allocated_checkHit position shotColor w :
  targets_allocated w → targets_allocated (snd (checkHit position shotColor w)).
Proof.
  unfold targets_allocated. intros Hw. rewrite checkHit_find.
  destruct (firstInRange position (targets w)) as [[j t]|] eqn:Hf; [|done].
  apply firstInRange_alive in Hf as [Hj _]. cbn.
  apply Forall_insert.
  - eapply Forall_impl; [done|]. intros x. cbn. lia.
  - rewrite Forall_lookup in Hw. specialize (Hw _ _ Hj).
    unfold target_id in *. cbn. lia.
Qed.

Lemma targets_allocated_update delta w :
  targets_allocated w →
  ∃ w', update delta w = Some w' ∧ targets_allocated w'.
Proof.
  unfold targets_allocated. intros Hw. eexists. split; [apply update_eq|].
  rewrite updateLoops_eq. cbn [targets nextId set_namePopups set_targets set_scene].
  destruct (spawnStep_fields delta w)
    as ((new & -> & _ & Hnew) & _ & _ & _ & _ & _ & _ & Hn).
  rewrite Forall_fmap. apply Forall_app. split.
  - eapply Forall_impl; [done|]. intros t Ht. cbn.
    rewrite updateTarget_target.
    destruct (Target.alive t), (passesCamera delta t); unfold target_id in *; cbn; lia.
  - eapply Forall_impl; [done|]. intros t (_ & _ & Ht). cbn.
    rewrite updateTarget_target.
    destruct (Target.alive t), (passesCamera delta t); unfold target_id in *; cbn; lia.
Qed.

(** The invariant holds in every state the orchestrator can reach. *)
Lemma targets_allocated_calls cs w :
  targets_allocated w →
  ∃ w', calls cs w = Some w' ∧ targets_allocated w'.
Proof.
  revert w. induction cs as [|c cs IH]; intros w Hw; [by exists w|].
  cbn [calls]. destruct c as [delta|position shotColor]; cbn [call].
  - destruct (targets_allocated_update delta w Hw) as (w1 & -> & Hw1).
    by apply IH.
  - cbn. by apply IH, targets_allocated_checkHit.
Qed.

(** ** The first variant *)

Lemma basic_update_eq delta w :
  Basic.update Math_random Math_sin Math_cos delta w
  = Some (Basic.updateLoop delta
            (Basic.spawnStep Math_random Math_sin Math_cos delta w)).
Proof.
  unfold Basic.update, Basic.spawnStep, Basic.spawnDue; simpl.
  destruct (Num.ge _ _); simpl; [|done].
  case_bool_decide as Hlt; simpl; [|done].
  unfold Basic.spawnTarget; simpl.
  destruct (lookup_lt_is_Some_2 _ _ Hlt) as [player ->]. done.
Qed.

Lemma basic_updateTarget_scene delta t sc1 sc2 :
  fst (Basic.updateTarget delta t sc1) = fst (Basic.updateTarget delta t sc2).
Proof.
  unfold Basic.updateTarget. destruct (Basic.Target.alive t); simpl; [|done].
  by destruct (Num.gt _ 5).
Qed.

Lemma basic_updateTargets_targets delta ts sc :
  fst (Basic.updateTargets delta ts sc)
  = (λ t, fst (Basic.updateTarget delta t [])) <$> ts.
Proof.
  revert sc. induction ts as [|t ts IH]; intros sc; [done|].
  cbn [Basic.updateTargets]. rewrite fmap_cons.
  rewrite (basic_updateTarget_scene delta t [] sc).
  destruct (Basic.updateTarget delta t sc) as [t' sc1].
  specialize (IH sc1). destruct (Basic.updateTargets delta ts sc1) as [ts' sc2].
  cbn in *. by rewrite IH.
Qed.

Lemma basic_spawnStep_fields delta w :
  let w' := Basic.spawnStep Math_random Math_sin Math_cos delta w in
  (∃ new, Basic.targets w' = Basic.targets w ++ new
          ∧ length new = (if Basic.spawnDue delta w then 1 else 0))
  ∧ Basic.playerIndex w'
    = Basic.playerIndex w + (if Basic.spawnDue delta w then 1 else 0)
  ∧ Basic.spawnTimer w'
    = (if Basic.spawnDue delta w then 0 else Basic.spawnTimer w + delta)%float
  ∧ Basic.players w' = Basic.players w
  ∧ Basic.spawnInterval w' = Basic.spawnInterval w.
Proof.
  unfold Basic.spawnStep.
  destruct (Basic.spawnDue delta w) eqn:Hdue.
  - apply andb_true_iff in Hdue as [_ Hlt%bool_decide_eq_true].
    destruct (lookup_lt_is_Some_2 _ _ Hlt) as [player ->]. simpl.
    split; [|repeat split; lia]. by eexists [_].
  - simpl. split; [|repeat split; lia].
    exists []. by rewrite app_nil_r.
Qed.

Lemma basic_update_spawn delta w :
  ∃ w', Basic.update Math_random Math_sin Math_cos delta w = Some w'
    ∧ length (Basic.targets w')
      = length (Basic.targets w) + (if Basic.spawnDue delta w then 1 else 0)
    ∧ Basic.playerIndex w'
      = Basic.playerIndex w + (if Basic.spawnDue delta w then 1 else 0)
    ∧ Basic.spawnTimer w'
      = (if Basic.spawnDue delta w then 0 else Basic.spawnTimer w + delta)%float
    ∧ Basic.players w' = Basic.players w
    ∧ Basic.spawnInterval w' = Basic.spawnInterval w.
Proof.
  eexists. split; [apply basic_update_eq|].
  destruct (basic_spawnStep_fields delta w) as ((new & Ht & Hlen) & Hi & Hs & Hp & Hv).
  cbv zeta in *.
  set (w1 := Basic.spawnStep _ _ _ _ _) in *. clearbody w1.
  unfold Basic.updateLoop.
  pose proof (basic_updateTargets_targets delta (Basic.targets w1) (Basic.scene w1)) as Hm.
  destruct (Basic.updateTargets delta (Basic.targets w1) (Basic.scene w1)) as [ts sc].
  cbn in *. subst ts. rewrite length_fmap, Ht, length_app, Hlen. done.
Qed.

Lemma basic_updates_spawn deltas w :
  ∃ w', Basic.updates Math_random Math_sin Math_cos deltas w = Some w'
    ∧ length (Basic.targets w')
      = length (Basic.targets w)
        + crossings (Basic.spawnInterval w) deltas (Basic.spawnTimer w)
            (length (Basic.players w) - Basic.playerIndex w).
Proof.
  revert w. induction deltas as [|delta rest IH]; intros w; simpl.
  - exists w. split; [done|lia].
  - destruct (basic_update_spawn delta w) as (w1 & -> & Ht & Hi & Hs & Hp & Hv); simpl.
    destruct (IH w1) as (w' & -> & Ht').
    exists w'. split; [done|].
    rewrite Ht', Ht, Hi, Hs, Hp, Hv.
    assert (bool_decide (0 < length (Basic.players w) - Basic.playerIndex w)
            = bool_decide (Basic.playerIndex w < length (Basic.players w))) as ->
      by (apply bool_decide_ext; lia).
    change (Num.ge _ _ && _) with (Basic.spawnDue delta w).
    destruct (Basic.spawnDue delta w).
    + replace (length (Basic.players w) - (Basic.playerIndex w + 1))
        with (pred (length (Basic.players w) - Basic.playerIndex w)) by lia.
      lia.
    + rewrite !Nat.add_0_r. lia.
Qed.

Lemma basic_update_moves delta w i t :
  Basic.targets w !! i = Some t →
  Basic.Target.alive t = true →
  ∃ w' t',
    Basic.update Math_random Math_sin Math_cos delta w = Some w'
    ∧ Basic.targets w' !! i = Some t'
    ∧ Sprite.position (Basic.Target.mesh t')
      = Vector3.add (Sprite.position (Basic.Target.mesh t))
          (Vector3.multiplyScalar (Basic.Target.velocity t) delta)
    ∧ Basic.Target.velocity t' = Basic.Target.velocity t
    ∧ Basic.Target.alive t'
      = negb (Num.gt (Vector3.z (Sprite.position (Basic.Target.mesh t'))) 5).
Proof.
  intros Hi Ha. eexists _, _. split; [apply basic_update_eq|].
  destruct (basic_spawnStep_fields delta w) as ((new & Ht & _) & _).
  cbv zeta in *.
  set (w1 := Basic.spawnStep _ _ _ _ _) in *. clearbody w1.
  unfold Basic.updateLoop.
  pose proof (basic_updateTargets_targets delta (Basic.targets w1) (Basic.scene w1)) as Hm.
  destruct (Basic.updateTargets delta (Basic.targets w1) (Basic.scene w1)) as [ts sc].
  cbn [fst Basic.targets] in *. subst ts. rewrite Ht.
  split.
  - rewrite list_lookup_fmap, lookup_app_l by (by eapply lookup_lt_Some).
    by rewrite Hi.
  - unfold Basic.updateTarget. rewrite Ha. cbn [negb].
    cbn [Basic.Target.mesh Basic.Target.set_mesh Sprite.position Sprite.set_position
         Vector3.clone].
    destruct (Num.gt _ 5) eqn:Hz; cbn [fst Basic.removeTarget]; (split_and!; [done|done|]).
    + cbn. cbn in Hz. by rewrite Hz.
    + cbn. cbn in Hz. by rewrite Hz, Ha.
Qed.

(** ** Spawning over a run of frames *)

Lemma updateTarget_player delta t w :
  Target.player (fst (updateTarget delta t w)) = Target.player t.
Proof.
  rewrite updateTarget_target.
  by destruct (Target.alive t), (passesCamera delta t).
Qed.

(** The targets are created for the players in the order of the list,
    from the cursor on. *)
Lemma update_players delta w :
  ∃ w', update delta w = Some w'
    ∧ Target.player <$> targets w'
      = (Target.player <$> targets w)
        ++ (if spawnDue delta w
            then take 1 (drop (playerIndex w) (players w))
            else []).
Proof.
  eexists. split; [apply update_eq|].
  rewrite updateLoops_eq. cbn [targets set_namePopups set_targets].
  rewrite <- list_fmap_compose.
  rewrite (list_fmap_ext _ Target.player (targets (spawnStep delta w)))
    by (intros; apply updateTarget_player).
  unfold spawnStep.
  pose proof (spawnDue_lookup delta w) as Hl.
  destruct (spawnDue delta w).
  - destruct Hl as [player Hp]; [done|]. rewrite Hp.
    rewrite (drop_S _ _ _ Hp). cbn [take].
    set (w1 := set_spawnTimer (spawnTimer w + delta) _).
    destruct (spawnTarget_with_fields player w1) as (Ht & _).
    cbn [targets set_spawnTimer]. rewrite Ht, fmap_app. done.
  - cbn. by rewrite app_nil_r.
Qed.

Lemma updates_players deltas w :
  ∃ w', updates deltas w = Some w'
    ∧ Target.player <$> targets w'
      = (Target.player <$> targets w)
        ++ take (crossings (spawnInterval w) deltas (spawnTimer w)
                   (length (players w) - playerIndex w))
             (drop (playerIndex w) (players w)).
Proof.
  revert w. induction deltas as [|delta rest IH]; intros w; cbn [updates crossings].
  - exists w. by rewrite take_0, app_nil_r.
  - destruct (update_players delta w) as (w1 & Hu & Hpl).
    destruct (update_spawn delta w) as (w1' & Hu' & _ & Hi & Hs & Hp & Hv).
    rewrite Hu in Hu'. injection Hu' as <-. rewrite Hu. cbn [mbind option_bind].
    destruct (IH w1) as (w' & -> & Hpl').
    exists w'. split; [done|].
    rewrite Hpl', Hpl, Hi, Hs, Hp, Hv, <- app_assoc. f_equal.
    assert (bool_decide (0 < length (players w) - playerIndex w)
            = bool_decide (playerIndex w < length (players w))) as ->
      by (apply bool_decide_ext; lia).
    change (Num.ge _ _ && _) with (spawnDue delta w).
    pose proof (spawnDue_lookup delta w) as Hl.
    destruct (spawnDue delta w).
    + destruct Hl as [player Hpl0]; [done|].
      rewrite (drop_S _ _ _ Hpl0). cbn [take app].
      replace (length (players w) - (playerIndex w + 1))
        with (pred (length (players w) - playerIndex w)) by lia.
      by rewrite Nat.add_1_r.
    + by rewrite Nat.add_0_r.
Qed.

(** C1: a call of [update] creates one target exactly when the spawn
    timer, with the call's delta added, has reached the spawn interval and a
    player is left, and none otherwise, so never more than one however
    large the delta; when it creates one the spawn timer is 0 after the
    call, and otherwise it keeps the accumulated time.  Over a run of calls
    the number of targets created is the number of calls at which the
    accumulated timer had reached the interval with a player left, and the
    targets are created for the players from the cursor on, in order.  A
    non-empty run whose deltas, accumulated onto the spawn timer, reach the
    interval while a player is left creates at least one target.  The same
    holds for the first variant of the class. *)
Theorem update_spawns_once_per_crossing delta deltas w (b : Basic.World) :
  (∃ w', update delta w = Some w'
     ∧ length (targets w') = length (targets w) + (if spawnDue delta w then 1 else 0)
     ∧ length (targets w') ≤ S (length (targets w))
     ∧ spawnTimer w' = (if spawnDue delta w then 0 else spawnTimer w + delta)%float)
  ∧ (∃ w', updates deltas w = Some w'
       ∧ length (targets w')
         = length (targets w)
           + crossings (spawnInterval w) deltas (spawnTimer w)
               (length (players w) - playerIndex w)
       ∧ Target.player <$> targets w'
         = (Target.player <$> targets w)
           ++ take (crossings (spawnInterval w) deltas (spawnTimer w)
                      (length (players w) - playerIndex w))
                (drop (playerIndex w) (players w)))
  ∧ (deltas ≠ [] →
     playerIndex w < length (players w) →
     Num.ge (accumulated (spawnTimer w) deltas) (spawnInterval w) = true →
     ∃ w', updates deltas w = Some w' ∧ length (targets w) < length (targets w'))
  ∧ (∃ b', Basic.update Math_random Math_sin Math_cos delta b = Some b'
       ∧ length (Basic.targets b')
         = length (Basic.targets b) + (if Basic.spawnDue delta b then 1 else 0)
       ∧ Basic.spawnTimer b'
         = (if Basic.spawnDue delta b then 0 else Basic.spawnTimer b + delta)%float)
  ∧ (∃ b', Basic.updates Math_random Math_sin Math_cos deltas b = Some b'
       ∧ length (Basic.targets b')
         = length (Basic.targets b)
           + crossings (Basic.spawnInterval b) deltas (Basic.spawnTimer b)
               (length (Basic.players b) - Basic.playerIndex b)).
Proof.
  split_and!.
  - destruct (update_spawn delta w) as (w' & Hu & Ht & _ & Hs & _).
    exists w'. split_and!; [done..| |done]. rewrite Ht. destruct (spawnDue delta w); lia.
  - destruct (updates_spawn deltas w) as (w' & Hu & Ht & _).
    destruct (updates_players deltas w) as (w'' & Hu' & Hp).
    rewrite Hu in Hu'. injection Hu' as <-. by exists w'.
  - intros Hne Hlt Hge.
    destruct (updates_spawn deltas w) as (w' & Hu & Ht & _).
    exists w'. split; [done|]. rewrite Ht.
    pose proof (crossings_positive (spawnInterval w) deltas (spawnTimer w)
                  (length (players w) - playerIndex w) Hne) as Hc.
    specialize (Hc ltac:(lia) Hge). lia.
  - destruct (basic_update_spawn delta b) as (b' & Hu & Ht & _ & Hs & _).
    by exists b'.
  - apply basic_updates_spawn.
Qed.

(** C6: for a target that is alive when [update(delta)] is called, the
    position after the call is the position before plus the velocity scaled
    by [delta], component by component in the arithmetic of the source, and
    nothing else moves it; the target is then dead exactly when that new
    position has [z > 5].  The velocity of a target is the same after any
    sequence of frame ticks and shots as before it.  The first variant of
    the class moves its targets the same way. *)
Theorem update_integrates_velocity delta cs w i t (b : Basic.World) j u :
  (targets w !! i = Some t →
   Target.alive t = true →
   ∃ w' t',
     update delta w = Some w'
     ∧ targets w' !! i = Some t'
     ∧ Sprite.position (Target.mesh t')
       = Vector3.add (Sprite.position (Target.mesh t))
           (Vector3.multiplyScalar (Target.velocity t) delta)
     ∧ Target.velocity t' = Target.velocity t
     ∧ Target.alive t'
       = negb (Num.gt (Vector3.z (Sprite.position (Target.mesh t'))) 5))
  ∧ (targets w !! i = Some t →
     ∃ w' t',
       calls cs w = Some w'
       ∧ targets w' !! i = Some t'
       ∧ Target.velocity t' = Target.velocity t)
  ∧ (Basic.targets b !! j = Some u →
     Basic.Target.alive u = true →
     ∃ b' u',
       Basic.update Math_random Math_sin Math_cos delta b = Some b'
       ∧ Basic.targets b' !! j = Some u'
       ∧ Sprite.position (Basic.Target.mesh u')
         = Vector3.add (Sprite.position (Basic.Target.mesh u))
             (Vector3.multiplyScalar (Basic.Target.velocity u) delta)
       ∧ Basic.Target.velocity u' = Basic.Target.velocity u
       ∧ Basic.Target.alive u'
         = negb (Num.gt (Vector3.z (Sprite.position (Basic.Target.mesh u'))) 5)).
Proof.
  split_and!.
  - apply update_moves.
  - apply calls_velocity.
  - apply basic_update_moves.
Qed.

Lemma spawnDue_exhausted delta w :
  length (players w) ≤ playerIndex w → spawnDue delta w = false.
Proof.
  intros Hle. unfold spawnDue. rewrite bool_decide_eq_false_2 by lia.
  apply andb_false_r.
Qed.

(** C9: once the player cursor has reached the end of the player list a
    call of [update] returns normally and spawns nothing: the pool has as
    many targets as before and the cursor stays where it is.  With three
    players and the spawn interval of 0.5, three calls [update(0.5)] after
    [start] create three targets, one per player in the order of the list,
    and leave the cursor at the end of the list; a fourth call returns
    normally with still three targets.  The first variant of the class stops
    spawning the same way. *)
Theorem update_stops_when_exhausted delta w (b : Basic.World) p1 p2 p3 :
  (length (players w) ≤ playerIndex w →
   ∃ w', update delta w = Some w'
     ∧ length (targets w') = length (targets w)
     ∧ playerIndex w' = playerIndex w)
  ∧ (let w0 := start (setPlayers [p1; p2; p3] new_PlayerTargets) in
     spawnInterval w0 = 0.5%float
     ∧ ∃ w3 w4,
         updates [0.5; 0.5; 0.5]%float w0 = Some w3
         ∧ length (targets w3) = 3
         ∧ Target.player <$> targets w3 = [p1; p2; p3]
         ∧ playerIndex w3 = length (players w3)
         ∧ update 0.5 w3 = Some w4
         ∧ length (targets w4) = 3
         ∧ playerIndex w4 = 3)
  ∧ (length (Basic.players b) ≤ Basic.playerIndex b →
     ∃ b', Basic.update Math_random Math_sin Math_cos delta b = Some b'
       ∧ length (Basic.targets b') = length (Basic.targets b)
       ∧ Basic.playerIndex b' = Basic.playerIndex b).
Proof.
  split_and!.
  - intros Hle. destruct (update_spawn delta w) as (w' & Hu & Ht & Hi & _).
    rewrite (spawnDue_exhausted _ _ Hle) in Ht, Hi. exists w'. split_and!; [done|lia..].
  - intros w0.
    destruct (setPlayers_fields [p1; p2; p3] new_PlayerTargets)
      as (Hp & _ & _ & _ & _ & Hv & Hi0 & _).
    destruct (start_fields (setPlayers [p1; p2; p3] new_PlayerTargets))
      as (Hp0 & Hv0 & Hs0 & Hx0 & Ht0 & _).
    fold w0 in Hp0, Hv0, Hs0, Hx0, Ht0. clearbody w0.
    rewrite Hp in Hp0. rewrite Hv in Hv0. change (spawnInterval new_PlayerTargets) with 0.5%float in Hv0.
    split; [done|].
    destruct (updates_spawn [0.5; 0.5; 0.5]%float w0) as (w3 & Hu & Ht & Hi & Hp3).
    destruct (updates_players [0.5; 0.5; 0.5]%float w0) as (w3' & Hu' & Hpl).
    rewrite Hu in Hu'. injection Hu' as <-.
    rewrite Hp0, Hv0, Hs0, Hx0 in Ht, Hi, Hpl. rewrite Ht0 in Ht, Hpl.
    change (crossings _ _ _ _) with 3 in Ht, Hi, Hpl.
    destruct (update_spawn 0.5 w3) as (w4 & Hu4 & Ht4 & Hi4 & _).
    rewrite spawnDue_exhausted in Ht4, Hi4 by (rewrite Hp3, Hp0, Hi; cbn; lia).
    exists w3, w4. rewrite Hp3, Hp0.
    split_and!; [done|done|done|done|done|..].
    + rewrite Ht4, Ht. done.
    + rewrite Hi4, Hi. done.
  - intros Hle. destruct (basic_update_spawn delta b) as (b' & Hu & Ht & Hi & _).
    assert (Basic.spawnDue delta b = false) as Hdue.
    { unfold Basic.spawnDue. rewrite bool_decide_eq_false_2 by lia.
      apply andb_false_r. }
    rewrite Hdue in Ht, Hi. exists b'. split_and!; [done|lia..].
Qed.

(** ** The pool and the scene *)

Lemma NoDup_fmap_eq {A B} (f : A → B) (l : list A) x y :
  NoDup (f <$> l) → x ∈ l → y ∈ l → f x = f y → x = y.
Proof.
  intros Hnd [i Hi]%list_elem_of_lookup [j Hj]%list_elem_of_lookup Hf.
  assert (i = j) as ->; [|congruence].
  apply (NoDup_lookup (f <$> l) i j (f x)); [done|..];
    rewrite list_lookup_fmap; [by rewrite Hi|by rewrite Hj, Hf].
Qed.

Lemma updatePopup_id delta p :
  popup_id (fst (updatePopup delta p)) = popup_id p.
Proof.
  unfold updatePopup, popup_id. cbn [fst NamePopup.mesh].
  by destruct (Num.le (NamePopup.lifetime p - delta) 0).
Qed.

Lemma updateTarget_id delta t w :
  target_id (fst (updateTarget delta t w)) = target_id t.
Proof.
  rewrite updateTarget_target.
  by destruct (Target.alive t), (passesCamera delta t).
Qed.

Lemma updateTarget_alive delta t w :
  Target.alive (fst (updateTarget delta t w))
  = Target.alive t && negb (passesCamera delta t).
Proof.
  rewrite updateTarget_target. unfold passesCamera.
  destruct (Target.alive t) eqn:Ha; cbn [andb]; [|by rewrite Ha].
  by destruct (Num.gt _ 5).
Qed.

(** The popup loop takes out of the scene exactly the sprites of the
    popups that expire. *)
Lemma updatePopups_scene_iff delta ps w i :
  i ∈ scene (snd (updatePopups delta ps w))
  ↔ i ∈ scene w
    ∧ i ∉ popup_id <$> filter (λ p, snd (updatePopup delta p) = true) ps.
Proof.
  induction ps as [|p ps IH]; cbn [updatePopups].
  - split; [intros ?; split; [done|apply not_elem_of_nil] | tauto].
  - destruct (updatePopups delta ps w) as [ps' w1]; cbn [snd] in IH.
    rewrite filter_cons. pose proof (updatePopup_id delta p) as Hid.
    destruct (updatePopup delta p) as [p' [|]]; cbn [fst snd] in *.
    + rewrite decide_True by done. cbn [scene scene_remove set_scene].
      change (Sprite.id (NamePopup.mesh p')) with (popup_id p').
      rewrite list_elem_of_filter, IH, fmap_cons, not_elem_of_cons, Hid. tauto.
    + rewrite decide_False by done. done.
Qed.

Lemma advancePopups_ids delta ps :
  popup_id <$> advancePopups delta ps
  = popup_id <$> filter (λ p, snd (updatePopup delta p) = false) ps.
Proof.
  unfold advancePopups. induction ps as [|p ps IH]; [done|].
  rewrite fmap_cons, !filter_cons. cbn [snd].
  destruct (decide (snd (updatePopup delta p) = false)) as [Hk|Hk].
  - rewrite !fmap_cons, IH, updatePopup_id. done.
  - done.
Qed.

Lemma updateLoops_scene_iff delta w i :
  i ∈ scene (updateLoops delta w)
  ↔ i ∈ scene w
    ∧ (i ∉ target_id <$> filter (λ t, passesCamera delta t = true) (targets w))
    ∧ (i ∉ popup_id <$> filter (λ p, snd (updatePopup delta p) = true) (namePopups w)).
Proof.
  unfold updateLoops.
  pose proof (updateTargets_scene delta (targets w) w i) as Hs.
  pose proof (updateTargets_frame delta (targets w) w) as Hf.
  destruct (updateTargets delta (targets w) w) as [ts w1]; cbn [fst snd] in *.
  set (w2 := set_targets ts w1).
  pose proof (updatePopups_scene_iff delta (namePopups w2) w2 i) as Hp.
  destruct (updatePopups delta (namePopups w2) w2) as [ps w3]; cbn [fst snd] in *.
  cbn [scene set_namePopups]. rewrite Hp. subst w2. cbn [scene namePopups set_targets].
  rewrite Hs. rewrite Hf. cbn [namePopups set_scene]. tauto.
Qed.

Lemma updateLoops_fields delta w :
  targets (updateLoops delta w) = (λ t, fst (updateTarget delta t w)) <$> targets w
  ∧ namePopups (updateLoops delta w) = advancePopups delta (namePopups w)
  ∧ nextId (updateLoops delta w) = nextId w
  ∧ players (updateLoops delta w) = players w
  ∧ playerIndex (updateLoops delta w) = playerIndex w
  ∧ avatarCache (updateLoops delta w) = avatarCache w
  ∧ requests (updateLoops delta w) = requests w
  ∧ loading (updateLoops delta w) = loading w.
Proof. rewrite updateLoops_eq. by split_and!. Qed.

Lemma displayed_updateLoops delta w :
  displayed w → displayed (updateLoops delta w).
Proof.
  intros (Hnd & Hlt & Ht & Hp). unfold displayed, sprite_ids in *.
  destruct (updateLoops_fields delta w) as (-> & -> & -> & _).
  rewrite <- list_fmap_compose.
  rewrite (list_fmap_ext (target_id ∘ _) target_id (targets w))
    by (intros; apply updateTarget_id).
  rewrite advancePopups_ids.
  apply NoDup_app in Hnd as (Hndt & Hdisj & Hndp).
  apply Forall_app in Hlt as [Hltt Hltp].
  assert (∀ p, p ∈ filter (λ p, snd (updatePopup delta p) = false) (namePopups w) →
               p ∈ namePopups w) as Hsub
    by (intros p [_ ?]%list_elem_of_filter; done).
  split_and!.
  - apply NoDup_app. split_and!; [done| |].
    + intros i Hi [p [-> Hpin]]%list_elem_of_fmap.
      apply (Hdisj _ Hi). apply list_elem_of_fmap. exists p. split; [done|].
      by apply Hsub.
    + eapply sublist_NoDup; [done|]. apply fmap_sublist, sublist_filter.
  - apply Forall_app. split; [done|].
    apply Forall_forall. intros i [p [-> Hpin]]%list_elem_of_fmap.
    rewrite Forall_forall in Hltp. apply Hltp, list_elem_of_fmap.
    exists p. split; [done|]. by apply Hsub.
  - rewrite Forall_fmap. rewrite Forall_forall in Ht |- *.
    intros t Hin. cbn. rewrite updateTarget_id, updateTarget_alive, updateLoops_scene_iff.
    specialize (Ht t Hin).
    assert (target_id t ∉ popup_id <$> filter (λ p, snd (updatePopup delta p) = true)
                                           (namePopups w)) as Hnp.
    { intros [p [Hid [_ Hpin]%list_elem_of_filter]]%list_elem_of_fmap.
      apply (Hdisj (target_id t)); [by apply list_elem_of_fmap_2|].
      rewrite Hid. by apply list_elem_of_fmap_2. }
    destruct (passesCamera delta t) eqn:Hpass.
    + rewrite andb_false_r. split; [|done]. intros (_ & Hn & _). destruct Hn.
      apply list_elem_of_fmap_2, list_elem_of_filter. done.
    + rewrite andb_true_r, <- Ht. split; [tauto|]. intros Hs. split_and!; [done| |done].
      intros [u [Hid [Hu Huin]%list_elem_of_filter]]%list_elem_of_fmap.
      assert (t = u) as -> by (by eapply NoDup_fmap_eq). congruence.
  - rewrite Forall_forall in Hp |- *.
    intros p' Hin. unfold advancePopups in Hin.
    apply list_elem_of_fmap in Hin as [[q e] [-> Hin]].
    apply list_elem_of_filter in Hin as [He Hin]. cbn in He. subst e.
    apply list_elem_of_fmap in Hin as [p [Hq Hpin]].
    assert (popup_id q = popup_id p ∧ snd (updatePopup delta p) = false) as [Hid Hk].
    { pose proof (updatePopup_id delta p) as H. rewrite <- Hq in H. by rewrite <- Hq. }
    cbn [fst]. rewrite Hid, updateLoops_scene_iff. split_and!.
    + by apply Hp.
    + intros [u [Hu [_ Huin]%list_elem_of_filter]]%list_elem_of_fmap.
      apply (Hdisj (target_id u)); [by apply list_elem_of_fmap_2|].
      rewrite <- Hu. by apply list_elem_of_fmap_2.
    + intros [u [Hu [Hexp Huin]%list_elem_of_filter]]%list_elem_of_fmap.
      assert (p = u) as -> by (by eapply NoDup_fmap_eq). congruence.
Qed.

Lemma elem_of_scene_add (sc : list nat) n i :
  i ∈ filter (λ j, j ≠ n) sc ++ [n] ↔ (i ∈ sc ∧ i ≠ n) ∨ i = n.
Proof.
  rewrite elem_of_app, list_elem_of_filter, list_elem_of_singleton. tauto.
Qed.

Lemma displayed_spawnStep delta w :
  displayed w → displayed (spawnStep delta w).
Proof.
  intros Hd. unfold spawnStep.
  destruct (spawnDue delta w); [|exact Hd].
  destruct (players w !! playerIndex w) as [player|]; [|exact Hd].
  set (w1 := set_spawnTimer (spawnTimer w + delta) _).
  assert (displayed w1) as (Hnd & Hlt & Ht & Hp) by exact Hd.
  destruct (spawnTarget_with_fields player w1)
    as (Hts & _ & _ & Hps & _ & _ & _ & _ & Hsc & Hid).
  unfold displayed, sprite_ids in *.
  cbn [targets namePopups scene nextId set_spawnTimer].
  rewrite Hts, Hps, Hsc, fmap_app. cbn [fmap list_fmap].
  change (target_id (spawned player w1)) with (nextId w1).
  rewrite Forall_forall in Hlt.
  split_and!.
  - rewrite <- app_assoc. cbn [app]. rewrite <- Permutation_middle.
    apply NoDup_cons. split; [|done]. intros Hin%Hlt. lia.
  - apply Forall_forall. intros i Hin.
    rewrite <- app_assoc in Hin. cbn [app] in Hin.
    rewrite <- Permutation_middle in Hin.
    apply elem_of_cons in Hin as [->|Hin%Hlt]; lia.
  - apply Forall_app. split.
    + rewrite Forall_forall in Ht |- *. intros t Hin.
      rewrite elem_of_scene_add, <- (Ht t Hin).
      assert (target_id t < nextId w1)
        by (apply Hlt, elem_of_app; left; by apply list_elem_of_fmap_2).
      split; [intros [[? _]|?]; [done|lia] | intros ?; left; split; [done|lia]].
    + repeat constructor. rewrite elem_of_scene_add.
      change (target_id (spawned player w1)) with (nextId w1). tauto.
  - rewrite Forall_forall in Hp |- *. intros p Hin.
    rewrite elem_of_scene_add. left. split; [by apply Hp|].
    assert (popup_id p < nextId w1)
      by (apply Hlt, elem_of_app; right; by apply list_elem_of_fmap_2).
    lia.
Qed.

Lemma displayed_checkHit position shotColor w :
  displayed w → displayed (snd (checkHit position shotColor w)).
Proof.
  intros Hd. rewrite checkHit_find.
  destruct (firstInRange position (targets w)) as [[j t]|] eqn:Hf; [|exact Hd].
  apply firstInRange_alive in Hf as [Hj Ha]. cbn [snd].
  destruct Hd as (Hnd & Hlt & Ht & Hp).
  set (w0 := scene_remove (target_id t) w).
  destruct (spawnNamePopup_fields (Target.player t)
              (Sprite.position (Target.mesh t)) w0)
    as ((popup & Hps & Hid & _) & Hsc & _ & Hn).
  unfold displayed, sprite_ids in *.
  cbn [targets namePopups scene nextId set_targets].
  rewrite Hps, Hsc, Hn, list_fmap_insert, fmap_app. cbn [fmap list_fmap].
  change (target_id (retired t)) with (target_id t).
  rewrite list_insert_id by (by rewrite list_lookup_fmap, Hj).
  rewrite Hid. subst w0. cbn [scene nextId scene_remove set_scene].
  rewrite Forall_forall in Hlt.
  pose proof (proj1 (NoDup_app _ _) Hnd) as (Hndt & Hdisj & Hndp).
  assert (target_id t < nextId w) as Hlt_t.
  { apply Hlt, elem_of_app. left. apply list_elem_of_fmap_2.
    by eapply list_elem_of_lookup_2. }
  split_and!.
  - rewrite app_assoc. apply NoDup_app. split_and!; [done| |apply NoDup_singleton].
    intros i Hin%Hlt ->%list_elem_of_singleton. lia.
  - apply Forall_forall. intros i. rewrite app_assoc, elem_of_app, list_elem_of_singleton.
    intros [Hin%Hlt| ->]; lia.
  - apply Forall_lookup. intros i u Hu.
    rewrite elem_of_scene_add, list_elem_of_filter.
    apply list_lookup_insert_Some in Hu as [(-> & <- & _)|[Hne Hi]].
    + change (target_id (retired t)) with (target_id t).
      split; [intros [[[Hself _] _]|Heq]; [by destruct Hself|lia] | done].
    + rewrite Forall_lookup in Ht. rewrite <- (Ht _ _ Hi).
      assert (target_id u < nextId w)
        by (apply Hlt, elem_of_app; left; apply list_elem_of_fmap_2;
            by eapply list_elem_of_lookup_2).
      assert (target_id u ≠ target_id t).
      { intros Heq. apply Hne.
        apply (NoDup_lookup (target_id <$> targets w) j i (target_id t)); [done|..];
          rewrite list_lookup_fmap; [by rewrite Hj|by rewrite Hi; cbn; rewrite Heq]. }
      split; [intros [[[? ?] _]|?]; [done|lia] | intros ?; left; split_and!; [done..|lia]].
  - apply Forall_app. split; [|repeat constructor; rewrite elem_of_scene_add; tauto].
    rewrite Forall_forall in Hp |- *. intros p Hin.
    rewrite elem_of_scene_add, list_elem_of_filter. left.
    assert (popup_id p < nextId w)
      by (apply Hlt, elem_of_app; right; by apply list_elem_of_fmap_2).
    split_and!; [|by apply Hp|lia].
    intros Heq. apply (Hdisj (target_id t)).
    + apply list_elem_of_fmap_2. by eapply list_elem_of_lookup_2.
    + rewrite <- Heq. by apply list_elem_of_fmap_2.
Qed.

Lemma displayed_step w w' : step w w' → displayed w → displayed w'.
Proof.
  intros Hs Hd. destruct Hs as [ps w| w |delta w w' Hu|position shotColor w|img w _|img w _].
  - destruct Hd as (Hnd & Hlt & Ht & Hp).
    destruct (setPlayers_fields ps w)
      as (_ & Hts & Hps & _ & _ & _ & _ & _ & Hsc & Hn).
    unfold displayed, sprite_ids in *. rewrite Hts, Hps, Hsc.
    split_and!; [done| |done..].
    eapply Forall_impl; [done|]. intros i. cbn. lia.
  - unfold displayed, sprite_ids. cbn. split_and!; constructor.
  - rewrite update_eq in Hu. injection Hu as <-.
    by apply displayed_updateLoops, displayed_spawnStep.
  - by apply displayed_checkHit.
  - exact Hd.
  - exact Hd.
Qed.

(** X1: in every state that calls of the public methods and image-load
    events can lead to from a fresh pool, the sprites held by the pool are
    pairwise distinct objects, a target's sprite is a child of the scene if
    and only if the target is alive, and every popup of the pool has its
    sprite in the scene. *)
Theorem reachable_displayed w : reachable w → displayed w.
Proof.
  intros Hr. eapply (rtc_ind_r displayed new_PlayerTargets); [| |exact Hr].
  - unfold displayed, sprite_ids. cbn. split_and!; constructor.
  - intros w1 w2 _ Hs IH. by eapply displayed_step.
Qed.

(** ** Players are consumed in order *)

Lemma consumed_update delta w :
  consumed_in_order w →
  ∃ w', update delta w = Some w' ∧ consumed_in_order w' ∧ players w' = players w.
Proof.
  intros [Hpl Hle].
  destruct (update_players delta w) as (w' & Hu & Hpl').
  destruct (update_spawn delta w) as (w'' & Hu' & _ & Hi & _ & Hp & _).
  rewrite Hu in Hu'. injection Hu' as <-.
  exists w'. split; [done|]. split; [|done]. unfold consumed_in_order.
  rewrite Hpl', Hi, Hp, Hpl.
  pose proof (spawnDue_lookup delta w) as Hl.
  destruct (spawnDue delta w).
  - destruct Hl as [player Hl]; [done|]. apply lookup_lt_Some in Hl.
    split; [by rewrite take_take_drop|lia].
  - by rewrite app_nil_r, Nat.add_0_r.
Qed.

Lemma checkHit_players position shotColor w :
  Target.player <$> targets (snd (checkHit position shotColor w))
  = Target.player <$> targets w
  ∧ playerIndex (snd (checkHit position shotColor w)) = playerIndex w
  ∧ players (snd (checkHit position shotColor w)) = players w.
Proof.
  rewrite checkHit_find.
  destruct (firstInRange position (targets w)) as [[j t]|] eqn:Hf; [|done].
  apply firstInRange_alive in Hf as [Hj _]. cbn. split; [|done].
  rewrite list_fmap_insert. apply list_insert_id.
  by rewrite list_lookup_fmap, Hj.
Qed.

Lemma consumed_calls cs w :
  consumed_in_order w →
  ∃ w', calls cs w = Some w' ∧ consumed_in_order w' ∧ players w' = players w.
Proof.
  revert w. induction cs as [|c cs IH]; intros w Hw; [by exists w|].
  cbn [calls]. destruct c as [delta|position shotColor]; cbn [call].
  - destruct (consumed_update delta w Hw) as (w1 & -> & Hw1 & Hp1).
    destruct (IH w1 Hw1) as (w' & Hc & Hw' & Hp'). exists w'. cbn.
    split_and!; [done..|congruence].
  - destruct (checkHit_players position shotColor w) as (Hpl & Hi & Hp).
    destruct (IH (snd (checkHit position shotColor w))) as (w' & Hc & Hw' & Hp').
    { unfold consumed_in_order in *. by rewrite Hpl, Hi, Hp. }
    exists w'. cbn. split_and!; [done..|congruence].
Qed.

(** X2: after [start], whatever frame ticks and shots follow, the targets
    in the pool are exactly one per consumed player, in the order of the
    player list: the [i]-th target belongs to the [i]-th player, there are
    as many targets as the cursor says, and the cursor never passes the end
    of the list.  When the players are pairwise different, no two targets
    share a player. *)
Theorem start_consumes_players_in_order cs w0 :
  ∃ w',
    calls cs (start w0) = Some w'
    ∧ players w' = players w0
    ∧ Target.player <$> targets w' = take (playerIndex w') (players w0)
    ∧ length (targets w') = playerIndex w'
    ∧ playerIndex w' ≤ length (players w0)
    ∧ (NoDup (players w0) → NoDup (Target.player <$> targets w')).
Proof.
  destruct (consumed_calls cs (start w0)) as (w' & Hc & [Hpl Hle] & Hp).
  { split; [done|]. cbn. lia. }
  change (players (start w0)) with (players w0) in Hp.
  rewrite Hp in Hpl, Hle.
  exists w'. split_and!; [done..| |done|].
  - rewrite <- (length_fmap Target.player), Hpl, length_take. lia.
  - intros Hnd. rewrite Hpl. eapply sublist_NoDup; [done|apply sublist_take].
Qed.

(** ** Requests and the cache *)

Lemma loadAvatar_requests url w :
  requests (snd (loadAvatar url w)) = requests w ++ uncached w [url]
  ∧ avatarCache (snd (loadAvatar url w)) = avatarCache w
  ∧ (∃ new, loading (snd (loadAvatar url w)) = loading w ++ new
            ∧ Forall (λ img, src img ∈ uncached w [url]) new).
Proof.
  unfold loadAvatar, uncached. rewrite filter_cons, filter_nil.
  destruct (avatarCache w !! url) as [cached|] eqn:Hc; cbn.
  - rewrite decide_False by done. rewrite app_nil_r.
    split_and!; [done..|]. exists []; rewrite ?app_nil_r; by try split.
  - rewrite decide_True by done. split_and!; [done..|].
    eexists [_]. split; [done|]. repeat constructor.
Qed.

Lemma loadAvatars_requests urls w :
  requests (snd (loadAvatars urls w)) = requests w ++ uncached w urls
  ∧ avatarCache (snd (loadAvatars urls w)) = avatarCache w
  ∧ (∃ new, loading (snd (loadAvatars urls w)) = loading w ++ new
            ∧ Forall (λ img, src img ∈ uncached w urls) new).
Proof.
  revert w. induction urls as [|url urls IH]; intros w; cbn [loadAvatars].
  - cbn. rewrite app_nil_r. split_and!; [done..|]. exists []; rewrite ?app_nil_r; by try split.
  - pose proof (loadAvatar_requests url w) as (Hr & Hc & new1 & Hl & Hn1).
    destruct (loadAvatar url w) as [p w1]. cbn [snd] in *.
    specialize (IH w1) as (Hr' & Hc' & new2 & Hl' & Hn2).
    destruct (loadAvatars urls w1) as [ps w2]. cbn [snd] in *.
    assert (uncached w1 urls = uncached w urls) as Hu
      by (unfold uncached; by rewrite Hc).
    assert (uncached w (url :: urls) = uncached w [url] ++ uncached w urls) as Hsplit
      by (unfold uncached; by rewrite <- filter_app).
    rewrite Hr', Hr, Hc', Hc, Hl', Hl, Hu, Hsplit, <- !app_assoc in *.
    split_and!; [done..|]. exists (new1 ++ new2). split; [done|].
    apply Forall_app. split; (eapply Forall_impl; [done|]); cbn; set_solver.
Qed.

(** X4: [setPlayers] replaces the player list and requests, in order, the
    avatars of the first 50 players that are not in the cache, one request
    per such player even when several share a URL; it requests nothing for
    the players after the 50th and nothing for a URL that is cached. *)
Theorem setPlayers_preloads_first_50 ps w :
  players (setPlayers ps w) = ps
  ∧ requests (setPlayers ps w)
    = requests w ++ uncached w (profilePicture <$> take 50 ps)
  ∧ length (requests (setPlayers ps w)) ≤ length (requests w) + 50
  ∧ avatarCache (setPlayers ps w) = avatarCache w.
Proof.
  destruct (setPlayers_fields ps w) as (Hp & _).
  unfold setPlayers, preloadAvatars in *. cbn [players set_players].
  destruct (loadAvatars_requests (profilePicture <$> take 50 ps) (set_players ps w))
    as (Hr & Hc & _).
  split_and!; [done|exact Hr| |exact Hc].
  rewrite Hr, length_app. cbn [requests set_players].
  assert (length (uncached (set_players ps w) (profilePicture <$> take 50 ps)) ≤ 50);
    [|lia].
  unfold uncached. etrans; [apply length_filter|].
  rewrite length_fmap, length_take. lia.
Qed.

Lemma spawnTarget_with_requests player w :
  let w' := spawnTarget_with player w in
  requests w'
  = requests w
    ++ match players w !! S (playerIndex w) with
       | Some next => uncached w [profilePicture next]
       | None => []
       end
  ∧ avatarCache w' = avatarCache w
  ∧ (∃ new, loading w' = loading w ++ new
            ∧ Forall (λ img, src img ∈ requests w') new).
Proof.
  unfold spawnTarget_with.
  cbn [players playerIndex scene_add set_scene set_targets set_randomCalls
       set_nextId set_playerIndex].
  destruct (players w !! S (playerIndex w)) as [next|].
  - match goal with |- context [loadAvatar ?u ?x] =>
      pose proof (loadAvatar_requests u x) as (Hr & Hc & new & Hl & Hn) end.
    rewrite Hr, Hc, Hl. split_and!; [done..|]. exists new. split; [done|].
    eapply Forall_impl; [done|]. cbn. intros img Hin. apply elem_of_app. by right.
  - cbn. rewrite app_nil_r. split_and!; [done..|]. exists []; rewrite ?app_nil_r; by try split.
Qed.

Lemma set_spawnTimer_frame v w :
  requests (set_spawnTimer v w) = requests w
  ∧ avatarCache (set_spawnTimer v w) = avatarCache w
  ∧ loading (set_spawnTimer v w) = loading w
  ∧ targets (set_spawnTimer v w) = targets w.
Proof. done. Qed.

Lemma spawnStep_requests delta w :
  requests (spawnStep delta w) = requests w ++ lookahead delta w
  ∧ avatarCache (spawnStep delta w) = avatarCache w
  ∧ (∃ new, loading (spawnStep delta w) = loading w ++ new
            ∧ Forall (λ img, src img ∈ requests (spawnStep delta w)) new).
Proof.
  unfold spawnStep, lookahead.
  pose proof (spawnDue_lookup delta w) as Hl.
  destruct (spawnDue delta w).
  - destruct Hl as [player ->]; [done|].
    set (w1 := set_spawnTimer (spawnTimer w + delta) _).
    destruct (spawnTarget_with_requests player w1) as (Hr & Hc & new & Hn & Hall).
    destruct (set_spawnTimer_frame 0 (spawnTarget_with player w1)) as (-> & -> & -> & _).
    split_and!; [exact Hr|exact Hc|]. by exists new.
  - cbn. rewrite app_nil_r. split_and!; [done..|]. exists []; rewrite ?app_nil_r; by try split.
Qed.

(** X5: a call of [update] issues an avatar request only when it spawns a
    target, and then only for the player right after the spawned one, and
    only if that player's avatar is not cached; a shot never issues a
    request, and neither of them changes the cache. *)
Theorem update_requests_next_avatar delta position shotColor w :
  (∃ w', update delta w = Some w'
     ∧ requests w' = requests w ++ lookahead delta w
     ∧ length (requests w') ≤ S (length (requests w))
     ∧ avatarCache w' = avatarCache w)
  ∧ requests (snd (checkHit position shotColor w)) = requests w
  ∧ avatarCache (snd (checkHit position shotColor w)) = avatarCache w.
Proof.
  split_and!.
  - eexists. split; [apply update_eq|].
    destruct (updateLoops_fields delta (spawnStep delta w))
      as (_ & _ & _ & _ & _ & -> & -> & _).
    destruct (spawnStep_requests delta w) as (-> & -> & _).
    split_and!; [done| |done].
    rewrite length_app. unfold lookahead, uncached.
    destruct (spawnDue delta w); [|cbn; lia].
    destruct (players w !! S (playerIndex w)); [|cbn; lia].
    rewrite filter_cons, filter_nil. destruct (decide _); cbn; lia.
  - rewrite checkHit_find.
    by destruct (firstInRange position (targets w)) as [[j t]|].
  - apply checkHit_avatarCache.
Qed.

Lemma cache_sound_requests w w' extra new :
  cache_sound w →
  requests w' = requests w ++ extra →
  avatarCache w' = avatarCache w →
  loading w' = loading w ++ new →
  Forall (λ img, src img ∈ requests w') new →
  cache_sound w'.
Proof.
  intros [Hc Hl] Hr Ha Hload Hnew. split.
  - intros url img. rewrite Ha, Hr. intros [? ?]%Hc. split; [done|].
    apply elem_of_app. by left.
  - rewrite Hload. apply Forall_app. split; [|done].
    eapply Forall_impl; [done|]. cbn. intros img Hin. rewrite Hr.
    apply elem_of_app. by left.
Qed.

Lemma cache_sound_step w w' : step w w' → cache_sound w → cache_sound w'.
Proof.
  intros Hs Hd.
  destruct Hs as [ps w| w |delta w w' Hu|position shotColor w|img w Hin|img w Hin].
  - unfold setPlayers, preloadAvatars.
    destruct (loadAvatars_requests (profilePicture <$> take 50 (players (set_players ps w)))
                (set_players ps w)) as (Hr & Hc & new & Hl & Hn).
    eapply (cache_sound_requests w); [done|exact Hr|exact Hc|exact Hl|].
    eapply Forall_impl; [done|]. intros img Hin. cbn beta in *. rewrite Hr.
    apply elem_of_app. by right.
  - exact Hd.
  - rewrite update_eq in Hu. injection Hu as <-.
    destruct (updateLoops_fields delta (spawnStep delta w))
      as (_ & _ & _ & _ & _ & Ha & Hr & Hl).
    destruct (spawnStep_requests delta w) as (Hr' & Ha' & new & Hl' & Hn).
    eapply (cache_sound_requests w); [done| | | |].
    + by rewrite Hr, Hr'.
    + by rewrite Ha, Ha'.
    + by rewrite Hl, Hl'.
    + by rewrite Hr.
  - rewrite checkHit_find.
    by destruct (firstInRange position (targets w)) as [[j t]|].
  - destruct Hd as [Hc Hl]. rewrite Forall_forall in Hl. split.
    + intros url cached. cbn [avatarCache requests onload set_loading set_avatarCache].
      intros [[<- <-]|[_ Hold]]%lookup_insert_Some; [|by apply Hc].
      split; [done|]. by apply Hl.
    + apply Forall_forall. cbn [loading requests onload set_loading set_avatarCache].
      intros i [_ ?]%list_elem_of_filter. by apply Hl.
  - destruct Hd as [Hc Hl]. rewrite Forall_forall in Hl. split; [exact Hc|].
    apply Forall_forall. cbn [loading requests onerror set_loading].
    intros i [_ ?]%list_elem_of_filter. by apply Hl.
Qed.

Lemma reachable_cache_sound_all w : reachable w → cache_sound w.
Proof.
  intros Hr. eapply (rtc_ind_r cache_sound new_PlayerTargets); [| |exact Hr].
  - split; [|constructor]. intros url img. cbn. by rewrite lookup_empty.
  - intros w1 w2 _ Hs IH. by eapply cache_sound_step.
Qed.

(** X6: in every reachable state, an image found in the cache under a URL
    was loaded from that very URL, and that URL is one [loadAvatar]
    requested; every image whose load is still in flight was requested as
    well.  So looking up the avatar of a player never yields the picture of
    another URL. *)
Theorem reachable_cache_sound w :
  reachable w →
  (∀ url img, avatarCache w !! url = Some img →
              src img = url ∧ url ∈ requests w)
  ∧ (∀ img, img ∈ loading w → src img ∈ requests w).
Proof.
  intros [Hc Hl]%reachable_cache_sound_all. split; [exact Hc|].
  by apply Forall_forall.
Qed.

(** ** The cache once a load has completed *)

Lemma spawnStep_loading delta w i :
  i ∈ loading (spawnStep delta w) → i ∈ loading w ∨ avatarCache w !! src i = None.
Proof.
  unfold spawnStep.
  destruct (spawnDue delta w); [|by left].
  destruct (players w !! playerIndex w) as [player|]; [|by left].
  set (w1 := set_spawnTimer (spawnTimer w + delta) _).
  destruct (set_spawnTimer_frame 0 (spawnTarget_with player w1)) as (_ & _ & -> & _).
  unfold spawnTarget_with.
  cbn [players playerIndex scene_add set_scene set_targets set_randomCalls
       set_nextId set_playerIndex].
  destruct (players w1 !! S (playerIndex w1)) as [next|]; [|by left].
  match goal with |- context [loadAvatar ?u ?x] =>
    pose proof (loadAvatar_requests u x) as (_ & _ & new & -> & Hn) end.
  intros [Hin|Hin]%elem_of_app; [by left|]. right.
  rewrite Forall_forall in Hn. apply Hn in Hin.
  by apply list_elem_of_filter in Hin as [Hin _].
Qed.

(** A step starts loads only for URLs that are not in the cache. *)
Lemma step_loading w w' i :
  step w w' → i ∈ loading w' → i ∈ loading w ∨ avatarCache w !! src i = None.
Proof.
  intros [ps w0|w0|delta w0 w1 Hu|position shotColor w0|img w0 _|img w0 _].
  - unfold setPlayers, preloadAvatars. cbn [players set_players].
    destruct (loadAvatars_requests (profilePicture <$> take 50 ps) (set_players ps w0))
      as (_ & _ & new & -> & Hn).
    intros [Hin|Hin]%elem_of_app; [by left|]. right.
    rewrite Forall_forall in Hn. apply Hn in Hin.
    by apply list_elem_of_filter in Hin as [Hin _].
  - by left.
  - rewrite update_eq in Hu. injection Hu as <-.
    destruct (updateLoops_fields delta (spawnStep delta w0))
      as (_ & _ & _ & _ & _ & _ & _ & ->).
    apply spawnStep_loading.
  - rewrite checkHit_find.
    destruct (firstInRange position (targets w0)) as [[j t]|]; by left.
  - cbn [loading onload set_loading]. intros [_ ?]%list_elem_of_filter. by left.
  - cbn [loading onerror set_loading]. intros [_ ?]%list_elem_of_filter. by left.
Qed.

(** A step keeps what the cache holds for a URL, unless the load of
    another image of that URL finishes, which then takes its place. *)
Lemma step_cache w w' url img :
  step w w' → avatarCache w !! url = Some img →
  avatarCache w' !! url = Some img
  ∨ ∃ i, i ∈ loading w ∧ src i = url ∧ avatarCache w' !! url = Some i.
Proof.
  intros [ps w0|w0|delta w0 w1 Hu|position shotColor w0|i w0 Hin|i w0 Hin] Hc.
  - left. destruct (setPlayers_fields ps w0) as (_ & _ & _ & Ha & _).
    cbv zeta in Ha. by rewrite Ha.
  - left. destruct (start_fields w0) as (_ & _ & _ & _ & _ & _ & _ & Ha).
    by rewrite Ha.
  - left. destruct (update_avatarCache delta w0) as (w2 & Hu' & Ha).
    rewrite Hu in Hu'. injection Hu' as <-. by rewrite Ha.
  - left. by rewrite (checkHit_avatarCache position shotColor w0).
  - cbn [avatarCache onload set_loading set_avatarCache].
    destruct (decide (src i = url)) as [<-|Hne].
    + right. exists i. by rewrite lookup_insert_eq.
    + left. by rewrite lookup_insert_ne.
  - by left.
Qed.

Lemma rtc_step_cached w w' url img :
  rtc step w w' → avatarCache w !! url = Some img →
  ∃ img', avatarCache w' !! url = Some img'.
Proof.
  intros Hr. revert img. induction Hr as [w|w w1 w' Hs _ IH]; intros img Hc.
  - by exists img.
  - destruct (step_cache _ _ _ _ Hs Hc) as [Hc1|(i & _ & _ & Hc1)]; by eapply IH.
Qed.

Lemma rtc_step_settled w w' url img :
  rtc step w w' → avatarCache w !! url = Some img →
  (∀ i, i ∈ loading w → src i ≠ url) →
  avatarCache w' !! url = Some img ∧ (∀ i, i ∈ loading w' → src i ≠ url).
Proof.
  intros Hr. induction Hr as [w|w w1 w' Hs _ IH]; intros Hc Hl; [done|].
  apply IH.
  - destruct (step_cache _ _ _ _ Hs Hc) as [Hc1|(i & Hin & Hsrc & _)]; [done|].
    by destruct (Hl i Hin).
  - intros i [Hin|Hnone]%(step_loading _ _ _ Hs); [by apply Hl|].
    intros Hsrc. rewrite Hsrc in Hnone. congruence.
Qed.

(** C8, as the code has it: a call of [loadAvatar] for a URL that is in
    the cache resolves with the cached image and changes nothing, so it
    issues no request.  That is the case for every call made after a load of
    the URL has completed, whatever happens in between: frame ticks, shots,
    [start], [setPlayers], loads of other images finishing or failing; the
    image it resolves with is the one that was cached, unless another load
    of the same URL was still in flight, in which case it is the one whose
    load finished last.  A call for a URL that is not in the cache, be a
    load of it in flight or not, creates a new image, starts its load with
    one request for the URL, and resolves with that image. *)
Theorem loadAvatar_cached_or_requested url w :
  (∀ img, avatarCache w !! url = Some img →
          loadAvatar url w = (Resolved img, w))
  ∧ (avatarCache w !! url = None →
     ∃ img w',
       loadAvatar url w = (Awaiting img, w')
       ∧ src img = url ∧ img_id img = nextId w
       ∧ requests w' = requests w ++ [url]
       ∧ loading w' = loading w ++ [img]
       ∧ avatarCache w' = avatarCache w)
  ∧ (∀ img, src img = url →
            loadAvatar url (onload img w) = (Resolved img, onload img w))
  ∧ (∀ img cs, avatarCache w !! url = Some img →
               ∃ w', calls cs w = Some w' ∧ loadAvatar url w' = (Resolved img, w'))
  ∧ (∀ img w', avatarCache w !! url = Some img →
               rtc step w w' →
               ∃ img', avatarCache w' !! url = Some img'
                       ∧ loadAvatar url w' = (Resolved img', w'))
  ∧ (∀ img w', avatarCache w !! url = Some img →
               (∀ i, i ∈ loading w → src i ≠ url) →
               rtc step w w' →
               avatarCache w' !! url = Some img
               ∧ loadAvatar url w' = (Resolved img, w')
               ∧ (∀ i, i ∈ loading w' → src i ≠ url)).
Proof.
  split_and!.
  - unfold loadAvatar. by intros img ->.
  - unfold loadAvatar. intros ->. by eexists _, _.
  - unfold loadAvatar. intros img <-. cbn. by rewrite lookup_insert_eq.
  - intros img cs Hc. destruct (calls_avatarCache cs w) as (w' & Hw & Ha).
    exists w'. split; [done|]. unfold loadAvatar. by rewrite Ha, Hc.
  - intros img w' Hc Hr. destruct (rtc_step_cached _ _ _ _ Hr Hc) as [img' Hc'].
    exists img'. split; [done|]. unfold loadAvatar. by rewrite Hc'.
  - intros img w' Hc Hl Hr.
    destruct (rtc_step_settled _ _ _ _ Hr Hc Hl) as [Hc' Hl'].
    split_and!; [done| |done]. unfold loadAvatar. by rewrite Hc'.
Qed.

(** ** Order facts on numbers *)

Lemma SFcompare_antisym x y :
  SFcompare y x = option_map CompOpp (SFcompare x y).
Proof.
  destruct x as [sx|sx| |sx mx ex], y as [sy|sy| |sy my ey]; cbn; try reflexivity;
    try (destruct sx; reflexivity); try (destruct sy; reflexivity);
    try (destruct sx, sy; reflexivity).
  destruct sx, sy; cbn; try reflexivity;
    rewrite (Z.compare_antisym ex ey);
    destruct (ex ?= ey)%Z; cbn; try reflexivity;
    change (Pos.compare_cont Eq my mx) with (Pos.compare my mx);
    change (Pos.compare_cont Eq mx my) with (Pos.compare mx my);
    by rewrite (Pos.compare_antisym mx my).
Qed.

Lemma ltb_leb x y : PrimFloat.ltb x y = true → PrimFloat.leb x y = true.
Proof.
  rewrite ltb_spec, leb_spec. unfold SFltb, SFleb.
  by destruct (SFcompare _ _) as [[]|].
Qed.

Lemma ltb_asym x y : PrimFloat.ltb x y = true → PrimFloat.ltb y x = false.
Proof.
  rewrite !ltb_spec. unfold SFltb. rewrite (SFcompare_antisym (Prim2SF x)).
  by destruct (SFcompare _ _) as [[]|].
Qed.

Lemma leb_not_ltb x y : PrimFloat.leb x y = true → PrimFloat.ltb y x = false.
Proof.
  rewrite ltb_spec, leb_spec. unfold SFltb, SFleb.
  rewrite (SFcompare_antisym (Prim2SF x)).
  by destruct (SFcompare _ _) as [[]|].
Qed.

(** [Math.max(0, x)] is never below 0. *)
Lemma Math_max_0_not_negative x : Num.lt (Num.Math_max 0 x) 0 = false.
Proof.
  unfold Num.lt, Num.Math_max.
  change (PrimFloat.is_nan 0) with false. cbn [orb].
  destruct (PrimFloat.is_nan x); [reflexivity|].
  destruct (PrimFloat.ltb 0 x) eqn:H0; [by apply ltb_asym|].
  destruct (PrimFloat.ltb x 0); reflexivity.
Qed.

(** ** Popups *)

Lemma updatePopup_fields delta p :
  let p' := fst (updatePopup delta p) in
  popup_id p' = popup_id p
  ∧ NamePopup.lifetime p' = (NamePopup.lifetime p - delta)%float
  ∧ NamePopup.opacity p' = Num.Math_max 0 (NamePopup.lifetime p' / 1.5)%float
  ∧ Sprite.opacity (NamePopup.mesh p') = NamePopup.opacity p'
  ∧ NamePopup.velocity p' = NamePopup.velocity p
  ∧ Sprite.position (NamePopup.mesh p')
    = Vector3.add (Sprite.position (NamePopup.mesh p))
        (Vector3.multiplyScalar (NamePopup.velocity p) delta)
  ∧ Sprite.scale (NamePopup.mesh p')
    = Vector3.multiplyScalar (Sprite.scale (NamePopup.mesh p)) (1 + delta * 0.3)%float
  ∧ snd (updatePopup delta p) = Num.le (NamePopup.lifetime p') 0.
Proof.
  unfold updatePopup, popup_id. cbn [fst snd NamePopup.mesh NamePopup.lifetime
    NamePopup.opacity NamePopup.velocity].
  by destruct (Num.le (NamePopup.lifetime p - delta) 0).
Qed.

Lemma updatePopup_map delta p :
  Sprite.map (NamePopup.mesh (fst (updatePopup delta p)))
  = Sprite.map (NamePopup.mesh p).
Proof.
  unfold updatePopup. cbn [fst NamePopup.mesh].
  by destruct (Num.le (NamePopup.lifetime p - delta) 0).
Qed.

(** The popups after a tick are the ones whose reduced lifetime is not
    [<= 0], one for one and in order, each advanced by the tick. *)
Lemma advancePopups_kept delta ps :
  Forall2
    (λ p p',
       popup_id p' = popup_id p
       ∧ NamePopup.lifetime p' = (NamePopup.lifetime p - delta)%float
       ∧ NamePopup.opacity p' = Num.Math_max 0 (NamePopup.lifetime p' / 1.5)%float
       ∧ Sprite.opacity (NamePopup.mesh p') = NamePopup.opacity p'
       ∧ NamePopup.velocity p' = NamePopup.velocity p
       ∧ Sprite.position (NamePopup.mesh p')
         = Vector3.add (Sprite.position (NamePopup.mesh p))
             (Vector3.multiplyScalar (NamePopup.velocity p) delta)
       ∧ Sprite.scale (NamePopup.mesh p')
         = Vector3.multiplyScalar (Sprite.scale (NamePopup.mesh p))
             (1 + delta * 0.3)%float
       ∧ Sprite.map (NamePopup.mesh p') = Sprite.map (NamePopup.mesh p))
    (filter (λ p, Num.le (NamePopup.lifetime p - delta) 0 = false) ps)
    (advancePopups delta ps).
Proof.
  unfold advancePopups. induction ps as [|p ps IH]; [constructor|].
  rewrite fmap_cons, !filter_cons. cbn [snd].
  destruct (updatePopup_fields delta p) as (Hid & Hl & Ho & Hso & Hv & Hpos & Hsc & He).
  pose proof (updatePopup_map delta p) as Hmap.
  rewrite He, Hl.
  destruct (decide (Num.le (NamePopup.lifetime p - delta) 0 = false)) as [Hk|Hk];
    [|done].
  rewrite fmap_cons. constructor; [|done]. by split_and!.
Qed.

(** X3: a call of [update] keeps exactly the popups whose lifetime reduced
    by [delta] is not [<= 0], one for one and in their order, each advanced
    by the tick: same sprite and texture, lifetime reduced by [delta],
    opacity (also on its sprite) [Math.max(0, lifetime / 1.5)] and so never
    negative, same velocity, sprite drifted by velocity times [delta] and
    grown by the factor [1 + delta * 0.3]; in a pool that agrees with the
    scene their sprites are still children of the scene.  A popup whose
    reduced lifetime is [<= 0] is dropped from the pool and its sprite is
    taken out of the scene.  No popup is created. *)
Theorem update_advances_popups delta w :
  ∃ w',
    update delta w = Some w'
    ∧ Forall2
        (λ p p',
           popup_id p' = popup_id p
           ∧ NamePopup.lifetime p' = (NamePopup.lifetime p - delta)%float
           ∧ NamePopup.opacity p'
             = Num.Math_max 0 (NamePopup.lifetime p' / 1.5)%float
           ∧ Sprite.opacity (NamePopup.mesh p') = NamePopup.opacity p'
           ∧ NamePopup.velocity p' = NamePopup.velocity p
           ∧ Sprite.position (NamePopup.mesh p')
             = Vector3.add (Sprite.position (NamePopup.mesh p))
                 (Vector3.multiplyScalar (NamePopup.velocity p) delta)
           ∧ Sprite.scale (NamePopup.mesh p')
             = Vector3.multiplyScalar (Sprite.scale (NamePopup.mesh p))
                 (1 + delta * 0.3)%float
           ∧ Sprite.map (NamePopup.mesh p') = Sprite.map (NamePopup.mesh p))
        (filter (λ p, Num.le (NamePopup.lifetime p - delta) 0 = false)
           (namePopups w))
        (namePopups w')
    ∧ (displayed w → ∀ p', p' ∈ namePopups w' → popup_id p' ∈ scene w')
    ∧ popup_id <$> namePopups w' `sublist_of` popup_id <$> namePopups w
    ∧ (∀ p, p ∈ namePopups w →
            Num.le (NamePopup.lifetime p - delta) 0 = true →
            popup_id p ∉ scene w')
    ∧ (∀ p', p' ∈ namePopups w' →
             Num.le (NamePopup.lifetime p') 0 = false
             ∧ Num.lt (NamePopup.opacity p') 0 = false
             ∧ ∃ p, p ∈ namePopups w
                    ∧ popup_id p' = popup_id p
                    ∧ NamePopup.lifetime p' = (NamePopup.lifetime p - delta)%float
                    ∧ NamePopup.opacity p'
                      = Num.Math_max 0 (NamePopup.lifetime p' / 1.5)%float
                    ∧ Sprite.opacity (NamePopup.mesh p') = NamePopup.opacity p'
                    ∧ Sprite.position (NamePopup.mesh p')
                      = Vector3.add (Sprite.position (NamePopup.mesh p))
                          (Vector3.multiplyScalar (NamePopup.velocity p) delta)
                    ∧ Sprite.scale (NamePopup.mesh p')
                      = Vector3.multiplyScalar (Sprite.scale (NamePopup.mesh p))
                          (1 + delta * 0.3)%float).
Proof.
  eexists. split; [apply update_eq|].
  assert (displayed w → displayed (updateLoops delta (spawnStep delta w))) as Hdisp.
  { intros Hd. apply (displayed_step w); [|done].
    apply (step_update delta), update_eq. }
  destruct (updateLoops_fields delta (spawnStep delta w)) as (_ & Hps & _).
  destruct (spawnStep_fields delta w) as (_ & _ & _ & _ & _ & Hps0 & _).
  rewrite Hps, Hps0. split_and!.
  - apply advancePopups_kept.
  - intros (_ & _ & _ & Hp)%Hdisp p' Hin. rewrite Forall_forall in Hp.
    apply Hp. by rewrite Hps, Hps0.
  - rewrite advancePopups_ids. apply fmap_sublist, sublist_filter.
  - intros p Hin Hexp [_ [_ Hn]]%updateLoops_scene_iff. apply Hn.
    rewrite Hps0. apply list_elem_of_fmap_2, list_elem_of_filter. split; [|done].
    destruct (updatePopup_fields delta p) as (_ & Hl & _ & _ & _ & _ & _ & ->).
    by rewrite Hl.
  - intros p' Hin. unfold advancePopups in Hin.
    apply list_elem_of_fmap in Hin as [[q e] [-> Hin]].
    apply list_elem_of_filter in Hin as [He Hin]. cbn in He. subst e.
    apply list_elem_of_fmap in Hin as [p [Hq Hpin]]. cbn [fst].
    destruct (updatePopup_fields delta p) as (Hid & Hl & Ho & Hso & Hv & Hpos & Hsc & He).
    rewrite <- Hq in Hid, Hl, Ho, Hso, Hv, Hpos, Hsc, He. cbn [fst snd] in *.
    split_and!.
    + by rewrite <- He.
    + rewrite Ho. apply Math_max_0_not_negative.
    + exists p. by split_and!.
Qed.

(** ** What a target keeps, and its first frame *)

Lemma keeps_card_refl i t w : targets w !! i = Some t → keeps_card i t w.
Proof. intros Hi. exists t. by split_and!. Qed.

Lemma keeps_card_trans i t t1 w1 w2 :
  keeps_card i t w1 → targets w1 !! i = Some t1 → keeps_card i t1 w2 →
  keeps_card i t w2.
Proof.
  intros (t1' & Hi1 & H1) Hi (t2 & Hi2 & H2).
  assert (t1' = t1) as -> by congruence.
  exists t2. split; [done|].
  destruct H1 as (? & ? & ? & ? & ? & ? & ?), H2 as (? & ? & ? & ? & ? & ? & ?).
  split_and!; congruence.
Qed.

Lemma keeps_card_update delta w i t :
  targets w !! i = Some t → ∃ w', update delta w = Some w' ∧ keeps_card i t w'.
Proof.
  intros Hi. destruct (update_target delta w i t Hi) as (w' & Hu & Ht & _).
  exists w'. split; [done|]. eexists. split; [exact Ht|].
  by destruct (Target.alive t), (passesCamera delta t).
Qed.

Lemma keeps_card_checkHit position shotColor w i t :
  targets w !! i = Some t → keeps_card i t (snd (checkHit position shotColor w)).
Proof.
  intros Hi. unfold keeps_card.
  destruct (checkHit_cases position shotColor w)
    as [[_ ->]|(j & x & Hj & _ & _ & ->)]; [by exists t|].
  destruct (decide (j = i)) as [->|Hne].
  - rewrite list_lookup_insert_eq by (by eapply lookup_lt_Some).
    exists (retired x). by simplify_eq.
  - rewrite list_lookup_insert_ne by done. by exists t.
Qed.

Lemma keeps_card_calls cs w i t :
  targets w !! i = Some t → ∃ w', calls cs w = Some w' ∧ keeps_card i t w'.
Proof.
  revert w t. induction cs as [|c cs IH]; intros w t Hi; cbn [calls].
  - exists w. split; [done|]. by apply keeps_card_refl.
  - assert (∃ w1, call c w = Some w1 ∧ keeps_card i t w1) as (w1 & -> & Hk).
    { destruct c as [delta|position shotColor]; cbn [call].
      - by apply keeps_card_update.
      - eexists. split; [done|]. by apply keeps_card_checkHit. }
    cbn [mbind option_bind]. destruct Hk as (t1 & Hi1 & Hk).
    destruct (IH w1 t1 Hi1) as (w' & Hc & Hk').
    exists w'. split; [done|].
    apply (keeps_card_trans i t t1 w1 w'); [by exists t1|done|done].
Qed.

(** X7: a target of the pool stays in its slot with the player, velocity,
    avatar image, card texture, scale, spawn time and sprite identity it was
    spawned with through [setPlayers], through [update] with any delta,
    through [checkHit] with any query, through the end of any image load,
    successful or not (an avatar that arrives late is not drawn on a target
    in flight), and so through any run of frame ticks and shots.  [start] is
    the one method that differs: it empties the pool. *)
Theorem step_keeps_target_card w i t :
  targets w !! i = Some t →
  (∀ ps, keeps_card i t (setPlayers ps w))
  ∧ (∀ delta, ∃ w', update delta w = Some w' ∧ keeps_card i t w')
  ∧ (∀ position shotColor, keeps_card i t (snd (checkHit position shotColor w)))
  ∧ (∀ img, keeps_card i t (onload img w))
  ∧ (∀ img, keeps_card i t (onerror img w))
  ∧ (∀ cs, ∃ w', calls cs w = Some w' ∧ keeps_card i t w')
  ∧ targets (start w) = [].
Proof.
  intros Hi. split_and!.
  - intros ps. destruct (setPlayers_fields ps w) as (_ & Ht & _).
    exists t. cbv zeta in Ht. rewrite Ht. by split_and!.
  - intros delta. by apply keeps_card_update.
  - intros position shotColor. by apply keeps_card_checkHit.
  - intros img. by apply keeps_card_refl.
  - intros img. by apply keeps_card_refl.
  - intros cs. by apply keeps_card_calls.
  - done.
Qed.

(** X8: when a call of [update] spawns, the new target takes the next
    free slot of the pool and belongs to the player under the cursor; its
    avatar image is what the cache held for that player at this moment, its
    spawn time is the game time with this [delta] already added, and it is
    moved in this same call, so its position after the call is its spawn
    position plus its velocity times [delta]. *)
Theorem update_moves_new_target delta w player :
  spawnDue delta w = true →
  players w !! playerIndex w = Some player →
  ∃ w' t',
    update delta w = Some w'
    ∧ targets w' !! length (targets w) = Some t'
    ∧ Target.player t' = player
    ∧ target_id t' = nextId w
    ∧ Target.avatarImage t' = avatarCache w !! profilePicture player
    ∧ Target.spawnTime t' = (gameTime w + delta)%float
    ∧ Sprite.position (Target.mesh t')
      = Vector3.add
          (Sprite.position
             (Target.mesh (spawned player (set_gameTime (gameTime w + delta)%float w))))
          (Vector3.multiplyScalar (Target.velocity t') delta)
    ∧ Target.alive t'
      = negb (Num.gt (Vector3.z (Sprite.position (Target.mesh t'))) 5).
Proof.
  intros Hdue Hpl. eexists _, _. split; [apply update_eq|].
  destruct (updateLoops_fields delta (spawnStep delta w)) as (-> & _).
  assert (targets (spawnStep delta w)
          = targets w
            ++ [spawned player
                  (set_spawnTimer (spawnTimer w + delta)
                     (set_gameTime (gameTime w + delta) w))]) as Hts.
  { unfold spawnStep. rewrite Hdue, Hpl.
    set (w1 := set_spawnTimer (spawnTimer w + delta) _).
    destruct (set_spawnTimer_frame 0 (spawnTarget_with player w1)) as (_ & _ & _ & ->).
    by destruct (spawnTarget_with_fields player w1) as (-> & _). }
  rewrite Hts, list_lookup_fmap, lookup_app_r, Nat.sub_diag by done.
  cbn [lookup list_lookup fmap option_fmap option_map].
  split; [done|]. rewrite updateTarget_target.
  set (s := spawned player _).
  change (Target.alive s) with true. cbn match.
  unfold passesCamera. change (Target.alive s) with true. cbn [andb].
  destruct (Num.gt _ 5) eqn:Hz; (split_and!; [done..|]).
  - change (false
            = negb (Num.gt (Vector3.z (Sprite.position (Target.mesh s))
                            + Vector3.z (Target.velocity s) * delta)%float 5)).
    by rewrite Hz.
  - change (true
            = negb (Num.gt (Vector3.z (Sprite.position (Target.mesh s))
                            + Vector3.z (Target.velocity s) * delta)%float 5)).
    by rewrite Hz.
Qed.

(** ** The frame clock and the rail *)

Lemma Math_min_capped x : Num.gt (Num.Math_min x 0.1) 0.1 = false.
Proof.
  unfold Num.gt, Num.Math_min.
  change (PrimFloat.is_nan 0.1) with false. rewrite orb_false_r.
  destruct (PrimFloat.is_nan x); [reflexivity|].
  destruct (PrimFloat.ltb x 0.1) eqn:Hlt; [by apply ltb_asym|].
  destruct (PrimFloat.ltb 0.1 x) eqn:Hgt; [reflexivity|].
  by destruct (PrimFloat.get_sign x).
Qed.

(** X9: a tick of a stopped ticker calls nobody and requests no frame.  A
    tick of a running one calls every subscriber once, in subscription
    order, all with the same delta; that delta is
    [Math.min((now - lastTime) / 1000, 0.1)] and so is never above 0.1,
    however long the frame took; the clock reading becomes [lastTime] and
    one more frame is requested. *)
Theorem tick_caps_delta now tk :
  (Ticker.isRunning tk = false → Ticker.tick now tk = (tk, []))
  ∧ (Ticker.isRunning tk = true →
     ∃ delta,
       delta = Num.Math_min ((now - Ticker.lastTime tk) / 1000)%float 0.1%float
       ∧ Num.gt delta 0.1 = false
       ∧ snd (Ticker.tick now tk) = (λ callback, (callback, delta)) <$> Ticker.callbacks tk
       ∧ Ticker.lastTime (fst (Ticker.tick now tk)) = now
       ∧ Ticker.callbacks (fst (Ticker.tick now tk)) = Ticker.callbacks tk
       ∧ Ticker.pending (fst (Ticker.tick now tk)) = S (Ticker.pending tk)).
Proof.
  unfold Ticker.tick. split; intros ->; [done|]. cbn [negb fst snd].
  eexists. split; [reflexivity|]. split; [apply Math_min_capped|done].
Qed.

Lemma ticker_step_running tk tk' :
  Ticker.step tk tk' →
  Ticker.isRunning tk = true ∧ Ticker.pending tk = 1 →
  Ticker.isRunning tk' = true ∧ Ticker.pending tk' = 1.
Proof.
  intros Hs [Hr Hp]. destruct Hs as [cb tk|cb tk|now now' tk|now tk r Hf].
  - done.
  - unfold Ticker.unsubscribe. by destruct (Ticker.indexOf _ _).
  - unfold Ticker.start. by rewrite Hr.
  - unfold Ticker.frame in Hf. rewrite Hp in Hf. injection Hf as <-.
    unfold Ticker.tick. cbn [Ticker.isRunning]. by rewrite Hr.
Qed.

(** X10: a ticker that is never stopped runs one frame loop: from its
    construction on, through any subscriptions, removals, further calls of
    [start] and frames, it is running and exactly one animation frame is
    requested, so each subscriber is called once per frame; calling
    [start] again starts no second loop. *)
Theorem ticker_runs_one_loop now now' tk :
  rtc Ticker.step (Ticker.new now now') tk →
  Ticker.isRunning tk = true ∧ Ticker.pending tk = 1.
Proof.
  intros Hr.
  eapply (rtc_ind_r (λ tk, Ticker.isRunning tk = true ∧ Ticker.pending tk = 1)
            (Ticker.new now now')); [| |exact Hr].
  - done.
  - intros x y _ Hs IH. by eapply ticker_step_running.
Qed.

Lemma indexOf_first callback l1 l2 :
  callback ∉ l1 →
  Ticker.indexOf callback (l1 ++ callback :: l2) = Some (length l1).
Proof.
  intros Hn. unfold Ticker.indexOf.
  induction l1 as [|c l1 IH]; cbn [app list_find].
  - by rewrite decide_True.
  - apply not_elem_of_cons in Hn as [Hne Hn].
    rewrite decide_False by done.
    specialize (IH Hn). destruct (list_find _ (l1 ++ _)) as [[i c']|]; [|done].
    cbn in *. by simplify_eq.
Qed.

Lemma indexOf_absent callback l :
  callback ∉ l → Ticker.indexOf callback l = None.
Proof.
  intros Hn. unfold Ticker.indexOf.
  destruct (list_find _ l) as [[i c]|] eqn:Hf; [|done].
  apply list_find_Some in Hf as (Hi & -> & _).
  by apply list_elem_of_lookup_2 in Hi.
Qed.

(** X11: [unsubscribe] removes the first occurrence of the callback and
    only that one, keeping the order of the others, so a callback that was
    subscribed twice is still called once per tick afterwards; it leaves a
    ticker that does not hold the callback as it is, and it undoes a
    [subscribe] of a callback that was not subscribed before. *)
Theorem unsubscribe_removes_first callback tk :
  (callback ∉ Ticker.callbacks tk → Ticker.unsubscribe callback tk = tk)
  ∧ (∀ l1 l2,
       Ticker.callbacks tk = l1 ++ callback :: l2 →
       callback ∉ l1 →
       Ticker.callbacks (Ticker.unsubscribe callback tk) = l1 ++ l2)
  ∧ (callback ∉ Ticker.callbacks tk →
     Ticker.unsubscribe callback (Ticker.subscribe callback tk) = tk)
  ∧ Ticker.lastTime (Ticker.unsubscribe callback tk) = Ticker.lastTime tk
  ∧ Ticker.isRunning (Ticker.unsubscribe callback tk) = Ticker.isRunning tk.
Proof.
  split_and!.
  - intros Hn. unfold Ticker.unsubscribe. by rewrite indexOf_absent.
  - intros l1 l2 Hc Hn. unfold Ticker.unsubscribe.
    rewrite Hc, indexOf_first by done. cbn [Ticker.callbacks].
    by rewrite delete_middle.
  - intros Hn. unfold Ticker.unsubscribe, Ticker.subscribe. cbn [Ticker.callbacks].
    rewrite indexOf_first by done. cbn.
    rewrite (delete_middle (Ticker.callbacks tk) []), app_nil_r.
    by destruct tk.
  - unfold Ticker.unsubscribe. by destruct (Ticker.indexOf _ _).
  - unfold Ticker.unsubscribe. by destruct (Ticker.indexOf _ _).
Qed.

Lemma rail_step_bounded r r' :
  Rail.step Math_sin Math_cos r r' →
  Num.gt (Rail.progress r) 1 = false
  ∧ (Rail.isFinished r = true → Rail.progress r = 1%float) →
  Num.gt (Rail.progress r') 1 = false
  ∧ (Rail.isFinished r' = true → Rail.progress r' = 1%float).
Proof.
  intros Hs [Hb Hf]. destruct Hs as [r|delta now r|m r].
  - done.
  - unfold Rail.update. destruct (Rail.isFinished r) eqn:Hfin; [by auto|].
    destruct (Num.ge _ 1) eqn:Hge; cbn [fst Rail.progress Rail.isFinished].
    + done.
    + split; [|done]. unfold Num.gt, Num.ge in *.
      apply not_true_is_false. intros Hlt%ltb_leb. congruence.
  - done.
Qed.

(** X12: whatever is called on a rail ([start], [update] with any delta,
    [setSpeed] with any multiplier), its progress is never above 1, and a
    finished rail has a progress of exactly 1. *)
Theorem rail_progress_at_most_1 r :
  rtc (Rail.step Math_sin Math_cos) Rail.new r →
  Num.gt (Rail.progress r) 1 = false
  ∧ (Rail.isFinished r = true → Rail.progress r = 1%float).
Proof.
  intros Hr.
  eapply (rtc_ind_r (λ r, Num.gt (Rail.progress r) 1 = false
                          ∧ (Rail.isFinished r = true → Rail.progress r = 1%float))
            Rail.new); [| |exact Hr].
  - done.
  - intros x y _ Hs IH. by eapply rail_step_bounded.
Qed.

(** ** The orchestrator *)

Lemma extends_refl others w : extends others w w.
Proof. split_and!; [done|done|auto]. Qed.

Lemma extends_trans o1 o2 w1 w2 w3 :
  extends o1 w1 w2 → extends o2 w2 w3 → extends (o1 ++ o2) w1 w3.
Proof.
  intros (Hn1 & Hs1 & Hi1) (Hn2 & Hs2 & Hi2). split_and!.
  - lia.
  - intros i Hlt Hni Hno. apply not_elem_of_app in Hno as [Ho1 Ho2].
    rewrite <- (Hs1 i) by done. apply Hs2; [lia| |done].
    intros [Hin|Hge]%Hi1; [done|lia].
  - intros j [Hin|Hge]%Hi2; [|right; lia]. by apply Hi1.
Qed.

Lemma extends_same others w w' :
  targets w' = targets w → namePopups w' = namePopups w →
  scene w' = scene w → nextId w ≤ nextId w' →
  extends others w w'.
Proof.
  intros Ht Hp Hs Hn. unfold extends, sprite_ids. rewrite Ht, Hp, Hs.
  split_and!; [done|done|auto].
Qed.

Lemma spawnStep_extends delta w : extends [] w (spawnStep delta w).
Proof.
  unfold spawnStep.
  destruct (spawnDue delta w); [|by apply extends_same].
  destruct (players w !! playerIndex w) as [player|]; [|by apply extends_same].
  set (w1 := set_spawnTimer (spawnTimer w + delta) _).
  destruct (spawnTarget_with_fields player w1)
    as (Hts & _ & _ & Hps & _ & _ & _ & _ & Hsc & Hid).
  unfold extends, sprite_ids.
  cbn [targets namePopups scene nextId set_spawnTimer].
  rewrite Hts, Hps, Hsc. change (nextId w1) with (nextId w) in *.
  change (targets w1) with (targets w). change (namePopups w1) with (namePopups w).
  change (scene w1) with (scene w).
  split_and!.
  - lia.
  - intros i Hlt _ _. rewrite elem_of_scene_add. split; [intros [[? _]| ->]|]; [done|lia|].
    intros ?. left. split; [done|lia].
  - intros j. rewrite fmap_app, !elem_of_app. cbn [fmap list_fmap].
    rewrite list_elem_of_singleton.
    change (target_id (spawned player w1)) with (nextId w).
    intros [[?| ->]|?]; [tauto|right; lia|tauto].
Qed.

Lemma updateLoops_extends delta w : extends [] w (updateLoops delta w).
Proof.
  unfold extends, sprite_ids.
  destruct (updateLoops_fields delta w) as (-> & -> & -> & _).
  split_and!.
  - done.
  - intros i _ Hn _. rewrite updateLoops_scene_iff.
    apply not_elem_of_app in Hn as [Hnt Hnp].
    split; [tauto|]. intros Hs. split_and!; [done| |].
    + intros [t [-> [_ Hin]%list_elem_of_filter]]%list_elem_of_fmap.
      by apply Hnt, list_elem_of_fmap_2.
    + intros [p [-> [_ Hin]%list_elem_of_filter]]%list_elem_of_fmap.
      by apply Hnp, list_elem_of_fmap_2.
  - intros j. rewrite !elem_of_app. intros [Hj|Hj]; left.
    + left. rewrite <- list_fmap_compose in Hj.
      rewrite (list_fmap_ext (target_id ∘ _) target_id (targets w)) in Hj
        by (intros; apply updateTarget_id). done.
    + right. rewrite advancePopups_ids in Hj.
      apply list_elem_of_fmap in Hj as [p [-> [_ Hin]%list_elem_of_filter]].
      by apply list_elem_of_fmap_2.
Qed.

Lemma insert_retired_ids (ts : list Target.t) j t :
  ts !! j = Some t → target_id <$> <[j := retired t]> ts = target_id <$> ts.
Proof.
  intros Hj. rewrite list_fmap_insert.
  change (target_id (retired t)) with (target_id t).
  apply list_insert_id. by rewrite list_lookup_fmap, Hj.
Qed.

Lemma checkHit_extends position shotColor w :
  extends [] w (snd (checkHit position shotColor w)).
Proof.
  rewrite checkHit_find.
  destruct (firstInRange position (targets w)) as [[j t]|] eqn:Hf;
    [|apply extends_refl].
  apply list_find_Some in Hf as (Hj & _ & _). cbn [snd].
  set (w1 := scene_remove (target_id t) w).
  destruct (spawnNamePopup_fields (Target.player t)
              (Sprite.position (Target.mesh t)) w1)
    as ((popup & Hps & Hid & _) & Hsc & Hts & Hn).
  unfold extends, sprite_ids.
  cbn [targets namePopups scene nextId set_targets].
  rewrite Hps, Hsc, Hn, insert_retired_ids by done.
  change (nextId w1) with (nextId w) in *.
  change (namePopups w1) with (namePopups w).
  change (scene w1) with (filter (λ i, i ≠ target_id t) (scene w)).
  split_and!.
  - lia.
  - intros i Hlt Hni _. rewrite elem_of_scene_add, list_elem_of_filter.
    assert (i ≠ target_id t).
    { intros ->. apply Hni, elem_of_app. left.
      apply list_elem_of_fmap_2. by eapply list_elem_of_lookup_2. }
    split; [intros [[[_ ?] _]| ->]; [done|lia]|].
    intros ?. left. split; [done|lia].
  - intros i. rewrite fmap_app, !elem_of_app. cbn [fmap list_fmap].
    rewrite list_elem_of_singleton, Hid.
    intros [?|[?| ->]]; [tauto|tauto|right; lia].
Qed.

Lemma step_extends w w' : step w w' → extends [] w w'.
Proof.
  intros [ps w0|w0|delta w0 w1 Hu|position shotColor w0|img w0 _|img w0 _].
  - destruct (setPlayers_fields ps w0) as (_ & ? & ? & _ & _ & _ & _ & _ & ? & ?).
    by apply extends_same.
  - unfold extends, sprite_ids. cbn. split_and!; [done|done|].
    intros j Hj. by apply elem_of_nil in Hj.
  - rewrite update_eq in Hu. injection Hu as <-.
    apply (extends_trans [] [] _ (spawnStep delta w0));
      [apply spawnStep_extends|apply updateLoops_extends].
  - apply checkHit_extends.
  - by apply extends_same.
  - by apply extends_same.
Qed.

Lemma extends_weaken o o' w w' :
  (∀ i, i ∈ o → i ∈ o') → extends o w w' → extends o' w w'.
Proof.
  intros Hsub (Hn & Hs & Hi). split_and!; [done| |done].
  intros i Hlt Hni Hno. apply Hs; [done..|]. intros ?. by apply Hno, Hsub.
Qed.

Lemma displayed_frame w w' :
  displayed w → targets w' = targets w → namePopups w' = namePopups w →
  nextId w ≤ nextId w' →
  (∀ i, i ∈ sprite_ids w → (i ∈ scene w' ↔ i ∈ scene w)) →
  displayed w'.
Proof.
  intros (Hnd & Hlt & Ht & Hp) Hts Hps Hn Hsc. unfold displayed, sprite_ids in *.
  rewrite Hts, Hps. split_and!.
  - done.
  - eapply Forall_impl; [done|]. intros i ?; cbn in *. lia.
  - rewrite Forall_forall in Ht |- *. intros t Hin.
    rewrite Hsc; [by apply Ht|]. apply elem_of_app. left. by apply list_elem_of_fmap_2.
  - rewrite Forall_forall in Hp |- *. intros p Hin.
    rewrite Hsc; [by apply Hp|]. apply elem_of_app. right. by apply list_elem_of_fmap_2.
Qed.

Lemma projectiles_displayed_extends others w w' ps :
  extends others w w' → projectiles_displayed w ps →
  (∀ proj, proj ∈ ps → projectile_id proj ∉ others) →
  projectiles_displayed w' ps.
Proof.
  intros (Hn & Hs & Hi) (Hnd & Hall) Ho. split; [done|].
  rewrite Forall_forall in Hall |- *. intros proj Hin.
  destruct (Hall proj Hin) as (Hlt & Hni & Hsc). split_and!.
  - lia.
  - intros [?|?]%Hi; [done|lia].
  - rewrite Hs; [done..|]. by apply Ho.
Qed.

Lemma removeProjectile_inv proj w :
  displayed w → projectile_id proj ∉ sprite_ids w →
  displayed (snd (removeProjectile proj w))
  ∧ extends [projectile_id proj] w (snd (removeProjectile proj w))
  ∧ projectile_id (fst (removeProjectile proj w)) = projectile_id proj
  ∧ Projectile.alive (fst (removeProjectile proj w)) = false
  ∧ (projectile_id proj ∉ scene (snd (removeProjectile proj w)))
  ∧ nextId (snd (removeProjectile proj w)) = nextId w
  ∧ sprite_ids (snd (removeProjectile proj w)) = sprite_ids w.
Proof.
  intros Hd Hni. unfold removeProjectile. cbn [fst snd].
  change (Mesh.id (Projectile.mesh proj)) with (projectile_id proj).
  assert (∀ i, i ≠ projectile_id proj →
               (i ∈ scene (scene_remove (projectile_id proj) w) ↔ i ∈ scene w)) as Hsc.
  { intros i Hne. cbn [scene scene_remove set_scene]. rewrite list_elem_of_filter. tauto. }
  split_and!.
  - apply (displayed_frame w); [done..|]. intros i Hin. apply Hsc. by intros ->.
  - split_and!; [done| |auto]. intros i _ _ Hno. apply Hsc.
    intros ->. by apply Hno, list_elem_of_singleton.
  - done.
  - done.
  - cbn [scene scene_remove set_scene]. rewrite list_elem_of_filter. tauto.
  - done.
  - done.
Qed.

Lemma onHit_fields player correct g :
  Game.targets (onHit player correct g) = Game.targets g
  ∧ Game.rail (onHit player correct g) = Game.rail g
  ∧ Game.isPlaying (onHit player correct g) = Game.isPlaying g
  ∧ Game.projectiles (onHit player correct g) = Game.projectiles g
  ∧ Game.streak (onHit player correct g)
    = (if correct then S (Game.streak g) else 0)
  ∧ Game.score (onHit player correct g)
    = Game.score g + (if correct then 1 + S (Game.streak g) / 5 else 0)
  ∧ HUD.scoreEl (Game.hud (onHit player correct g))
    = Game.score (onHit player correct g)
  ∧ HUD.streakActive (Game.hud (onHit player correct g))
    = bool_decide (3 ≤ Game.streak (onHit player correct g)).
Proof.
  unfold onHit, HUD.updateScore. destruct correct; cbn [Game.targets Game.rail
    Game.isPlaying Game.projectiles Game.streak Game.score Game.hud];
    case_bool_decide; cbn; split_and!; done || lia.
Qed.

Lemma onHit_scoring player correct g :
  Game.score g ≤ Game.score (onHit player correct g)
  ∧ (scoring_ok g → scoring_ok (onHit player correct g)).
Proof.
  destruct (onHit_fields player correct g) as (_ & _ & _ & _ & Hst & Hsc & Hh & _).
  unfold scoring_ok. rewrite Hh, Hst, Hsc. destruct correct; split; lia.
Qed.

Lemma updateProjectile_inv delta proj g proj' g' :
  updateProjectile delta proj g = (proj', g') →
  displayed (Game.targets g) →
  projectile_id proj < nextId (Game.targets g) →
  projectile_id proj ∉ sprite_ids (Game.targets g) →
  (projectile_id proj ∈ scene (Game.targets g) ↔ Projectile.alive proj = true) →
  displayed (Game.targets g')
  ∧ extends [projectile_id proj] (Game.targets g) (Game.targets g')
  ∧ projectile_id proj' = projectile_id proj
  ∧ (projectile_id proj' ∈ scene (Game.targets g') ↔ Projectile.alive proj' = true)
  ∧ Game.rail g' = Game.rail g
  ∧ Game.isPlaying g' = Game.isPlaying g
  ∧ Game.projectiles g' = Game.projectiles g
  ∧ Game.score g ≤ Game.score g'
  ∧ (scoring_ok g → scoring_ok g').
Proof.
  intros Hu Hd Hlt Hni Hsc. unfold updateProjectile in Hu.
  destruct (Projectile.alive proj) eqn:Ha; cbn [negb] in Hu.
  2:{ injection Hu as <- <-. rewrite Ha. split_and!; try done. apply extends_refl. }
  set (position := Vector3.add _ _) in Hu.
  pose proof (displayed_checkHit position (Projectile.color proj) (Game.targets g) Hd) as Hd1.
  pose proof (checkHit_extends position (Projectile.color proj) (Game.targets g)) as He1.
  cbn [Projectile.color] in Hu.
  destruct (checkHit position (Projectile.color proj) (Game.targets g)) as [hit w].
  cbn [snd] in Hd1, He1.
  set (moved := Projectile.mk _ _ _ _) in Hu.
  assert (projectile_id moved ∉ sprite_ids w) as Hni1.
  { destruct He1 as (_ & _ & Hi). intros [?|?]%Hi; [done|].
    change (projectile_id moved) with (projectile_id proj) in *. lia. }
  destruct (removeProjectile_inv moved w Hd1 Hni1) as (Hd2 & He2 & Hid & Hdead & Hout & _).
  assert (extends [projectile_id proj] (Game.targets g) (snd (removeProjectile moved w)))
    as He3 by apply (extends_trans [] [_] _ w _ He1 He2).
  assert (projectile_id (fst (removeProjectile moved w))
            ∈ scene (snd (removeProjectile moved w))
          ↔ Projectile.alive (fst (removeProjectile moved w)) = true) as Hsc2.
  { rewrite Hdead, Hid. split; [|done]. intros ?. by destruct Hout. }
  destruct hit as [hit|].
  - destruct (onHit_fields (hit_player hit) (correct hit) (Game.set_targets w g))
      as (Ht & Hr & Hp & Hps & _).
    destruct (onHit_scoring (hit_player hit) (correct hit) (Game.set_targets w g))
      as (Hle & Hok).
    rewrite Ht in Hu. cbn [Game.targets Game.set_targets] in Hu.
    destruct (removeProjectile moved w) as [proj2 w2]. injection Hu as <- <-.
    cbn [fst snd] in *. by split_and!.
  - destruct (Num.lt _ _ || Num.gt _ _).
    + cbn [Game.targets Game.set_targets] in Hu.
      destruct (removeProjectile moved w) as [proj2 w2]. injection Hu as <- <-.
      cbn [fst snd] in *. by split_and!.
    + injection Hu as <- <-. cbn [Game.targets Game.set_targets].
      split_and!; try done.
      * eapply extends_weaken; [|exact He1]. intros i Hi. by apply elem_of_nil in Hi.
      * destruct He1 as (_ & Hs & _).
        change (projectile_id moved) with (projectile_id proj).
        rewrite Hs; [done..|]. apply not_elem_of_nil.
Qed.

Lemma updateProjectiles_loop_inv delta ps g ps' g' :
  updateProjectiles_loop delta ps g = (ps', g') →
  displayed (Game.targets g) →
  projectiles_displayed (Game.targets g) ps →
  displayed (Game.targets g')
  ∧ projectiles_displayed (Game.targets g') ps'
  ∧ projectile_id <$> ps' = projectile_id <$> ps
  ∧ extends (projectile_id <$> ps) (Game.targets g) (Game.targets g')
  ∧ Game.rail g' = Game.rail g
  ∧ Game.isPlaying g' = Game.isPlaying g
  ∧ Game.projectiles g' = Game.projectiles g
  ∧ Game.score g ≤ Game.score g'
  ∧ (scoring_ok g → scoring_ok g').
Proof.
  revert ps' g'. induction ps as [|proj rest IH]; intros ps' g' Hu Hd Hpd;
    cbn [updateProjectiles_loop] in Hu.
  - injection Hu as <- <-. split_and!; try done. apply extends_refl.
  - destruct (updateProjectiles_loop delta rest g) as [rest' g1] eqn:Hrest.
    destruct (updateProjectile delta proj g1) as [proj' g2] eqn:Hproj.
    injection Hu as <- <-.
    destruct Hpd as (Hnd & Hall). rewrite fmap_cons in Hnd.
    apply NoDup_cons in Hnd as [Hnin Hnd].
    apply Forall_cons in Hall as [(Hlt & Hni & Hsc) Hall].
    destruct (IH rest' g1 eq_refl Hd (conj Hnd Hall))
      as (Hd1 & Hpd1 & Hids & He1 & Hr1 & Hp1 & Hps1 & Hle1 & Hok1).
    assert (projectile_id proj < nextId (Game.targets g1)
            ∧ (projectile_id proj ∉ sprite_ids (Game.targets g1))
            ∧ (projectile_id proj ∈ scene (Game.targets g1)
               ↔ Projectile.alive proj = true)) as (Hlt1 & Hni1 & Hsc1).
    { destruct He1 as (Hn & Hs & Hi). split_and!.
      - lia.
      - intros [?|?]%Hi; [done|lia].
      - by rewrite Hs. }
    destruct (updateProjectile_inv delta proj g1 proj' g2 Hproj Hd1 Hlt1 Hni1 Hsc1)
      as (Hd2 & He2 & Hid & Hsc2 & Hr2 & Hp2 & Hps2 & Hle2 & Hok2).
    assert (projectiles_displayed (Game.targets g2) rest') as Hpd2.
    { eapply projectiles_displayed_extends; [exact He2|exact Hpd1|].
      intros q Hq Heq%list_elem_of_singleton. apply Hnin.
      rewrite <- Heq, <- Hids. by apply list_elem_of_fmap_2. }
    split_and!.
    + done.
    + destruct Hpd2 as (Hnd2 & Hall2). split.
      * rewrite fmap_cons, Hid, Hids. by apply NoDup_cons.
      * apply Forall_cons. split; [|done]. rewrite Hid.
        destruct He2 as (Hn & _ & Hi). split_and!.
        -- lia.
        -- intros [?|?]%Hi; [done|lia].
        -- by rewrite <- Hid.
    + by rewrite !fmap_cons, Hid, Hids.
    + eapply extends_weaken; [|exact (extends_trans _ _ _ _ _ He1 He2)].
      intros i. rewrite fmap_cons, elem_of_app, list_elem_of_singleton, elem_of_cons. tauto.
    + congruence.
    + congruence.
    + congruence.
    + lia.
    + auto.
Qed.

Lemma gameOver_fold ps w :
  let w' :=
    foldl (λ w proj,
             if Projectile.alive proj then snd (removeProjectile proj w) else w)
      w ps in
  targets w' = targets w
  ∧ namePopups w' = namePopups w
  ∧ nextId w' = nextId w
  ∧ ∀ i, i ∈ scene w'
         ↔ i ∈ scene w ∧ i ∉ projectile_id <$> aliveProjectiles ps.
Proof.
  revert w. induction ps as [|proj ps IH]; intros w; cbn [foldl].
  - split_and!; [done..|]. intros i. split; [|tauto].
    intros ?. split; [done|]. apply not_elem_of_nil.
  - unfold aliveProjectiles. rewrite filter_cons.
    destruct (Projectile.alive proj) eqn:Ha.
    + rewrite decide_True by done.
      destruct (IH (snd (removeProjectile proj w))) as (-> & -> & -> & Hs).
      split_and!; [done..|]. intros i. rewrite Hs, fmap_cons, not_elem_of_cons.
      unfold removeProjectile. cbn [snd scene scene_remove set_scene].
      rewrite list_elem_of_filter. unfold projectile_id, aliveProjectiles. tauto.
    + rewrite decide_False by done. apply IH.
Qed.

Lemma game_inv_init ps : game_inv (Game_init ps).
Proof.
  unfold game_inv, Game_init, scoring_ok.
  cbn [Game.targets Game.projectiles Game.isPlaying Game.score Game.streak Game.hud].
  split_and!.
  - apply (displayed_step new_PlayerTargets); [apply step_setPlayers|].
    unfold displayed, sprite_ids. cbn. split_and!; constructor.
  - split; constructor.
  - done.
  - done.
  - by left.
Qed.

Lemma game_inv_start g : game_inv g → game_inv (Game_start g).
Proof.
  intros (Hd & _). unfold game_inv, Game_start, scoring_ok.
  cbn [Game.targets Game.projectiles Game.isPlaying Game.score Game.streak Game.hud].
  split_and!.
  - by apply (displayed_step (Game.targets g)); [apply step_start|].
  - split; constructor.
  - done.
  - done.
  - by right.
Qed.

Lemma game_inv_shoot origin direction color g :
  game_inv g → Game.isPlaying g = true → game_inv (shoot origin direction color g).
Proof.
  intros (Hd & Hpd & _ & Hok) Hplay. unfold game_inv, shoot, scoring_ok in *.
  cbn [Game.targets Game.projectiles Game.isPlaying Game.score Game.streak Game.hud
       Game.set_targets Game.set_projectiles Mesh.id].
  set (w := Game.targets g) in *.
  set (w' := scene_add (nextId w) (set_nextId (nextId w + 2) w)).
  assert (∀ i, i < nextId w → (i ∈ scene w' ↔ i ∈ scene w)) as Hsc.
  { intros i Hlt. subst w'. cbn [scene scene_add set_scene set_nextId].
    rewrite elem_of_scene_add. split; [intros [[? _]| ->]; [done|lia]|].
    intros ?. left. split; [done|lia]. }
  assert (nextId w ∉ sprite_ids w) as Hfresh.
  { destruct Hd as (_ & Hlt & _). rewrite Forall_forall in Hlt.
    intros Hin%Hlt. lia. }
  split_and!.
  - apply (displayed_frame w); [done|done|done|cbn; lia|].
    intros i Hin. apply Hsc. destruct Hd as (_ & Hlt & _).
    rewrite Forall_forall in Hlt. by apply Hlt.
  - destruct Hpd as (Hnd & Hall). rewrite Forall_forall in Hall. split.
    + rewrite fmap_app. cbn [fmap list_fmap]. apply NoDup_app. split_and!; [done| |].
      * intros i [proj [-> Hin]]%list_elem_of_fmap Heq%list_elem_of_singleton.
        destruct (Hall proj Hin) as (Hlt & _).
        change (projectile_id proj = nextId w) in Heq. lia.
      * apply NoDup_singleton.
    + apply Forall_app. split.
      * apply Forall_forall. intros proj Hin.
        destruct (Hall proj Hin) as (Hlt & Hni & Hs). split_and!.
        -- cbn. lia.
        -- done.
        -- by rewrite Hsc.
      * apply Forall_singleton. unfold projectile_id.
        cbn [Projectile.mesh Projectile.alive Mesh.id]. split_and!.
        -- cbn. lia.
        -- done.
        -- split; [done|]. intros _. subst w'.
           cbn [scene scene_add set_scene set_nextId].
           rewrite elem_of_scene_add. by right.
  - by rewrite Hplay.
  - apply Hok.
  - apply Hok.
Qed.

Lemma Game_update_eq delta now g :
  Game_update delta now g
  = Some (if negb (Game.isPlaying g) then g
          else
            let g1 :=
              updateProjectiles delta
                (Game.mk (updateLoops delta (spawnStep delta (Game.targets g)))
                   (fst (Rail.update Math_sin Math_cos delta now (Game.rail g)))
                   (Game.hud g) (Game.score g) (Game.streak g) (Game.isPlaying g)
                   (Game.projectiles g)) in
            if Rail.isFinished (Game.rail g1) then gameOver g1 else g1).
Proof.
  unfold Game_update. destruct (Game.isPlaying g); cbn [negb]; [|done].
  destruct (Rail.update _ _ _ _ _) as [rail cam]. by rewrite update_eq.
Qed.

Lemma game_inv_update delta now g g' :
  Game_update delta now g = Some g' → game_inv g → game_inv g'.
Proof.
  rewrite Game_update_eq. intros [= <-] Hinv.
  destruct (Game.isPlaying g) eqn:Hplay; cbn [negb]; [|done].
  destruct Hinv as (Hd & Hpd & _ & Hok).
  set (w1 := updateLoops delta (spawnStep delta (Game.targets g))).
  assert (step (Game.targets g) w1) as Hstep by (apply (step_update delta), update_eq).
  pose proof (displayed_step _ _ Hstep Hd) as Hd1.
  assert (projectiles_displayed w1 (Game.projectiles g)) as Hpd1.
  { eapply projectiles_displayed_extends; [by apply step_extends|done|].
    intros. apply not_elem_of_nil. }
  set (g0 := Game.mk w1 _ _ _ _ _ _). cbv zeta.
  unfold updateProjectiles.
  destruct (updateProjectiles_loop delta (Game.projectiles g0) g0) as [ps' g2] eqn:Hloop.
  destruct (updateProjectiles_loop_inv _ _ _ _ _ Hloop Hd1 Hpd1)
    as (Hd2 & Hpd2 & Hids & He2 & Hr2 & Hp2 & Hps2 & Hle2 & Hok2).
  cbn [Game.rail Game.set_projectiles].
  destruct (Rail.isFinished (Game.rail g2)).
  - unfold game_inv, gameOver, scoring_ok.
    cbn [Game.targets Game.projectiles Game.isPlaying Game.score Game.streak Game.hud
         Game.set_projectiles].
    destruct (gameOver_fold ps' (Game.targets g2)) as (Ht & Hp & Hn & Hs).
    split_and!.
    + apply (displayed_frame (Game.targets g2)); [done|done|done|lia|].
      intros i Hin. rewrite Hs. split; [tauto|]. intros ?. split; [done|].
      intros [proj [-> [_ Hpin]%list_elem_of_filter]]%list_elem_of_fmap.
      destruct Hpd2 as (_ & Hall). rewrite Forall_forall in Hall.
      by destruct (Hall proj Hpin) as (_ & Hni & _).
    + split; constructor.
    + done.
    + by apply Hok2.
    + by apply Hok2.
  - unfold game_inv.
    cbn [Game.targets Game.projectiles Game.isPlaying Game.set_projectiles].
    split_and!; [done|done| |].
    + rewrite Hp2. done.
    + destruct (Hok2 Hok) as [? ?]. by split.
Qed.

Lemma game_inv_step g g' : game_step g g' → game_inv g → game_inv g'.
Proof.
  intros [color origin direction g0|delta now g0 g1 Hu|img g0 Hin|img g0 Hin] Hinv.
  - unfold click. destruct (Game.isPlaying g0) eqn:Hplay; cbn [negb].
    + by apply game_inv_shoot.
    + by apply game_inv_start.
  - by eapply game_inv_update.
  - destruct Hinv as (Hd & Hpd & Hnp & Hok). split_and!; [| |done|done].
    + by apply (displayed_step (Game.targets g0)); [apply step_onload|].
    + eapply projectiles_displayed_extends;
        [by apply step_extends, step_onload|done|]. intros. apply not_elem_of_nil.
  - destruct Hinv as (Hd & Hpd & Hnp & Hok). split_and!; [| |done|done].
    + by apply (displayed_step (Game.targets g0)); [apply step_onerror|].
    + eapply projectiles_displayed_extends;
        [by apply step_extends, step_onerror|done|]. intros. apply not_elem_of_nil.
Qed.

Lemma game_reachable_inv ps g : rtc game_step (Game_init ps) g → game_inv g.
Proof.
  intros Hr. eapply (rtc_ind_r game_inv (Game_init ps)); [| |exact Hr].
  - apply game_inv_init.
  - intros x y _ Hs IH. by eapply game_inv_step.
Qed.

(** X13: in every state a game can reach from [init] (clicks, frames and
    image loads in any order), the pool and the scene agree as they do
    for the pool alone, the projectiles are distinct objects none of which
    is a sprite of the pool, a projectile's mesh is a child of the scene
    exactly while the projectile is alive, and a game that is not being
    played holds no projectile, so the array that [start] replaces is
    always empty. *)
Theorem projectiles_in_scene_while_alive ps g :
  rtc game_step (Game_init ps) g →
  displayed (Game.targets g)
  ∧ NoDup (projectile_id <$> Game.projectiles g)
  ∧ (∀ proj, proj ∈ Game.projectiles g →
       (projectile_id proj ∈ scene (Game.targets g) ↔ Projectile.alive proj = true)
       ∧ (projectile_id proj ∉ sprite_ids (Game.targets g)))
  ∧ (Game.isPlaying g = false → Game.projectiles g = []).
Proof.
  intros (Hd & (Hnd & Hall) & Hnp & _)%game_reachable_inv.
  split_and!; [done|done| |done].
  rewrite Forall_forall in Hall. intros proj Hin.
  by destruct (Hall proj Hin) as (_ & ? & ?).
Qed.

(** X14: a hit of the right colour extends the streak by one and adds
    [1 + Math.floor(streak / 5)] points for the extended streak, so at
    least one; a hit of the wrong colour adds nothing and resets the streak
    to 0.  Either way the score element then shows the new score, and the
    streak element is [active] and shows the new streak exactly when the
    new streak is at least 3, keeping its old text otherwise; the pool, the
    rail, [isPlaying] and the projectiles are untouched. *)
Theorem onHit_scores_by_streak player correct g :
  Game.streak (onHit player correct g) = (if correct then S (Game.streak g) else 0)
  ∧ Game.score (onHit player correct g)
    = Game.score g + (if correct then 1 + S (Game.streak g) / 5 else 0)
  ∧ (correct = true → Game.score g < Game.score (onHit player correct g))
  ∧ HUD.scoreEl (Game.hud (onHit player correct g))
    = Game.score (onHit player correct g)
  ∧ HUD.streakActive (Game.hud (onHit player correct g))
    = bool_decide (3 ≤ Game.streak (onHit player correct g))
  ∧ HUD.streakEl (Game.hud (onHit player correct g))
    = (if bool_decide (3 ≤ Game.streak (onHit player correct g))
       then Some (Game.streak (onHit player correct g))
       else HUD.streakEl (Game.hud g))
  ∧ Game.targets (onHit player correct g) = Game.targets g
  ∧ Game.rail (onHit player correct g) = Game.rail g
  ∧ Game.isPlaying (onHit player correct g) = Game.isPlaying g
  ∧ Game.projectiles (onHit player correct g) = Game.projectiles g.
Proof.
  destruct (onHit_fields player correct g) as (? & ? & ? & ? & Hst & Hsc & ? & ?).
  split_and!; try done.
  - intros ->. rewrite Hsc. lia.
  - rewrite Hst. unfold onHit, HUD.updateScore.
    destruct correct; cbn [Game.hud]; by destruct (bool_decide _).
Qed.


Lemma updateProjectile_cases delta proj g proj' g' :
  updateProjectile delta proj g = (proj', g') →
  projectile_id proj' = projectile_id proj
  ∧ Projectile.velocity proj' = Projectile.velocity proj
  ∧ Projectile.color proj' = Projectile.color proj
  ∧ (Projectile.alive proj = false → proj' = proj)
  ∧ (Projectile.alive proj = true →
     Mesh.position (Projectile.mesh proj')
     = Vector3.add (Mesh.position (Projectile.mesh proj))
         (Vector3.multiplyScalar (Projectile.velocity proj) delta))
  ∧ (Projectile.alive proj' = true →
     Projectile.alive proj = true
     ∧ Num.lt (Vector3.z (Mesh.position (Projectile.mesh proj'))) (-200) = false
     ∧ Num.gt (Vector3.z (Mesh.position (Projectile.mesh proj'))) 50 = false)
  ∧ aliveCount (Game.targets g)
    ≤ aliveCount (Game.targets g')
      + (if Projectile.alive proj && negb (Projectile.alive proj') then 1 else 0).
Proof.
  intros Hu. unfold updateProjectile in Hu.
  destruct (Projectile.alive proj) eqn:Ha; cbn [negb] in Hu.
  2:{ injection Hu as <- <-. rewrite Ha. split_and!; try done. cbn. lia. }
  set (position := Vector3.add _ _) in Hu. cbn [Projectile.color] in Hu.
  pose proof (checkHit_cases position (Projectile.color proj) (Game.targets g)) as Hc.
  destruct (checkHit position (Projectile.color proj) (Game.targets g)) as [hit w].
  cbn [fst snd] in Hc.
  destruct Hc as [[-> ->]|(j & t & Hj & Hta & -> & Hts)].
  - destruct (Num.lt _ _ || Num.gt _ _) eqn:Hout.
    + injection Hu as <- <-. split_and!; try done.
      cbn [Game.targets Game.set_targets removeProjectile fst snd Projectile.alive
           andb negb].
      unfold aliveCount, getAliveTargets. cbn [targets scene_remove set_scene]. lia.
    + injection Hu as <- <-. apply orb_false_iff in Hout as [? ?].
      split_and!; try done.
      cbn [Game.targets Game.set_targets Projectile.alive andb negb]. lia.
  - injection Hu as <- <-. split_and!; try done.
    assert (aliveCount (Game.targets g) = S (aliveCount w)) as ->.
    { unfold aliveCount, getAliveTargets. rewrite Hts.
      by apply aliveCount_retire. }
    cbn [Game.targets Game.set_targets removeProjectile fst snd Projectile.alive
         andb negb hit_player correct].
    rewrite (proj1 (onHit_fields _ _ _)). cbn [Game.targets Game.set_targets].
    unfold aliveCount, getAliveTargets. cbn [targets scene_remove set_scene]. lia.
Qed.

Lemma updateProjectiles_loop_cases delta ps g ps' g' :
  updateProjectiles_loop delta ps g = (ps', g') →
  Forall2
    (λ proj proj',
       projectile_id proj' = projectile_id proj
       ∧ Projectile.velocity proj' = Projectile.velocity proj
       ∧ Projectile.color proj' = Projectile.color proj
       ∧ (Projectile.alive proj = false → proj' = proj)
       ∧ (Projectile.alive proj = true →
          Mesh.position (Projectile.mesh proj')
          = Vector3.add (Mesh.position (Projectile.mesh proj))
              (Vector3.multiplyScalar (Projectile.velocity proj) delta))
       ∧ (Projectile.alive proj' = true →
          Projectile.alive proj = true
          ∧ Num.lt (Vector3.z (Mesh.position (Projectile.mesh proj'))) (-200) = false
          ∧ Num.gt (Vector3.z (Mesh.position (Projectile.mesh proj'))) 50 = false))
    ps ps'
  ∧ aliveCount (Game.targets g) + length (aliveProjectiles ps')
    ≤ aliveCount (Game.targets g') + length (aliveProjectiles ps).
Proof.
  revert ps' g'. induction ps as [|proj rest IH]; intros ps' g' Hu;
    cbn [updateProjectiles_loop] in Hu.
  - injection Hu as <- <-. split; [constructor|lia].
  - destruct (updateProjectiles_loop delta rest g) as [rest' g1] eqn:Hrest.
    destruct (updateProjectile delta proj g1) as [proj' g2] eqn:Hproj.
    injection Hu as <- <-.
    destruct (IH rest' g1 eq_refl) as (Hall & Hcount).
    destruct (updateProjectile_cases _ _ _ _ _ Hproj)
      as (Hid & Hv & Hc & Hdead & Hmove & Hlive & Hcount').
    split; [constructor; [by split_and!|done]|].
    unfold aliveProjectiles in *. rewrite !filter_cons.
    destruct (Projectile.alive proj) eqn:Ha, (Projectile.alive proj') eqn:Ha';
      cbn [andb negb] in Hcount'.
    + rewrite !decide_True by done. cbn [length]. lia.
    + rewrite (decide_True (P := true = true)), (decide_False (P := false = true))
        by done. cbn [length]. lia.
    + by destruct (Hlive eq_refl).
    + rewrite !decide_False by done. lia.
Qed.

Lemma updateProjectile_frame delta proj g :
  Game.score g ≤ Game.score (snd (updateProjectile delta proj g))
  ∧ Game.rail (snd (updateProjectile delta proj g)) = Game.rail g
  ∧ Game.isPlaying (snd (updateProjectile delta proj g)) = Game.isPlaying g
  ∧ Game.projectiles (snd (updateProjectile delta proj g)) = Game.projectiles g.
Proof.
  unfold updateProjectile.
  destruct (Projectile.alive proj); cbn [negb]; [|done].
  destruct (checkHit _ _ _) as [[hit|] w].
  - destruct (onHit_fields (hit_player hit) (correct hit) (Game.set_targets w g))
      as (_ & Hr & Hp & Hps & _).
    destruct (onHit_scoring (hit_player hit) (correct hit) (Game.set_targets w g))
      as (Hle & _).
    cbn [removeProjectile snd Game.set_targets Game.score Game.rail Game.isPlaying
         Game.projectiles] in *. by split_and!.
  - by destruct (Num.lt _ _ || Num.gt _ _).
Qed.

Lemma updateProjectiles_loop_frame delta ps g :
  Game.score g ≤ Game.score (snd (updateProjectiles_loop delta ps g))
  ∧ Game.rail (snd (updateProjectiles_loop delta ps g)) = Game.rail g
  ∧ Game.isPlaying (snd (updateProjectiles_loop delta ps g)) = Game.isPlaying g
  ∧ Game.projectiles (snd (updateProjectiles_loop delta ps g)) = Game.projectiles g.
Proof.
  induction ps as [|proj rest IH]; cbn [updateProjectiles_loop]; [done|].
  destruct (updateProjectiles_loop delta rest g) as [rest' g1]. cbn [snd] in IH.
  pose proof (updateProjectile_frame delta proj g1) as Hf.
  destruct (updateProjectile delta proj g1) as [proj' g2]. cbn [snd] in *.
  destruct IH as (? & ? & ? & ?), Hf as (? & ? & ? & ?).
  split_and!; [lia|congruence..].
Qed.

Lemma updateProjectiles_loop_app delta l1 l2 g :
  updateProjectiles_loop delta (l1 ++ l2) g
  = (fst (updateProjectiles_loop delta l1 (snd (updateProjectiles_loop delta l2 g)))
     ++ fst (updateProjectiles_loop delta l2 g),
     snd (updateProjectiles_loop delta l1 (snd (updateProjectiles_loop delta l2 g)))).
Proof.
  induction l1 as [|proj l1 IH]; cbn [app updateProjectiles_loop].
  - by destruct (updateProjectiles_loop delta l2 g).
  - rewrite IH.
    destruct (updateProjectiles_loop delta l1 _) as [l1' g1]. cbn [fst snd].
    by destruct (updateProjectile delta proj g1).
Qed.

Lemma updateProjectiles_loop_length delta ps g :
  length (fst (updateProjectiles_loop delta ps g)) = length ps.
Proof.
  destruct (updateProjectiles_loop delta ps g) as [ps' g'] eqn:Hl.
  destruct (updateProjectiles_loop_cases _ _ _ _ _ Hl) as (Hall & _).
  cbn [fst]. symmetry. by eapply Forall2_length.
Qed.

(** X16: what [updateProjectiles] does with one projectile.  A dead one
    is skipped.  A live one is moved by its velocity times [delta] and shot
    at the pool from its new position with its own colour.  It stays alive
    exactly if [checkHit] returns no hit and the new position is within
    [-200 <= z <= 50]; otherwise it is removed: dead, disposed, its mesh out
    of the scene.  On a hit the game is what [onHit] makes of it with the
    hit's player and [correct] flag, on the pool [checkHit] left; without
    a hit nothing changes but that removal. *)
Theorem updateProjectile_resolves_shot delta proj g :
  let position :=
    Vector3.add (Mesh.position (Projectile.mesh proj))
      (Vector3.multiplyScalar (Projectile.velocity proj) delta) in
  let hit := checkHit position (Projectile.color proj) (Game.targets g) in
  let out := Num.lt (Vector3.z position) (-200) || Num.gt (Vector3.z position) 50 in
  let proj' := fst (updateProjectile delta proj g) in
  let g' := snd (updateProjectile delta proj g) in
  (Projectile.alive proj = false → proj' = proj ∧ g' = g)
  ∧ (Projectile.alive proj = true →
     projectile_id proj' = projectile_id proj
     ∧ Projectile.velocity proj' = Projectile.velocity proj
     ∧ Projectile.color proj' = Projectile.color proj
     ∧ Mesh.position (Projectile.mesh proj') = position
     ∧ (Projectile.alive proj' = true ↔ fst hit = None ∧ out = false)
     ∧ (Projectile.alive proj' = false →
        Mesh.disposed (Projectile.mesh proj') = true
        ∧ (projectile_id proj ∉ scene (Game.targets g')))
     ∧ (Projectile.alive proj' = true →
        Mesh.disposed (Projectile.mesh proj') = Mesh.disposed (Projectile.mesh proj)
        ∧ g' = g)
     ∧ (fst hit = None → out = true →
        g' = Game.set_targets (scene_remove (projectile_id proj) (Game.targets g)) g)
     ∧ (∀ h, fst hit = Some h →
             g' = Game.set_targets (scene_remove (projectile_id proj) (snd hit))
                    (onHit (hit_player h) (correct h)
                       (Game.set_targets (snd hit) g)))).
Proof.
  cbv zeta. unfold updateProjectile, Vector3.clone.
  split; [by intros ->|]. intros Ha. rewrite Ha. cbn [negb Projectile.color].
  set (position := Vector3.add _ _).
  set (out := _ || _).
  pose proof (checkHit_cases position (Projectile.color proj) (Game.targets g)) as Hc.
  assert (∀ i w, i ∉ scene (scene_remove i w)) as Hrem.
  { intros i w. cbn [scene scene_remove set_scene]. rewrite list_elem_of_filter. tauto. }
  assert (Game.set_targets (Game.targets g) g = g) as Heta by (by destruct g).
  destruct (checkHit position (Projectile.color proj) (Game.targets g)) as [hit w].
  cbn [fst snd] in *.
  destruct Hc as [[-> ->]|(j & t & _ & _ & -> & _)].
  - rewrite Heta. destruct out eqn:Hout.
    + cbn [removeProjectile fst snd Game.targets Game.set_targets Projectile.alive
           Projectile.mesh Projectile.velocity Projectile.color Mesh.id Mesh.position
           Mesh.disposed projectile_id].
      split_and!; try done.
      all: try (split; [done|]; by intros [_ ?]).
      all: try (intros _; split; [done|]; apply Hrem).
    + cbn [fst snd Projectile.alive Projectile.mesh Projectile.velocity
           Projectile.color Mesh.id Mesh.position Mesh.disposed projectile_id].
      by split_and!.
  - rewrite (proj1 (onHit_fields _ _ _)).
    cbn [removeProjectile fst snd Game.targets Game.set_targets Projectile.alive
         Projectile.mesh Projectile.velocity Projectile.color Mesh.id Mesh.position
         Mesh.disposed projectile_id].
    split_and!; try done.
    all: try (split; [done|]; by intros [? _]).
    all: try (intros _; split; [done|]; apply Hrem).
    all: try by intros h' [= <-].
Qed.

(** X17: one pass of [updateProjectiles] handles the projectiles from the
    last to the first: each is resolved, as the loop body does, against the
    game as the projectiles after it have left it, and takes the place it
    had.  Each projectile resolves at most one hit and is consumed by it:
    the live targets lost in the pass are at most the live projectiles lost
    in it.  The pass never lowers the score and leaves the rail and
    [isPlaying] as they are. *)
Theorem updateProjectiles_last_to_first delta g :
  length (Game.projectiles (updateProjectiles delta g))
  = length (Game.projectiles g)
  ∧ (∀ l1 proj l2,
       Game.projectiles g = l1 ++ proj :: l2 →
       Game.projectiles (updateProjectiles delta g) !! length l1
       = Some (fst (updateProjectile delta proj
                      (snd (updateProjectiles_loop delta l2 g)))))
  ∧ aliveCount (Game.targets g)
    + length (aliveProjectiles (Game.projectiles (updateProjectiles delta g)))
    ≤ aliveCount (Game.targets (updateProjectiles delta g))
      + length (aliveProjectiles (Game.projectiles g))
  ∧ Game.score g ≤ Game.score (updateProjectiles delta g)
  ∧ Game.rail (updateProjectiles delta g) = Game.rail g
  ∧ Game.isPlaying (updateProjectiles delta g) = Game.isPlaying g.
Proof.
  unfold updateProjectiles.
  pose proof (updateProjectiles_loop_length delta (Game.projectiles g) g) as Hlen.
  pose proof (updateProjectiles_loop_frame delta (Game.projectiles g) g)
    as (Hle & Hr & Hp & _).
  assert (∀ l1 proj l2,
            Game.projectiles g = l1 ++ proj :: l2 →
            fst (updateProjectiles_loop delta (Game.projectiles g) g) !! length l1
            = Some (fst (updateProjectile delta proj
                           (snd (updateProjectiles_loop delta l2 g))))) as Hat.
  { intros l1 proj l2 ->. rewrite updateProjectiles_loop_app. cbn [fst].
    rewrite lookup_app_r by (by rewrite updateProjectiles_loop_length).
    rewrite updateProjectiles_loop_length, Nat.sub_diag.
    cbn [updateProjectiles_loop].
    destruct (updateProjectiles_loop delta l2 g) as [l2' g2]. cbn [snd].
    by destruct (updateProjectile delta proj g2). }
  destruct (updateProjectiles_loop delta (Game.projectiles g) g) as [ps' g'] eqn:Hloop.
  cbn [fst snd Game.projectiles Game.targets Game.set_projectiles Game.score
       Game.rail Game.isPlaying] in *.
  split_and!; [done|done| |done|done|done].
  by apply (updateProjectiles_loop_cases _ _ _ _ _ Hloop).
Qed.

(** X18: a frame of a game that is not being played changes nothing.  A
    frame of a game that is played always completes: the rail is advanced
    by [Rail.update], the pool by [update], and then the projectiles are
    passed over; the score is not lowered.  If the rail has not finished the
    game goes on in that state.  If it has, the game is over: it is no
    longer played and holds no projectile, the meshes of the projectiles it
    held are taken out of the scene and nothing else is, so none of the
    projectiles held before the frame is a child of the scene any more,
    while rail, HUD, score, streak and the targets and popups of the pool
    stay as the pass left them. *)
Theorem Game_update_ends_with_rail ps delta now g :
  rtc game_step (Game_init ps) g →
  ∃ g',
    Game_update delta now g = Some g'
    ∧ (Game.isPlaying g = false → g' = g)
    ∧ (Game.isPlaying g = true →
       ∃ w1 g1,
         update delta (Game.targets g) = Some w1
         ∧ g1 = updateProjectiles delta
                  (Game.mk w1
                     (fst (Rail.update Math_sin Math_cos delta now (Game.rail g)))
                     (Game.hud g) (Game.score g) (Game.streak g) true
                     (Game.projectiles g))
         ∧ Game.rail g1 = fst (Rail.update Math_sin Math_cos delta now (Game.rail g))
         ∧ Game.isPlaying g1 = true
         ∧ Game.score g ≤ Game.score g1
         ∧ (Rail.isFinished (Game.rail g1) = false → g' = g1)
         ∧ (Rail.isFinished (Game.rail g1) = true →
            Game.isPlaying g' = false
            ∧ Game.projectiles g' = []
            ∧ Game.rail g' = Game.rail g1
            ∧ Game.hud g' = Game.hud g1
            ∧ Game.score g' = Game.score g1
            ∧ Game.streak g' = Game.streak g1
            ∧ targets (Game.targets g') = targets (Game.targets g1)
            ∧ namePopups (Game.targets g') = namePopups (Game.targets g1)
            ∧ (∀ i, i ∈ scene (Game.targets g')
                    ↔ i ∈ scene (Game.targets g1)
                      ∧ i ∉ projectile_id <$> Game.projectiles g1)
            ∧ (∀ proj, proj ∈ Game.projectiles g →
                       projectile_id proj ∉ scene (Game.targets g')))).
Proof.
  intros (Hd & Hpd & _ & _)%game_reachable_inv.
  eexists. split; [apply Game_update_eq|].
  split; [by intros ->|]. intros Hplay. rewrite Hplay. cbn [negb].
  set (w1 := updateLoops delta (spawnStep delta (Game.targets g))).
  assert (step (Game.targets g) w1) as Hstep by (apply (step_update delta), update_eq).
  pose proof (displayed_step _ _ Hstep Hd) as Hd1.
  assert (projectiles_displayed w1 (Game.projectiles g)) as Hpd1.
  { eapply projectiles_displayed_extends; [by apply step_extends|done|].
    intros. apply not_elem_of_nil. }
  set (g0 := Game.mk w1 _ _ _ _ _ _). cbv zeta.
  exists w1, (updateProjectiles delta g0). split; [apply update_eq|].
  split; [done|].
  unfold updateProjectiles.
  destruct (updateProjectiles_loop delta (Game.projectiles g0) g0) as [ps' g2] eqn:Hloop.
  destruct (updateProjectiles_loop_inv _ _ _ _ _ Hloop Hd1 Hpd1)
    as (Hd2 & Hpd2 & Hids & He2 & Hr2 & Hp2 & Hps2 & Hle2 & Hok2).
  cbn [Game.rail Game.isPlaying Game.score Game.set_projectiles].
  split; [done|]. split; [done|]. split; [done|].
  destruct (Rail.isFinished (Game.rail g2)) eqn:Hfin; (split; [done|]); [|done].
  intros _. unfold gameOver.
  cbn [Game.targets Game.projectiles Game.isPlaying Game.score Game.rail Game.hud
       Game.streak Game.set_projectiles].
  destruct (gameOver_fold ps' (Game.targets g2)) as (Ht & Hp & _ & Hs).
  assert (∀ i, i ∈ scene (Game.targets g2) →
               (i ∉ projectile_id <$> aliveProjectiles ps') →
               i ∉ projectile_id <$> ps') as Hdead.
  { intros i Hsc Hnal [proj' [-> Hin']]%list_elem_of_fmap.
    destruct Hpd2 as (_ & Hall). rewrite Forall_forall in Hall.
    destruct (Hall proj' Hin') as (_ & _ & Hiff).
    apply Hnal, list_elem_of_fmap_2, list_elem_of_filter. split; [|done].
    by apply Hiff. }
  assert (∀ i, i ∈ scene
                     (foldl (λ w proj,
                               if Projectile.alive proj
                               then snd (removeProjectile proj w) else w)
                        (Game.targets g2) ps')
               ↔ i ∈ scene (Game.targets g2) ∧ i ∉ projectile_id <$> ps') as Hscene.
  { intros i. rewrite Hs. split; intros [Hsc Hn]; (split; [done|]).
    - by apply Hdead.
    - intros [proj' [-> [_ Hin']%list_elem_of_filter]]%list_elem_of_fmap.
      by apply Hn, list_elem_of_fmap_2. }
  split_and!; try done.
  intros proj Hin [_ Hn]%Hscene. apply Hn. rewrite Hids.
  by apply list_elem_of_fmap_2.
Qed.

End Host.

(** ** Restarting a session *)

(** C5: [start] is idempotent and empties the pool whatever the state
    before: no live target, no popup, player cursor 0, spawn timer 0.  It
    does not touch the scene, though, so the sprites of the targets and
    popups it drops remain children of the scene.  In a session of one
    player, one tick of 0.5 spawns a target whose sprite is in the scene;
    after a restart the pool is empty and that sprite is still in the
    scene. *)
Theorem start_leaves_sprites_in_scene :
  (∀ w,
      start (start w) = start w
      ∧ aliveCount (start w) = 0
      ∧ targets (start w) = []
      ∧ namePopups (start w) = []
      ∧ playerIndex (start w) = 0
      ∧ spawnTimer (start w) = 0%float
      ∧ scene (start w) = scene w)
  ∧ (∃ w1 target,
        update still_random still_sin still_cos 0.5 sample_session = Some w1
        ∧ targets w1 = [target]
        ∧ Target.alive target = true
        ∧ scene w1 = [target_id target]
        ∧ aliveCount (start w1) = 0
        ∧ targets (start w1) = []
        ∧ scene (start w1) = [target_id target]).
Proof.
  split; [by intros w; split_and!|].
  eexists _, _. split; [apply update_eq|].
  split; [vm_compute; reflexivity|]. by vm_compute.
Qed.

(** ** The avatar cache under duplicate calls *)

(** C8 fails on two calls for one URL made before the first load has
    finished: each call creates its own image and issues its own request,
    the two promises resolve with two different images, and the cache ends
    up holding the one whose load finished last. *)
Lemma loadAvatar_requests_twice :
  let url := profilePicture sample_player in
  let call1 := loadAvatar url new_PlayerTargets in
  let call2 := loadAvatar url (snd call1) in
  requests new_PlayerTargets = []
  ∧ requests (snd call2) = [url; url]
  ∧ resolution (fst call1) ≠ resolution (fst call2)
  ∧ avatarCache
      (onload (resolution (fst call2)) (onload (resolution (fst call1)) (snd call2)))
    !! url
    = Some (resolution (fst call2)).
Proof. by vm_compute. Qed.

(** ** The statements at concrete inputs *)

Lemma update_spawns_once_per_crossing_witness :
  ∃ w', updates still_random still_sin still_cos [0.3; 0.3]%float sample_session = Some w'
        ∧ length (targets sample_session) < length (targets w').
Proof.
  destruct (update_spawns_once_per_crossing still_random still_sin still_cos
              0.5 [0.3; 0.3]%float sample_session basic_scenario)
    as (_ & _ & H & _).
  apply H; [discriminate | vm_compute; lia | reflexivity].
Defined.

Lemma checkHit_first_in_range_witness :
  fst (checkHit still_random near_position red miss_scenario)
  = Some (mkHit sample_player true)
  ∧ fst (checkHit still_random near_position red two_in_range)
    = Some (mkHit sample_player true)
  ∧ fst (checkHit still_random far_position red miss_scenario) = None.
Proof.
  split_and!.
  - destruct (checkHit_first_in_range still_random near_position red miss_scenario)
      as (H & _ & _).
    apply (H [] miss_target []); [reflexivity | constructor | reflexivity].
  - destruct (checkHit_first_in_range still_random near_position red two_in_range)
      as (H & _ & _).
    apply (H [] miss_target [closer_target]); [reflexivity | constructor | reflexivity].
  - destruct (checkHit_first_in_range still_random far_position red miss_scenario)
      as (_ & H & _).
    apply H. repeat constructor.
Defined.

Lemma checkHit_retires_match_witness :
  fst (checkHit still_random near_position blue miss_scenario)
  = Some (mkHit sample_player false)
  ∧ target_id miss_target ∉ scene (snd (checkHit still_random near_position blue miss_scenario)).
Proof.
  destruct (checkHit_retires_match still_random near_position blue miss_scenario
              [] miss_target [])
    as (Hr & _ & Hs & _).
  - reflexivity.
  - constructor.
  - reflexivity.
  - constructor; [vm_compute; lia | constructor].
  - split; [exact Hr | exact Hs].
Defined.

Lemma checkHit_retires_at_most_one_witness :
  ∃ w'',
    calls still_random still_sin still_cos
      [Shoot near_position red; Advance 0.1%float]
      (snd (checkHit still_random near_position red miss_scenario))
    = Some w''
    ∧ targets w'' !! 0 = Some (retired miss_target).
Proof.
  destruct (checkHit_retires_at_most_one still_random still_sin still_cos
              near_position red
              (snd (checkHit still_random near_position red miss_scenario)))
    as (_ & _ & _ & H & _).
  apply H; reflexivity.
Defined.

Lemma update_integrates_velocity_witness :
  ∃ w' t',
    update still_random still_sin still_cos 1 miss_scenario = Some w'
    ∧ targets w' !! 0 = Some t'
    ∧ Sprite.position (Target.mesh t')
      = Vector3.add (Sprite.position (Target.mesh miss_target))
          (Vector3.multiplyScalar (Target.velocity miss_target) 1)
    ∧ Target.velocity t' = Target.velocity miss_target
    ∧ Target.alive t'
      = negb (Num.gt (Vector3.z (Sprite.position (Target.mesh t'))) 5).
Proof.
  destruct (update_integrates_velocity still_random still_sin still_cos
              1 [] miss_scenario 0 miss_target basic_scenario 0 basic_target)
    as (H & _).
  apply H; reflexivity.
Defined.

Lemma update_retires_passed_witness :
  ∃ w' t',
    update still_random still_sin still_cos 1 miss_scenario = Some w'
    ∧ targets w' !! 0 = Some t'
    ∧ Target.alive t' = false
    ∧ (target_id miss_target ∉ scene w')
    ∧ namePopups w' = [].
Proof.
  destruct (update_retires_passed still_random still_sin still_cos
              1 miss_scenario 0 miss_target eq_refl eq_refl)
    as ((w' & t' & Hu & Ht & Ha & _ & _ & Hs & Hn & _) & _).
  exists w', t'. repeat split; assumption.
Defined.

Lemma loadAvatar_cached_or_requested_witness :
  let img := mkImage 0 (profilePicture sample_player) in
  let w := onload img new_PlayerTargets in
  let w' := start (setPlayers [sample_player] w) in
  loadAvatar (profilePicture sample_player) w = (Resolved img, w)
  ∧ loadAvatar (profilePicture sample_player) w' = (Resolved img, w').
Proof.
  intros img w w'.
  destruct (loadAvatar_cached_or_requested still_random still_sin still_cos
              (profilePicture sample_player) w)
    as (H & _ & _ & _ & _ & Hsteps).
  split; [apply H; reflexivity|].
  apply (Hsteps img w').
  - reflexivity.
  - intros i Hi. vm_compute in Hi. by apply elem_of_nil in Hi.
  - eapply rtc_l; [apply (step_setPlayers _ _ _ [sample_player])|].
    apply rtc_once, step_start.
Defined.

Lemma update_stops_when_exhausted_witness :
  ∃ w',
    update still_random still_sin still_cos 0.5 miss_scenario = Some w'
    ∧ length (targets w') = length (targets miss_scenario)
    ∧ playerIndex w' = playerIndex miss_scenario.
Proof.
  destruct (update_stops_when_exhausted still_random still_sin still_cos
              0.5 miss_scenario basic_scenario
              sample_player sample_player sample_player)
    as (H & _).
  apply H. vm_compute. lia.
Defined.

Lemma checkHit_null_unchanged_witness :
  snd (checkHit still_random far_position red miss_scenario) = miss_scenario.
Proof.
  apply checkHit_null_unchanged. reflexivity.
Defined.

(** ** Further statements at concrete inputs *)

Lemma reachable_displayed_witness :
  ∃ w, update still_random still_sin still_cos 0.5 sample_session = Some w
       ∧ displayed w.
Proof.
  eexists. split; [apply update_eq|].
  apply (reachable_displayed still_random still_sin still_cos).
  eapply rtc_r; [eapply rtc_r; [eapply rtc_once|]|].
  - apply (step_setPlayers _ _ _ [sample_player]).
  - apply step_start.
  - apply (step_update _ _ _ 0.5%float), update_eq.
Defined.

Lemma reachable_cache_sound_witness :
  let url := profilePicture sample_player in
  let img := mkImage 0 url in
  let w := onload img (setPlayers [sample_player] new_PlayerTargets) in
  avatarCache w !! url = Some img ∧ src img = url ∧ url ∈ requests w.
Proof.
  intros url img w.
  assert (reachable still_random still_sin still_cos w) as Hr.
  { eapply rtc_r; [eapply rtc_once; apply (step_setPlayers _ _ _ [sample_player])|].
    apply step_onload. vm_compute. constructor. }
  destruct (reachable_cache_sound still_random still_sin still_cos w Hr) as [H _].
  split; [reflexivity|]. apply H. reflexivity.
Defined.

Lemma step_keeps_target_card_witness :
  keeps_card 0 miss_target (onload (mkImage 7 "late.png") miss_scenario)
  ∧ keeps_card 0 miss_target (snd (checkHit still_random near_position red miss_scenario))
  ∧ targets (start miss_scenario) = [].
Proof.
  destruct (step_keeps_target_card still_random still_sin still_cos
              miss_scenario 0 miss_target eq_refl)
    as (_ & _ & Hshot & Hload & _ & _ & Hstart).
  split_and!; [apply Hload|apply Hshot|exact Hstart].
Defined.

Lemma update_moves_new_target_witness :
  ∃ w' t',
    update still_random still_sin still_cos 0.5 sample_session = Some w'
    ∧ targets w' !! 0 = Some t'
    ∧ Target.player t' = sample_player
    ∧ Target.spawnTime t' = 0.5%float
    ∧ Vector3.z (Sprite.position (Target.mesh t')) = (-132)%float.
Proof.
  destruct (update_moves_new_target still_random still_sin still_cos
              0.5 sample_session sample_player eq_refl eq_refl)
    as (w' & t' & Hu & Ht & Hp & _ & _ & Hs & Hpos & _).
  exists w', t'. split_and!; [exact Hu|exact Ht|exact Hp|exact Hs|].
  rewrite Hpos.
  assert (Target.velocity t' = Vector3.mk 0 0 16) as ->.
  { rewrite update_eq in Hu. injection Hu as <-.
    vm_compute in Ht. by injection Ht as <-. }
  reflexivity.
Defined.

Lemma ticker_runs_one_loop_witness :
  Ticker.isRunning (Ticker.subscribe 0 (Ticker.new 0 16)) = true
  ∧ Ticker.pending (Ticker.subscribe 0 (Ticker.new 0 16)) = 1.
Proof.
  apply (ticker_runs_one_loop 0 16).
  apply rtc_once, Ticker.tk_subscribe.
Defined.

Lemma rail_progress_at_most_1_witness :
  Num.gt (Rail.progress (fst (Rail.update still_sin still_cos 90 0 Rail.new))) 1 = false
  ∧ (Rail.isFinished (fst (Rail.update still_sin still_cos 90 0 Rail.new)) = true →
     Rail.progress (fst (Rail.update still_sin still_cos 90 0 Rail.new)) = 1%float).
Proof.
  apply (rail_progress_at_most_1 still_sin still_cos).
  apply rtc_once, Rail.rl_update.
Defined.

Lemma shot_game_reachable :
  rtc (game_step still_random still_sin still_cos) (Game_init [sample_player]) shot_game.
Proof.
  unfold shot_game.
  eapply rtc_l; [apply (game_click _ _ _ red (Vector3.mk 0 0 0) (Vector3.mk 0 0 (-1)))|].
  apply rtc_once, game_click.
Qed.

Lemma projectiles_in_scene_while_alive_witness :
  displayed (Game.targets shot_game)
  ∧ NoDup (projectile_id <$> Game.projectiles shot_game)
  ∧ (∀ proj, proj ∈ Game.projectiles shot_game →
       (projectile_id proj ∈ scene (Game.targets shot_game)
        ↔ Projectile.alive proj = true)
       ∧ (projectile_id proj ∉ sprite_ids (Game.targets shot_game)))
  ∧ (Game.isPlaying shot_game = false → Game.projectiles shot_game = []).
Proof.
  apply (projectiles_in_scene_while_alive still_random still_sin still_cos
           [sample_player]).
  apply shot_game_reachable.
Defined.


Lemma Game_update_ends_with_rail_witness :
  ∃ g',
    Game_update still_random still_sin still_cos 0.016 0 shot_game = Some g'
    ∧ Game.isPlaying g' = true
    ∧ Game.rail g' = fst (Rail.update still_sin still_cos 0.016 0 (Game.rail shot_game)).
Proof.
  destruct (Game_update_ends_with_rail still_random still_sin still_cos
              [sample_player] 0.016 0 shot_game shot_game_reachable)
    as (g' & Hu & _ & Hplay).
  destruct (Hplay eq_refl) as (w1 & g1 & _ & _ & Hr & Hp & _ & Hon & _).
  exists g'. split; [exact Hu|].
  assert (g' = g1) as -> by (apply Hon; rewrite Hr; reflexivity).
  split; [exact Hp|exact Hr].
Defined.
